(** * figma-node-report: the incremental tree crawler

    A shallow embedding of the traversal core of [figma-node-report.mjs]:
    the node normalizer ([normalizeNode], [pick], [omit], [isVisibleNode]),
    the retrying fetcher ([shouldRetry], [figmaFetchJson]), the worker pool
    ([mapLimit]) and the frontier crawler ([crawlSubtree], [enqueue]).

    Data.  A parsed JSON value is a [json]; a JavaScript object obtained
    from JSON is the finite map of its own data properties, [gmap string
    json].  The remote API fixes the shape of what the crawler reads: a node
    identifier is a string, a node document is an object, the entries of its
    [children] array are objects (node stubs) whose [id] is a string, and
    the [nodes] member of a response is an object keyed by identifier.  The
    crawler, and the [childIds] field of [normalizeNode] it reads, take a
    value of another shape as absent; [Normalizer.childIdValues] is the
    computation of [childIds] on any document, whatever its shape.

    A number is the rational it denotes; where the code multiplies two
    doubles, the product is rounded to the nearest double ([toDouble]).

    Control.  [figmaFetchJson] runs against an oracle for the outcomes of
    its [fetch] calls and for [Math.random()].  [mapLimit] and
    [crawlSubtree] are asynchronous: JavaScript runs each piece of code
    between two suspensions to its end, so they are state machines whose
    events are the settlements of the awaited units of work, in any order
    and with any outcome.  A property of every crawl is a property of the
    state reached under every list of events. *)

From Stdlib Require Import ZArith QArith Qround Qabs Qpower Lqa Lia Ascii.
From stdpp Require Import gmap strings list fin_maps.

Set Warnings "-clear-no-such-hyp".

#[local] Close Scope Q_scope.
#[local] Open Scope string_scope.
#[local] Open Scope nat_scope.
#[local] Open Scope list_scope.

(** ** JSON values *)

#[warnings="-register-all"]
Inductive json : Type :=
  | JNull
  | JBool (b : bool)
  | JNum (q : Q)
  | JStr (s : string)
  | JArr (l : list json)
  | JObj (o : gmap string json).

Abbreviation obj := (gmap string json).

(** NodeId: an opaque string. *)
Abbreviation NodeId := string.

(** [v.k] for a parsed value [v]: the own property of an object, [undefined]
    ([None]) on anything else. *)
Definition member (v : json) (k : string) : option json :=
  match v with
  | JObj o => o !! k
  | _ => None
  end.

(** An identifier-valued property, read as a string ([undefined] when the
    property is absent). *)
Definition asId (v : option json) : option NodeId :=
  match v with
  | Some (JStr s) => Some s
  | _ => None
  end.

(** [Boolean(id)] on an identifier that may be [undefined]: the empty string
    and [undefined] are falsy. *)
Definition truthyId (v : option NodeId) : bool :=
  match v with
  | Some s => negb (String.eqb s "")
  | None => false
  end.

Module Normalizer.

(** [isVisibleNode(node)]: [node?.visible !== false]. *)
Definition isVisibleNode (node : json) : bool :=
  match member node "visible" with
  | Some (JBool false) => false
  | _ => true
  end.

(** [pick(obj, keys)]: [for (const k of keys) if (k in obj) out[k] = obj[k]].
    It is called with [knownKeys] only, none of which names a member of
    [Object.prototype]: for them [k in obj] is [obj] having the property
    itself, and [out[k] = ...] creates it on [out]. *)
Definition pick (o : obj) (keys : list string) : obj :=
  foldl (λ out k, match o !! k with
                  | Some v => <[k := v]> out
                  | None => out
                  end) ∅ keys.

(** [omit(obj, keysToOmit)]: [out[k] = v] for every entry of
    [Object.entries(obj)] whose key is not in the set.  For the key
    [__proto__] the assignment runs the setter that [out] inherits from
    [Object.prototype], which creates no property on [out]. *)
Definition omit (o : obj) (keysToOmit : gset string) : obj :=
  foldl (λ out kv, if decide (kv.1 ∈ keysToOmit) then out
                   else if String.eqb kv.1 "__proto__" then out
                   else <[kv.1 := kv.2]> out) ∅ (map_to_list o).

Definition knownKeys : list string :=
  [ "id"; "name"; "type"; "visible"; "locked"; "opacity"; "blendMode";
    "isMask"; "maskType"; "clipsContent"; "layoutMode"; "layoutWrap";
    "primaryAxisSizingMode"; "counterAxisSizingMode";
    "primaryAxisAlignItems"; "counterAxisAlignItems";
    "primaryAxisAlignContent"; "counterAxisAlignContent"; "itemSpacing";
    "paddingTop"; "paddingRight"; "paddingBottom"; "paddingLeft";
    "layoutPositioning"; "constraints"; "absoluteBoundingBox";
    "absoluteRenderBounds"; "size"; "relativeTransform"; "rotation";
    "cornerRadius"; "rectangleCornerRadii"; "fills"; "strokes";
    "strokeWeight"; "strokeAlign"; "strokeCap"; "strokeJoin";
    "strokeDashes"; "effects"; "styles"; "characters"; "style";
    "characterStyleOverrides"; "styleOverrideTable"; "componentId";
    "componentProperties"; "variantProperties"; "documentationLinks";
    "reactions"; "transitionNodeID"; "prototypeStartNodeID";
    "exportSettings" ].

(** The geometry fields [normalizeNode] deletes from its copy of the
    document. *)
Definition geometryKeys : list string :=
  [ "vectorPaths"; "vectorNetwork"; "vectorData" ].

(** The entries of [doc.children] when it is an array, else none
    ([Array.isArray(doc.children) ? ... : []]).  The entries are node stubs;
    an entry that is no object has no [visible] and no [id]. *)
Definition childrenOf (doc : obj) : list json :=
  match doc !! "children" with
  | Some (JArr l) => l
  | _ => []
  end.

(** The result of [normalizeNode].  The [tw] hints (strings formatted from
    floating-point attributes of [known]) are left out: nothing below reads
    them. *)
Record NormalizedNode : Type := mkNorm
  { n_id : option NodeId;
    n_name : option json;
    n_type : option json;
    childIds : list NodeId;
    known : obj;
    other : obj }.

(** [doc.children.filter(isVisibleNode).map((c) => c.id).filter(Boolean)] *)
Definition visibleChildIds (doc : obj) : list NodeId :=
  omap (λ v, v)
    (filter (λ v, truthyId v = true)
       (map (λ c, asId (member c "id"))
          (filter (λ c, isVisibleNode c = true) (childrenOf doc)))).

Definition normalizeNode (doc : obj) : NormalizedNode :=
  let raw := delete "vectorData" (delete "vectorNetwork" (delete "vectorPaths" doc)) in
  let childIds := visibleChildIds doc in
  let known := pick raw knownKeys in
  let other := omit raw (list_to_set (knownKeys ++ ["children"])) in
  {| n_id := asId (doc !! "id");
     n_name := doc !! "name";
     n_type := doc !! "type";
     childIds := childIds;
     known := known;
     other := other |}.

(** [Boolean(v)] for a parsed value. *)
Definition truthy (v : json) : bool :=
  match v with
  | JNull => false
  | JBool b => b
  | JNum q => negb (Qeq_bool q 0%Q)
  | JStr s => negb (String.eqb s "")
  | JArr _ | JObj _ => true
  end.

(** What reading a property of [null] throws. *)
Inductive Thrown : Type := TypeError.

(** [c.id] for an entry [c] of [children]: a [TypeError] on [null],
    [undefined] ([None]) where [c] has no such property. *)
Definition idOf (c : json) : Thrown + option json :=
  match c with
  | JNull => inl TypeError
  | _ => inr (member c "id")
  end.

(** [entries.map((c) => c.id)] *)
Fixpoint idsOf (entries : list json) : Thrown + list (option json) :=
  match entries with
  | [] => inr []
  | c :: rest =>
    match idOf c with
    | inl t => inl t
    | inr v =>
      match idsOf rest with
      | inl t => inl t
      | inr vs => inr (v :: vs)
      end
    end
  end.

(** [Boolean(v)] where [v] may be [undefined]. *)
Definition keeps (v : option json) : bool :=
  match v with
  | Some v => truthy v
  | None => false
  end.

(** The [childIds] of [normalizeNode] on any document:
    [Array.isArray(doc.children)
       ? doc.children.filter(isVisibleNode).map((c) => c.id).filter(Boolean)
       : []].
    [isVisibleNode(null)] is [true], so a [null] entry reaches [c.id]. *)
Definition childIdValues (doc : obj) : Thrown + list json :=
  match idsOf (filter (λ c, isVisibleNode c = true) (childrenOf doc)) with
  | inl t => inl t
  | inr ids => inr (omap (λ v, v) (filter (λ v, keeps v = true) ids))
  end.

(** The spec's wording of [childIds], written from its words and not from
    the code: "the ordered list of id values from children entries whose
    visibility flag is not explicitly false".  [spec_flagFalse]: the entry
    has a visibility flag and it is [false]. *)
Definition spec_flagFalse (c : json) : bool :=
  match c with
  | JObj o =>
    match o !! "visible" with
    | Some (JBool false) => true
    | _ => false
    end
  | _ => false
  end.

Definition spec_childIds (doc : obj) : list (option json) :=
  map (λ c, match c with
            | JObj o => o !! "id"
            | _ => None
            end)
    (filter (λ c, spec_flagFalse c = false)
       match doc !! "children" with
       | Some (JArr entries) => entries
       | _ => []
       end).

(** The [id] values the amended claim leaves out: none at all, [null],
    [false], 0 and the empty string. *)
Definition spec_noId (v : option json) : bool :=
  match v with
  | None | Some JNull | Some (JBool false) => true
  | Some (JNum q) => Qeq_bool q 0%Q
  | Some (JStr EmptyString) => true
  | _ => false
  end.

End Normalizer.

(** ** The remote fetcher: [shouldRetry] and [figmaFetchJson] *)

Module Fetcher.

(** What [await fetch(url, ...)] produces: a rejection (the request itself
    failed) or a response.  [bodyJson] is what [res.json()] parses, [None]
    when the body is not JSON; [bodyText] is what [res.text()] reads. *)
Record Response : Type := mkResponse
  { status : Z;
    statusText : string;
    bodyText : string;
    bodyJson : option json }.

Inductive FetchOutcome : Type :=
  | Rejected
  | Responded (res : Response).

(** [res.ok]: the status is in the range 200-299. *)
Definition ok (res : Response) : bool :=
  (200 <=? status res)%Z && (status res <=? 299)%Z.

(** What [figmaFetchJson] throws.  [ApiError] is its own
    [new Error(`Figma API error ${res.status} ...Body: ${text.slice(0, 2000)}`)];
    the other two are the rejections of [fetch] and of [res.json()], which it
    does not catch. *)
Inductive FetchError : Type :=
  | ApiError (status : Z) (statusText : string) (body : string)
  | NetworkFailure
  | InvalidBody.

Definition shouldRetry (status : Z) : bool :=
  if (status =? 429)%Z then true
  else if (500 <=? status)%Z && (status <=? 599)%Z then true
  else false.

(** Round to the nearest integer, a tie to the even one. *)
Definition roundHalfEven (q : Q) : Z :=
  let f := Qfloor q in
  match Qcompare (q - inject_Z f) (1 # 2) with
  | Lt => f
  | Gt => (f + 1)%Z
  | Eq => if Z.even f then f else (f + 1)%Z
  end.

(** The exponent of the binade of [x >= 0]: the largest [e' <= e] with
    [2^e' <= x], but no less than [e - steps]. *)
Fixpoint binade (steps : nat) (e : Z) (x : Q) : Z :=
  match steps with
  | O => e
  | S steps' =>
    if Qle_bool (Qpower 2 e) x then e else binade steps' (e - 1) x
  end.

(** The double nearest to [x], a tie to the one with an even significand,
    for [x] of magnitude below [2^1024]: doubles in the binade of exponent
    [e] are [2^(e - 52)] apart, and below [2^(-1022)] as in that binade. *)
Definition toDouble (x : Q) : Q :=
  let e := binade 2045 1023 (Qabs x) in
  let ulp := Qpower 2 (e - 52) in
  (inject_Z (roundHalfEven (x / ulp)) * ulp)%Q.

(** What [Math.random()] returns: a double in [0, 1). *)
Definition unitDouble (r : Q) : Prop :=
  (0 <= r)%Q ∧ (r < 1)%Q ∧ (toDouble r == r)%Q.

Definition maxAttempts : nat := 6.
Definition base : Z := 500.

(** One run of [figmaFetchJson]: what it returned or threw, the [waitMs] of
    every [sleep] in order, and the number of [fetch] calls. *)
Record FetchRun : Type := mkRun
  { result : json + FetchError;
    waits : list Z;
    calls : nat }.

Section Run.

(** The world the function runs in: the outcome of its [n]-th [fetch] call
    and the value of its [n]-th [Math.random()] call (both counted from 0).
    Every pass through the loop makes one [fetch] call and every retry one
    [Math.random()] call, so in the pass where [attempt = n] both are the
    [n]-th. *)
Variable server : nat → FetchOutcome.
Variable random : nat → Q.

(** [Math.floor(Math.random() * 250)]: the product is a double. *)
Definition jitter (n : nat) : Z :=
  Qfloor (toDouble (random n * inject_Z 250)).

(** [base * Math.pow(2, attempt) + jitter] *)
Definition waitMs (attempt : nat) : Z :=
  (base * 2 ^ Z.of_nat attempt + jitter attempt)%Z.

(** The [while (true)] loop; [fuel] bounds the passes. *)
Fixpoint fetchLoop (fuel : nat) (attempt : nat) (waits : list Z)
    : option FetchRun :=
  match fuel with
  | O => None
  | S fuel' =>
    match server attempt with
    | Rejected => Some (mkRun (inr NetworkFailure) waits (S attempt))
    | Responded res =>
      if ok res then
        match bodyJson res with
        | Some data => Some (mkRun (inl data) waits (S attempt))
        | None => Some (mkRun (inr InvalidBody) waits (S attempt))
        end
      else if (attempt <? maxAttempts - 1)%nat && shouldRetry (status res) then
        fetchLoop fuel' (S attempt) (waits ++ [waitMs attempt])
      else
        Some (mkRun
                (inr (ApiError (status res) (statusText res)
                        (String.substring 0 2000 (bodyText res))))
                waits (S attempt))
    end
  end.

Definition figmaFetchJson : option FetchRun :=
  fetchLoop maxAttempts 0 [].

(** A response that sends the loop round again, given enough attempts left. *)
Definition retryable (o : FetchOutcome) : bool :=
  match o with
  | Responded res => negb (ok res) && shouldRetry (status res)
  | Rejected => false
  end.

(** What the loop ends with on its last response. *)
Definition conclude (o : FetchOutcome) : json + FetchError :=
  match o with
  | Rejected => inr NetworkFailure
  | Responded res =>
    if ok res then
      match bodyJson res with
      | Some data => inl data
      | None => inr InvalidBody
      end
    else inr (ApiError (status res) (statusText res)
                (String.substring 0 2000 (bodyText res)))
  end.

End Run.

End Fetcher.

(** ** The worker pool: [mapLimit]

    [mapLimit] is asynchronous: it starts [Math.min(limit, items.length)]
    workers and awaits [Promise.all] of them.  Each worker is a loop that
    takes the next index, starts [fn] on that item and suspends until [fn]'s
    promise settles.  Between two suspensions JavaScript runs a piece of code
    to its end, so the pool moves by events: the unit of work awaited by
    one worker settles, with a value or with an error.  The continuation of
    the worker is taken together with the settlement that wakes it: it reads
    and writes [idx] and [results] only, which nothing else touches in
    between.  [Promise.all] is rejected as soon as one worker throws, and
    fulfilled when every worker has returned. *)

Module Pool.

Section Pool.

Context {I R E : Type}.

Inductive Worker : Type :=
  | Awaiting (current : nat)
  | Returned
  | Threw (e : E).

(** The promise [mapLimit] returns. *)
Inductive Promise : Type :=
  | Pending
  | Fulfilled
  | RejectedWith (e : E).

Record State : Type := mkPool
  { items : list I;
    results : list (option R);
    idx : nat;
    workers : list Worker;
    promise : Promise }.

Definition isReturned (w : Worker) : bool :=
  match w with
  | Returned => true
  | _ => false
  end.

(** One entry into the body of [worker]'s loop: [while (idx < items.length)
    { const current = idx++; ... await fn(items[current], current) }].  The
    worker suspends on unit [current], or leaves the loop and returns. *)
Definition nextUnit (p : State) : Worker * State :=
  if (idx p <? length (items p))%nat
  then (Awaiting (idx p),
        mkPool (items p) (results p) (S (idx p)) (workers p) (promise p))
  else (Returned, p).

(** [workers.push(worker())] *)
Definition spawn (p : State) : State :=
  let '(w, p') := nextUnit p in
  mkPool (items p') (results p') (idx p') (workers p' ++ [w]) (promise p').

(** [Promise.all(workers)] over the current workers, while it is pending. *)
Definition join (p : State) : State :=
  match promise p with
  | Pending =>
    if forallb isReturned (workers p)
    then mkPool (items p) (results p) (idx p) (workers p) Fulfilled
    else p
  | _ => p
  end.

(** The call [mapLimit(items, limit, fn)] up to its [await]. *)
Definition mapLimit (items : list I) (limit : nat) : State :=
  join (Nat.iter (Nat.min limit (length items)) spawn
          (mkPool items (replicate (length items) None) 0 [] Pending)).

(** The unit awaited by worker [w] settles.  With a value: [results[current]]
    is assigned and the worker goes round its loop.  With an error: the
    worker throws, which rejects a pending [Promise.all].  [None] when worker
    [w] awaits nothing. *)
Definition settle (w : nat) (outcome : R + E) (p : State) : option State :=
  match workers p !! w with
  | Some (Awaiting current) =>
    match outcome with
    | inl r =>
      let p1 := mkPool (items p) (<[current := Some r]> (results p)) (idx p)
                  (workers p) (promise p) in
      let '(wk, p2) := nextUnit p1 in
      Some (join (mkPool (items p2) (results p2) (idx p2)
                    (<[w := wk]> (workers p2)) (promise p2)))
    | inr e =>
      Some (mkPool (items p) (results p) (idx p) (<[w := Threw e]> (workers p))
              match promise p with
              | Pending => RejectedWith e
              | settled => settled
              end)
    end
  | _ => None
  end.

(** The units started so far are the first [idx] items, in order. *)
Definition startedItems (p : State) : list I := take (idx p) (items p).
Definition pendingItems (p : State) : list I := drop (idx p) (items p).

(** A schedule: which worker's unit settles next, and how.  Events that
    cannot happen (the worker awaits nothing) are skipped. *)
Definition run (events : list (nat * (R + E))) (p : State) : State :=
  foldl (λ p ev, default p (settle ev.1 ev.2 p)) p events.

(** What [await mapLimit(...)] gives its caller: nothing while the call is
    pending; [results], once [await Promise.all(workers)] is through
    ([return results]); the error alone, when that [await] throws. *)
Definition callResult (p : State) : option (list (option R) + E) :=
  match promise p with
  | Pending => None
  | Fulfilled => Some (inl (results p))
  | RejectedWith e => Some (inr e)
  end.

(** The unit a worker awaits, and the units in flight. *)
Definition awaited (w : Worker) : option nat :=
  match w with
  | Awaiting current => Some current
  | _ => None
  end.

Definition inFlight (p : State) : list nat := omap awaited (workers p).

End Pool.

Arguments Worker : clear implicits.
Arguments Promise : clear implicits.
Arguments State : clear implicits.

End Pool.

(** ** The frontier crawler: [crawlSubtree] *)

Module Crawler.
Import Normalizer.

(** How the crawl stands with its caller: still inside [crawlSubtree],
    returned [{ nodeMap }], or thrown. *)
Inductive Status : Type :=
  | Running
  | Done
  | Failed (e : Fetcher.FetchError).

(** The variables of one [crawlSubtree] call, the [mapLimit] call it awaits
    ([round]), and three recordings that the source does not keep but the
    properties below speak of: every identifier pushed on [toExpand]
    ([enqueued]), the [ids] of every [fetchNodes] call in call order
    ([dispatched]), and for every identifier of a processed response the
    document found for it, if any ([answered]). *)
Record State : Type := mkState
  { nodeMap : gmap (option NodeId) NormalizedNode;
    toExpand : list NodeId;
    queued : gset NodeId;
    fetchedCount : nat;
    requestCount : nat;
    round : Pool.State (list NodeId) unit Fetcher.FetchError;
    status : Status;
    enqueued : list NodeId;
    dispatched : list (list NodeId);
    answered : list (NodeId * option obj) }.

(** [enqueue(id)] *)
Definition enqueue (st : State) (id : NodeId) : State :=
  if String.eqb id "" then st
  else if bool_decide (is_Some (nodeMap st !! Some id)) then st
  else if bool_decide (id ∈ queued st) then st
  else mkState (nodeMap st) (toExpand st ++ [id]) ({[id]} ∪ queued st)
         (fetchedCount st) (requestCount st) (round st) (status st)
         (enqueued st ++ [id]) (dispatched st) (answered st).

(** [data?.nodes || {}] *)
Definition nodesOf (data : json) : obj :=
  match member data "nodes" with
  | Some (JObj nodes) => nodes
  | _ => ∅
  end.

(** [nodes[id]] with its [document], when both are there
    ([if (!entry || !entry.document) continue]).  The API's [document] is an
    object; one of another shape is taken as absent. *)
Definition documentOf (nodes : obj) (id : NodeId) : option obj :=
  match nodes !! id with
  | Some entry =>
    match member entry "document" with
    | Some (JObj doc) => Some doc
    | _ => None
    end
  | None => None
  end.

Definition record (id : NodeId) (doc : option obj) (st : State) : State :=
  mkState (nodeMap st) (toExpand st) (queued st) (fetchedCount st)
    (requestCount st) (round st) (status st) (enqueued st) (dispatched st)
    (answered st ++ [(id, doc)]).

(** [nodeMap.set(norm.id, norm); fetchedCount++] *)
Definition store (norm : NormalizedNode) (st : State) : State :=
  mkState (<[n_id norm := norm]> (nodeMap st)) (toExpand st) (queued st)
    (S (fetchedCount st)) (requestCount st) (round st) (status st)
    (enqueued st) (dispatched st) (answered st).

(** One pass of [for (const id of ids)] in the unit of work. *)
Definition visit (nodes : obj) (st : State) (id : NodeId) : State :=
  match documentOf nodes id with
  | None => record id None st
  | Some doc =>
    let st := record id (Some doc) st in
    if isVisibleNode (JObj doc) then
      let norm := normalizeNode doc in
      foldl enqueue (store norm st) (childIds norm)
    else st
  end.

(** The unit of work after its [await fetchNodes(...)] returned [data]. *)
Definition processBatch (ids : list NodeId) (data : json) (st : State) : State :=
  foldl (visit (nodesOf data)) st ids.

(** [while (b.length < batchSize && toExpand.length > 0) b.push(toExpand.shift())]:
    the batch and what is left of the queue. *)
Fixpoint fillBatch (batchSize : nat) (queue : list NodeId)
    : list NodeId * list NodeId :=
  match batchSize, queue with
  | S room, id :: queue' =>
    let '(b, rest) := fillBatch room queue' in (id :: b, rest)
  | _, _ => ([], queue)
  end.

(** [while (toExpand.length > 0 && batches.length < concurrency) { ...; if
    (b.length) batches.push(b) }].  A pass with [batchSize >= 1] shortens the
    queue; [fuel] counts the passes. *)
Fixpoint moreBatches (fuel batchSize concurrency : nat)
    (batches : list (list NodeId)) (queue : list NodeId)
    : list (list NodeId) * list NodeId :=
  match fuel with
  | O => (batches, queue)
  | S fuel' =>
    if negb (Nat.eqb (length queue) 0) && (length batches <? concurrency)%nat
    then
      let '(b, rest) := fillBatch batchSize queue in
      moreBatches fuel' batchSize concurrency
        (if negb (Nat.eqb (length b) 0) then batches ++ [b] else batches) rest
    else (batches, queue)
  end.

(** The batches of one pass of the outer loop. *)
Definition formBatches (batchSize concurrency : nat) (queue : list NodeId)
    : list (list NodeId) * list NodeId :=
  let '(batch, rest) := fillBatch batchSize queue in
  moreBatches (length rest) batchSize concurrency [batch] rest.

Section Crawl.

Variables (batchSize concurrency : nat).

(** The start of the unit of work on [ids]: [requestCount++] and the
    [fetchNodes] call. *)
Definition startUnit (st : State) (ids : list NodeId) : State :=
  mkState (nodeMap st) (toExpand st) (queued st) (fetchedCount st)
    (S (requestCount st)) (round st) (status st) (enqueued st)
    (dispatched st ++ [ids]) (answered st).

(** One pass of [while (toExpand.length > 0)] up to [await mapLimit(...)]:
    the batches are formed and the pool starts its first units. *)
Definition dispatch (st : State) : State :=
  let '(batches, rest) := formBatches batchSize concurrency (toExpand st) in
  let pool := Pool.mapLimit batches concurrency in
  foldl startUnit
    (mkState (nodeMap st) rest (queued st) (fetchedCount st) (requestCount st)
       pool (status st) (enqueued st) (dispatched st) (answered st))
    (Pool.startedItems pool).

Definition setStatus (s : Status) (st : State) : State :=
  mkState (nodeMap st) (toExpand st) (queued st) (fetchedCount st)
    (requestCount st) (round st) s (enqueued st) (dispatched st) (answered st).

(** The outer loop from its test to the next suspension or to
    [return { nodeMap }].  A pool with no worker is fulfilled at once and the
    loop goes round again; [fuel] counts such passes. *)
Fixpoint loop (fuel : nat) (st : State) : State :=
  match toExpand st with
  | [] => setStatus Done st
  | _ :: _ =>
    let st' := dispatch st in
    match Pool.promise (round st'), fuel with
    | Pool.Fulfilled, S fuel' => loop fuel' st'
    | _, _ => st'
    end
  end.

(** [crawlSubtree({ rootId, batchSize, concurrency })] up to its first
    suspension. *)
Definition crawlSubtree (rootId : NodeId) : State :=
  let st0 := mkState ∅ [] ∅ 0 0 (Pool.mapLimit [] 0) Running [] [] [] in
  let st1 := enqueue st0 rootId in
  loop (length (toExpand st1)) st1.

(** The event "the [fetchNodes] call of the unit awaited by worker [w]
    settles": with [inl data] the unit processes its batch and returns, with
    [inr e] it throws.  A worker that finds a further item starts its unit.
    When this settles the pool's promise, a crawl that is still running goes
    on: it throws on rejection, and takes the next pass of its loop on
    fulfilment.  After the crawl has thrown, units in flight still settle
    and still write to the shared variables, but nothing new is dispatched. *)
Definition step (st : State) (ev : nat * (json + Fetcher.FetchError)) : State :=
  let '(w, outcome) := ev in
  match Pool.workers (round st) !! w with
  | Some (Pool.Awaiting current) =>
    let ids := default [] (Pool.items (round st) !! current) in
    let st1 :=
      match outcome with
      | inl data => processBatch ids data st
      | inr _ => st
      end in
    let poolOutcome : unit + Fetcher.FetchError :=
      match outcome with
      | inl _ => inl tt
      | inr e => inr e
      end in
    match Pool.settle w poolOutcome (round st1) with
    | None => st
    | Some pool =>
      let newlyStarted :=
        drop (Pool.idx (round st1)) (Pool.startedItems pool) in
      let st2 :=
        foldl startUnit
          (mkState (nodeMap st1) (toExpand st1) (queued st1)
             (fetchedCount st1) (requestCount st1) pool (status st1)
             (enqueued st1) (dispatched st1) (answered st1))
          newlyStarted in
      match status st2, Pool.promise pool with
      | Running, Pool.RejectedWith e => setStatus (Failed e) st2
      | Running, Pool.Fulfilled => loop (length (toExpand st2)) st2
      | _, _ => st2
      end
    end
  | _ => st
  end.

(** The crawl under a schedule of events. *)
Definition run (events : list (nat * (json + Fetcher.FetchError)))
    (st : State) : State :=
  foldl step st events.

End Crawl.

(** What [await crawlSubtree(...)] gives its caller: nothing while the crawl
    runs, [{ nodeMap }] on return, the error alone when [await mapLimit(...)]
    threw (the function catches nothing). *)
Definition callResult (st : State)
    : option (gmap (option NodeId) NormalizedNode + Fetcher.FetchError) :=
  match status st with
  | Running => None
  | Done => Some (inl (nodeMap st))
  | Failed e => Some (inr e)
  end.

End Crawler.

(** ** Crawling a fixed remote file *)

Module Remote.
Import Normalizer Crawler.

(** A remote file: the document the API holds for each identifier it can
    resolve.  The response to a batch lists every requested identifier, with
    [{ document }] when resolved and [null] otherwise. *)
Definition serve (file : gmap NodeId obj) (ids : list NodeId) : json :=
  JObj {[ "nodes" :=
    JObj (list_to_map
            (map (λ id, (id, match file !! id with
                             | Some doc => JObj {[ "document" := JObj doc ]}
                             | None => JNull
                             end)) ids)) ]}.

(** The first worker that awaits a unit, with the batch of that unit. *)
Fixpoint firstAwaiting {E} (ws : list (Pool.Worker E)) (w : nat)
    : option (nat * nat) :=
  match ws with
  | [] => None
  | Pool.Awaiting current :: _ => Some (w, current)
  | _ :: ws' => firstAwaiting ws' (S w)
  end.

(** The crawl against [file], every request answered in turn; [fuel] bounds
    the number of requests. *)
Fixpoint crawlFile (batchSize concurrency : nat) (file : gmap NodeId obj)
    (fuel : nat) (st : State) : State :=
  match fuel with
  | O => st
  | S fuel' =>
    match firstAwaiting (Pool.workers (round st)) 0 with
    | None => st
    | Some (w, current) =>
      let ids := default [] (Pool.items (round st) !! current) in
      crawlFile batchSize concurrency file fuel'
        (step batchSize concurrency st (w, inl (serve file ids)))
    end
  end.

(** The spec's end-to-end scenario: the root has the children A (visible)
    and B (invisible), and B has the child C.  A response at depth 1 carries
    each child with its own attributes, the visibility flag among them. *)
Definition docC : obj := {[ "id" := JStr "C"; "type" := JStr "TEXT" ]}.
Definition docA : obj := {[ "id" := JStr "A"; "type" := JStr "FRAME" ]}.
Definition stubB : obj :=
  {[ "id" := JStr "B"; "type" := JStr "FRAME"; "visible" := JBool false ]}.
Definition docB : obj := <[ "children" := JArr [JObj docC] ]> stubB.
Definition docRoot : obj :=
  {[ "id" := JStr "root"; "type" := JStr "FRAME";
     "children" := JArr [JObj docA; JObj stubB] ]}.

Definition scenario : gmap NodeId obj :=
  {[ "root" := docRoot; "A" := docA; "B" := docB; "C" := docC ]}.

End Remote.

(** ** Concrete remote files and schedules *)

Module Scenarios.
Import Normalizer Crawler Remote.

(** The schedule that answers the scenario's two requests. *)
Definition scenarioEvents : list (nat * (json + Fetcher.FetchError)) :=
  [ (0, inl (serve scenario ["root"])); (0, inl (serve scenario ["A"])) ].

(** The same tree when the stub of B in the root's document carries no
    visibility flag, so that only B's own document tells it is invisible. *)
Definition lateFlagScenario : gmap NodeId obj :=
  <[ "root" := {[ "id" := JStr "root"; "type" := JStr "FRAME";
                  "children" := JArr [JObj docA; JObj (delete "visible" stubB)] ]} ]>
    scenario.

(** Two parents P and Q, fetched in one dispatch round, list the same child
    X. *)
Definition diamond : gmap NodeId obj :=
  {[ "root" := {[ "id" := JStr "root";
                  "children" := JArr [ JObj {[ "id" := JStr "P" ]};
                                       JObj {[ "id" := JStr "Q" ]} ] ]};
     "P" := {[ "id" := JStr "P";
               "children" := JArr [ JObj {[ "id" := JStr "X" ]} ] ]};
     "Q" := {[ "id" := JStr "Q";
               "children" := JArr [ JObj {[ "id" := JStr "X" ]} ] ]};
     "X" := {[ "id" := JStr "X" ]} ]}.

(** With [batchSize = 1] and [concurrency = 2], P and Q are in flight
    together; here Q's response arrives first. *)
Definition diamondEvents : list (nat * (json + Fetcher.FetchError)) :=
  [ (0, inl (serve diamond ["root"]));
    (1, inl (serve diamond ["Q"]));
    (0, inl (serve diamond ["P"]));
    (0, inl (serve diamond ["X"])) ].



(** A root that lists a child the API cannot resolve: the response maps
    that identifier to [null]. *)
Definition dangling : gmap NodeId obj :=
  {[ "root" := {[ "id" := JStr "root";
                  "children" := JArr [ JObj {[ "id" := JStr "A" ]} ] ]} ]}.

Definition danglingEvents : list (nat * (json + Fetcher.FetchError)) :=
  [ (0, inl (serve dangling ["root"])); (0, inl (serve dangling ["A"])) ].

(** A response that holds, for the requested identifier "1:1", a document
    whose own [id] is "9:9". *)
Definition movedDoc : obj := {[ "id" := JStr "9:9"; "name" := JStr "moved" ]}.

Definition movedEvents : list (nat * (json + Fetcher.FetchError)) :=
  [ (0, inl (JObj {[ "nodes" :=
       JObj {[ "1:1" := JObj {[ "document" := JObj movedDoc ]} ]} ]})) ].


(** A document with allow-listed attributes, others, children and a
    geometry field. *)
Definition mixedDoc : obj :=
  {[ "id" := JStr "1:1"; "name" := JStr "Icon"; "type" := JStr "VECTOR";
     "vectorPaths" := JArr [ JStr "M 0 0 L 8 8" ];
     "children" := JArr [];
     "scrollBehavior" := JStr "SCROLLS" ]}.

(** Two visible children carrying one identifier. *)
Definition twinsDoc : obj :=
  {[ "id" := JStr "0:1";
     "children" := JArr [ JObj {[ "id" := JStr "1:2" ]};
                          JObj {[ "id" := JStr "1:2" ]} ] ]}.

(** A visible child without an identifier between two that have one. *)
Definition anonymousChildDoc : obj :=
  {[ "id" := JStr "0:1";
     "children" := JArr [ JObj {[ "id" := JStr "1:2" ]};
                          JObj {[ "name" := JStr "untitled" ]};
                          JObj {[ "id" := JStr "1:3"; "visible" := JBool false ]};
                          JObj {[ "id" := JStr "1:4"; "visible" := JBool true ]} ] ]}.

(** The stub of the spec's backoff test: status 429 three times, then a
    successful response. *)
Definition busyThenOk (n : nat) : Fetcher.FetchOutcome :=
  if (n <? 3)%nat then Fetcher.Responded (Fetcher.mkResponse 429 "Too Many Requests" "" None)
  else Fetcher.Responded (Fetcher.mkResponse 200 "OK" "{}" (Some (JObj ∅))).

Definition halfRandom (n : nat) : Q := (1 # 2)%Q.

(** The double written 0.24, which is a little less than 24/100. *)
Definition double024 : Q := (4323455642275676 # 18014398509481984)%Q.

End Scenarios.

(** ** Invariants *)

Module Invariants.
Import Normalizer Crawler.

Section PoolWf.

Context {I R E : Type}.
Import Pool.

(** What holds of every pool state reached from a [mapLimit] call. *)
Record Wf (limit : nat) (p : Pool.State I R E) : Prop := mkWf
  { wf_idx : idx p ≤ length (items p);
    wf_results : length (results p) = length (items p);
    wf_workers : length (workers p) = Nat.min limit (length (items p));
    wf_await : ∀ w c, workers p !! w = Some (Awaiting c) →
                 c < idx p ∧ results p !! c = Some None;
    wf_await_inj : ∀ w w' c, workers p !! w = Some (Awaiting c) →
                     workers p !! w' = Some (Awaiting c) → w = w';
    wf_fresh : ∀ i, idx p ≤ i → i < length (items p) →
                 results p !! i = Some None;
    wf_returned : ∀ w, workers p !! w = Some Returned →
                    length (items p) ≤ idx p;
    wf_fulfilled : promise p = Fulfilled →
                     ∀ w wk, workers p !! w = Some wk → wk = Returned;
    wf_started : ∀ c, c < idx p →
                   (∃ w, workers p !! w = Some (Awaiting c))
                   ∨ (∃ r, results p !! c = Some (Some r))
                   ∨ (∃ w e, workers p !! w = Some (Threw e)) }.

(** How the promise of a pool call stands to its workers: the call is
    failed exactly when a unit has failed, with the failure of one of them,
    and a pending call has a unit in flight. *)
Record Live (p : Pool.State I R E) : Prop := mkLive
  { live_pending : promise p = Pending → inFlight p ≠ [];
    live_threw : ∀ w e, workers p !! w = Some (Threw e) →
                   ∃ e', promise p = RejectedWith e';
    live_rejected : ∀ e, promise p = RejectedWith e →
                      ∃ w, workers p !! w = Some (Threw e) }.

End PoolWf.


(** Every identifier that was pushed on the queue and not yet answered: in a
    dispatched batch, in a batch the pool has not started, or still queued. *)
Definition frontier (st : State) : list NodeId :=
  concat (dispatched st) ++ concat (Pool.pendingItems (round st))
    ++ toExpand st.

(** [id] is the root, or is listed, by a stub whose visibility flag is not
    false, among the children of a document that was fetched for a reachable
    identifier and is itself visible. *)
Inductive reachable (rootId : NodeId) (answers : list (NodeId * option obj))
    : NodeId → Prop :=
  | reach_root : reachable rootId answers rootId
  | reach_child (parent : NodeId) (doc : obj) (stub : json) (id : NodeId) :
      reachable rootId answers parent →
      (parent, Some doc) ∈ answers →
      isVisibleNode (JObj doc) = true →
      stub ∈ childrenOf doc →
      isVisibleNode stub = true →
      asId (member stub "id") = Some id →
      reachable rootId answers id.

Record Inv (rootId : NodeId) (concurrency : nat) (st : State) : Prop := mkInv
  { inv_enq_nodup : NoDup (enqueued st);
    inv_nonempty : ∀ id, id ∈ enqueued st → id ≠ "";
    inv_queued : ∀ id, id ∈ queued st ↔ id ∈ enqueued st;
    inv_frontier_nodup : NoDup (frontier st);
    inv_frontier : ∀ id, id ∈ frontier st ↔ id ∈ queued st;
    inv_started : ∀ b, b ∈ Pool.startedItems (round st) → b ∈ dispatched st;
    inv_pool : Wf concurrency (round st);
    inv_key : ∀ k n, nodeMap st !! k = Some n → k = n_id n;
    inv_stored : ∀ k n, nodeMap st !! k = Some n →
      ∃ id doc, (id, Some doc) ∈ answered st
                ∧ isVisibleNode (JObj doc) = true ∧ n = normalizeNode doc;
    inv_origin : ∀ id, id ∈ enqueued st → reachable rootId (answered st) id;
    inv_answered : ∀ id d, (id, d) ∈ answered st →
      id ∈ concat (dispatched st);
    inv_children : ∀ k n c, nodeMap st !! k = Some n → c ∈ childIds n →
      c ∈ queued st ∨ is_Some (nodeMap st !! Some c);
    inv_visible_stored : ∀ id doc, (id, Some doc) ∈ answered st →
      isVisibleNode (JObj doc) = true →
      is_Some (nodeMap st !! n_id (normalizeNode doc));
    inv_dispatched : ∀ id, id ∈ concat (dispatched st) →
      (∃ d, (id, d) ∈ answered st)
      ∨ (∃ c b, c < Pool.idx (round st)
                ∧ Pool.items (round st) !! c = Some b ∧ id ∈ b);
    inv_results : ∀ c b r, Pool.results (round st) !! c = Some (Some r) →
      Pool.items (round st) !! c = Some b →
      ∀ id, id ∈ b → ∃ d, (id, d) ∈ answered st;
    inv_done : status st = Done →
      toExpand st = [] ∧ Pool.promise (round st) = Pool.Fulfilled }.

End Invariants.

(** ** Further servers for the fetcher *)

Module Servers.
Import Fetcher.
(** A server that is down: every request is rejected before a response. *)
Definition offline (n : nat) : FetchOutcome := Rejected.

(** Two 503 responses, then a page that is no JSON under status 200. *)
Definition flakyThenHtml (n : nat) : FetchOutcome :=
  if (n <? 2)%nat
  then Responded (mkResponse 503 "Service Unavailable" "" None)
  else Responded (mkResponse 200 "OK" "<html>" None).

(** Status 500 on every request. *)
Definition alwaysDown (n : nat) : FetchOutcome :=
  Responded (mkResponse 500 "Internal Server Error" "oops" None).
End Servers.

(** ** What the crawler keeps about the order of its requests *)

Module Ordering.
Import Normalizer Crawler Invariants.

(** What holds, beside [Inv], of every state of a crawl with [batchSize >= 1]
    and [concurrency >= 1]. *)
Record Order (rootId : NodeId) (batchSize concurrency : nat) (st : State)
    : Prop := mkOrder
  { ord_fifo : concat (dispatched st) ++ toExpand st = enqueued st;
    ord_all_started : Pool.idx (round st) = length (Pool.items (round st));
    ord_width : length (Pool.items (round st)) ≤ concurrency;
    ord_suffix : ∃ earlier, dispatched st = earlier ++ Pool.items (round st);
    ord_batch : ∀ b, b ∈ dispatched st → 1 ≤ length b ≤ batchSize;
    ord_requests : requestCount st = length (dispatched st);
    ord_root : rootId ≠ "" → ∃ later, enqueued st = rootId :: later;
    ord_once : NoDup (answered st).*1;
    ord_unanswered : ∀ c b id, Pool.results (round st) !! c = Some None →
      Pool.items (round st) !! c = Some b → id ∈ b →
      id ∉ (answered st).*1;
    ord_live : Live (round st) }.

(** A running crawl is suspended on a pending pool call. *)
Definition Suspended (st : State) : Prop :=
  match status st with
  | Running => Pool.promise (round st) = Pool.Pending
  | Done => True
  | Failed e => Pool.promise (round st) = Pool.RejectedWith e
  end.

End Ordering.

(** ** Crawling a file, the responses in any order *)

Module Files.
Import Normalizer Crawler Remote Invariants Ordering.

(** The batch requested by the unit that worker [w] awaits. *)
Definition awaitedBatch (st : State) (w : nat) : option (list NodeId) :=
  match Pool.workers (round st) !! w with
  | Some (Pool.Awaiting current) =>
    Some (default [] (Pool.items (round st) !! current))
  | _ => None
  end.

(** The request awaited by worker [w] is answered from [file]. *)
Definition respond (batchSize concurrency : nat) (file : gmap NodeId obj)
    (st : State) (w : nat) : State :=
  match awaitedBatch st w with
  | Some ids => step batchSize concurrency st (w, inl (serve file ids))
  | None => st
  end.

(** The crawl against [file] when the responses arrive for the workers in
    the order [order]. *)
Definition crawlFileIn (batchSize concurrency : nat) (file : gmap NodeId obj)
    (order : list nat) (st : State) : State :=
  foldl (respond batchSize concurrency file) st order.


(** Every document of [file] carries the identifier it is filed under. *)
Definition consistent (file : gmap NodeId obj) : Prop :=
  map_Forall (λ id doc, asId (doc !! "id") = Some id) file.

(** The nodes of [file] to report: the root, and every node that a reported
    node lists as a visible child, when the node's own document is there and
    visible. *)
Inductive visibleFrom (file : gmap NodeId obj) (rootId : NodeId)
    : NodeId → Prop :=
  | visible_root (doc : obj) :
      rootId ≠ "" → file !! rootId = Some doc →
      isVisibleNode (JObj doc) = true →
      visibleFrom file rootId rootId
  | visible_child (parent : NodeId) (pdoc : obj) (id : NodeId) (doc : obj) :
      visibleFrom file rootId parent →
      file !! parent = Some pdoc →
      id ∈ childIds (normalizeNode pdoc) →
      file !! id = Some doc →
      isVisibleNode (JObj doc) = true →
      visibleFrom file rootId id.

(** A file whose child references form a cycle: the root lists A and A
    lists the root. *)
Definition cyclic : gmap NodeId obj :=
  {[ "root" := {[ "id" := JStr "root";
                  "children" := JArr [ JObj {[ "id" := JStr "A" ]} ] ]};
     "A" := {[ "id" := JStr "A";
               "children" := JArr [ JObj {[ "id" := JStr "root" ]} ] ]} ]}.

(** What a crawl keeps when every response comes from [file]. *)
Record FromFile (file : gmap NodeId obj) (st : State) : Prop := mkFromFile
  { file_answers : ∀ id d, (id, d) ∈ answered st → d = file !! id;
    file_healthy : ∀ e, Pool.promise (round st) ≠ Pool.RejectedWith e }.

(** What holds of every state of a crawl against [file]. *)
Definition Reached (rootId : NodeId) (batchSize concurrency : nat)
    (file : gmap NodeId obj) (st : State) : Prop :=
  Inv rootId concurrency st ∧ Order rootId batchSize concurrency st
  ∧ Suspended st ∧ FromFile file st.

End Files.

(** ** File names and report text: [sanitizeFileName], [fenceForText],
    [inferElement], [buildTreeLines] *)

Module Report.
Import Normalizer.

(** A string is read as the JavaScript string with the same code units, all
    below 256. *)

(** [\s], and what [trim()] strips: TAB, LF, VT, FF, CR, the space and the
    no-break space. *)
Definition isSpace (c : ascii) : bool :=
  let n := nat_of_ascii c in
  ((9 <=? n) && (n <=? 13)) || (n =? 32) || (n =? 160).

(** [toLowerCase()] on one code unit: the letters A-Z, and the capital
    letters of the range 192-222 (215, the multiplication sign, is none). *)
Definition toLower (c : ascii) : ascii :=
  let n := nat_of_ascii c in
  if ((65 <=? n) && (n <=? 90))
     || ((192 <=? n) && (n <=? 222) && negb (n =? 215))
  then ascii_of_nat (n + 32)
  else c.

(** [[a-z0-9._-]] *)
Definition isSafe (c : ascii) : bool :=
  let n := nat_of_ascii c in
  ((97 <=? n) && (n <=? 122)) || ((48 <=? n) && (n <=? 57))
  || (n =? 46) || (n =? 95) || (n =? 45).

Definition isDash (c : ascii) : bool := nat_of_ascii c =? 45.

(** [[-.]] *)
Definition isDashOrDot (c : ascii) : bool :=
  (nat_of_ascii c =? 45) || (nat_of_ascii c =? 46).

Fixpoint dropWhile (p : ascii → bool) (s : list ascii) : list ascii :=
  match s with
  | c :: s' => if p c then dropWhile p s' else s
  | [] => []
  end.

(** [s] without its longest suffix of characters in [p]. *)
Fixpoint dropEnd (p : ascii → bool) (s : list ascii) : list ascii :=
  match s with
  | [] => []
  | c :: s' =>
    match dropEnd p s' with
    | [] => if p c then [] else [c]
    | r => c :: r
    end
  end.

(** [trim()] for [p = isSpace], and [replace(/^[-.]+|[-.]+$/g, '')] for
    [p = isDashOrDot]: the match at the start is removed first, then the
    one that reaches the end. *)
Definition strip (p : ascii → bool) (s : list ascii) : list ascii :=
  dropEnd p (dropWhile p s).

(** [s.replace(/[p]+/g, by)]: every maximal run of characters in [p]
    gives way to [by]. *)
Fixpoint replaceRuns (p : ascii → bool) (by_ : list ascii) (s : list ascii)
    : list ascii :=
  match s with
  | [] => []
  | c :: s' =>
    if p c then
      match s' with
      | c' :: _ => if p c' then replaceRuns p by_ s'
                   else by_ ++ replaceRuns p by_ s'
      | [] => by_
      end
    else c :: replaceRuns p by_ s'
  end.

(** The constant [s] of [sanitizeFileName]: [String(input || 'unnamed')]
    trimmed, in lower case, and after the four [replace] calls. *)
Definition cleaned (input : string) : list ascii :=
  strip isDashOrDot
    (replaceRuns isDash ["-"%char]
       (replaceRuns (λ c, negb (isSafe c)) []
          (replaceRuns isSpace ["-"%char]
             (map toLower
                (strip isSpace
                   (String.list_ascii_of_string
                      (if String.eqb input "" then "unnamed" else input))))))).

(** [s.length ? s.slice(0, 80) : 'unnamed'] *)
Definition sanitizeFileName (input : string) : string :=
  let s := cleaned input in
  if Nat.eqb (length s) 0 then "unnamed"
  else String.string_of_list_ascii (take 80 s).

(** No two dashes in a row. *)
Fixpoint singleDashes (s : list ascii) : bool :=
  match s with
  | c :: s' =>
    match s' with
    | c' :: _ => negb (isDash c && isDash c') && singleDashes s'
    | [] => true
    end
  | [] => true
  end.

(** A name that needs no change: between 1 and 80 characters of
    [[a-z0-9._-]], no dash or dot at either end, no two dashes in a row. *)
Definition isClean (name : string) : bool :=
  let s := String.list_ascii_of_string name in
  forallb isSafe s && (1 <=? length s) && (length s <=? 80)
  && negb (from_option isDashOrDot false (head s))
  && negb (from_option isDashOrDot false (last s))
  && singleDashes s.

(** [text.includes(pat)] *)
Fixpoint includes (text pat : string) : bool :=
  String.prefix pat text
  || match text with
     | String _ rest => includes rest pat
     | EmptyString => false
     end.

Definition fenceForText (text : string) : string :=
  if negb (includes text "```") then "```"
  else if negb (includes text "````") then "````"
  else "`````".



Section Tree.

(** The text of a node's line after its indentation: its type, name and
    identifier, and a summary formatted from floating-point attributes. *)
Variable describe : NormalizedNode → string.

(** ['  '.repeat(depth)] *)
Fixpoint indent (depth : nat) : string :=
  match depth with
  | O => ""
  | S d => "  " +:+ indent d
  end.

(** [walk(id, depth)] of [buildTreeLines], with the lines it pushes;
    [fuel] bounds the depth of the recursion, and [None] is a walk that
    goes deeper. *)
Fixpoint walk (fuel : nat) (nodeMap : gmap (option NodeId) NormalizedNode)
    (id : NodeId) (depth : nat) : option (list string) :=
  match fuel with
  | O => None
  | S fuel' =>
    match nodeMap !! Some id with
    | None => Some []
    | Some n =>
      match mapM (λ childId, walk fuel' nodeMap childId (S depth))
              (childIds n) with
      | Some below => Some ((indent depth +:+ describe n) :: concat below)
      | None => None
      end
    end
  end.

Definition buildTreeLines (fuel : nat)
    (nodeMap : gmap (option NodeId) NormalizedNode) (rootId : NodeId)
    : option (list string) :=
  walk fuel nodeMap rootId 0.

End Tree.

End Report.

(** ** Result maps to print *)

Module Trees.
Import Normalizer Crawler Remote Files.

(** The result of the crawl of the cyclic file. *)
Definition cyclicMap : gmap (option NodeId) NormalizedNode :=
  nodeMap (crawlFile 1 2 cyclic 3 (crawlSubtree 1 2 "root")).

Definition scenarioMap : gmap (option NodeId) NormalizedNode :=
  nodeMap (crawlFile 2 1 scenario 2 (crawlSubtree 2 1 "root")).

Definition typeOf (n : NormalizedNode) : string :=
  match n_type n with
  | Some (JStr t) => t
  | _ => "undefined"
  end.

Definition depthOf (id : NodeId) : nat :=
  if String.eqb id "root" then 1 else 0.

End Trees.

(** * Proofs *)

(** ** The normalizer *)

Module NormalizerFacts.
Import Normalizer Scenarios.

Lemma pick_acc_lookup (o : obj) (keys : list string) (acc : obj) (k : string) :
  foldl (λ out k, match o !! k with
                  | Some v => <[k := v]> out
                  | None => out
                  end) acc keys !! k
  = if decide (k ∈ keys) then
      match o !! k with Some v => Some v | None => acc !! k end
    else acc !! k.
Proof.
  revert acc. induction keys as [|k' keys IH]; intros acc; cbn [foldl].
  - case_decide as Hin; [by apply elem_of_nil in Hin | done].
  - rewrite IH. destruct (decide (k = k')) as [->|Hne].
    + destruct (decide (k' ∈ k' :: keys)) as [_|Hnin]; [| by destruct Hnin; left].
      destruct (o !! k') as [v|] eqn:Hv.
      * rewrite lookup_insert_eq. by case_decide.
      * by case_decide.
    + assert ((match o !! k' with Some v => <[k':=v]> acc | None => acc end) !! k
              = acc !! k) as ->.
      { destruct (o !! k'); [by rewrite lookup_insert_ne | done]. }
      destruct (decide (k ∈ keys)) as [Hin|Hnin];
        destruct (decide (k ∈ k' :: keys)) as [Hin'|Hnin']; try done.
      * destruct Hnin'. by right.
      * apply elem_of_cons in Hin' as [?|?]; congruence.
Qed.

Lemma pick_lookup (o : obj) (keys : list string) (k : string) :
  pick o keys !! k = if decide (k ∈ keys) then o !! k else None.
Proof.
  unfold pick. rewrite pick_acc_lookup, lookup_empty.
  case_decide; [by destruct (o !! k) | done].
Qed.

Lemma omit_acc_lookup (S : gset string) (l : list (string * json)) (acc : obj)
    (k : string) :
  NoDup l.*1 →
  foldl (λ out kv, if decide (kv.1 ∈ S) then out
                   else if String.eqb kv.1 "__proto__" then out
                   else <[kv.1 := kv.2]> out)
        acc l !! k
  = if decide (k ∈ S ∨ k = "__proto__") then acc !! k
    else match (list_to_map l : obj) !! k with
         | Some v => Some v
         | None => acc !! k
         end.
Proof.
  revert acc. induction l as [|[k' v'] l IH]; intros acc Hnd; cbn [foldl].
  - cbn [list_to_map foldr]. rewrite lookup_empty. by case_decide.
  - apply NoDup_cons in Hnd as [Hk' Hnd]. rewrite IH by done. simpl.
    assert ((if decide (k' ∈ S) then acc
             else if String.eqb k' "__proto__" then acc
                  else <[k':=v']> acc)
            = if decide (k' ∈ S ∨ k' = "__proto__") then acc
              else <[k':=v']> acc) as ->.
    { destruct (decide (k' ∈ S));
        destruct (decide (k' ∈ S ∨ k' = "__proto__")) as [Hor|Hn];
        destruct (String.eqb_spec k' "__proto__"); try done; tauto. }
    destruct (decide (k = k')) as [->|Hne].
    + rewrite lookup_insert_eq.
      assert ((list_to_map l : obj) !! k' = None) as ->
        by by apply not_elem_of_list_to_map.
      destruct (decide (k' ∈ S ∨ k' = "__proto__")); [done|].
      by rewrite lookup_insert_eq.
    + rewrite lookup_insert_ne by done.
      destruct (decide (k ∈ S ∨ k = "__proto__")).
      * destruct (decide (k' ∈ S ∨ k' = "__proto__")); [done|].
        by rewrite lookup_insert_ne.
      * destruct ((list_to_map l : obj) !! k); [done|].
        destruct (decide (k' ∈ S ∨ k' = "__proto__")); [done|].
        by rewrite lookup_insert_ne.
Qed.

Lemma omit_lookup (o : obj) (S : gset string) (k : string) :
  omit o S !! k = if decide (k ∈ S ∨ k = "__proto__") then None else o !! k.
Proof.
  unfold omit. rewrite omit_acc_lookup by apply NoDup_fst_map_to_list.
  rewrite list_to_map_to_list, lookup_empty.
  case_decide; [done | by destruct (o !! k)].
Qed.

Lemma knownKeys_not_geometry (k : string) :
  k ∈ knownKeys → k ∉ geometryKeys.
Proof.
  revert k. apply Forall_forall.
  apply (bool_decide_unpack _). vm_compute. reflexivity.
Qed.

Lemma raw_lookup (doc : obj) (k : string) :
  delete "vectorData" (delete "vectorNetwork" (delete "vectorPaths" doc)) !! k
  = if decide (k ∈ geometryKeys) then None else doc !! k.
Proof.
  unfold geometryKeys. rewrite !lookup_delete.
  destruct (decide (k ∈ ["vectorPaths"; "vectorNetwork"; "vectorData"]))
    as [Hin|Hnin].
  - repeat (destruct (decide _); [done|]). exfalso.
    rewrite !elem_of_cons, elem_of_nil in Hin. naive_solver.
  - repeat (destruct (decide _) as [<-|];
            [exfalso; apply Hnin; rewrite !elem_of_cons; tauto|]).
    done.
Qed.

Lemma known_lookup (doc : obj) (k : string) :
  known (normalizeNode doc) !! k
  = if decide (k ∈ knownKeys) then doc !! k else None.
Proof.
  cbn [normalizeNode known]. rewrite pick_lookup, raw_lookup.
  case_decide as Hk; [| done].
  apply knownKeys_not_geometry in Hk. by rewrite decide_False.
Qed.

Lemma other_lookup (doc : obj) (k : string) :
  other (normalizeNode doc) !! k
  = if decide (k ∈ knownKeys ∨ k = "children" ∨ k ∈ geometryKeys
               ∨ k = "__proto__")
    then None else doc !! k.
Proof.
  cbn [normalizeNode other]. rewrite omit_lookup, raw_lookup.
  destruct (decide (k ∈ (list_to_set (knownKeys ++ ["children"]) : gset string)
                    ∨ k = "__proto__"))
    as [Hin|Hnin];
    rewrite elem_of_list_to_set, elem_of_app, list_elem_of_singleton in *.
  - rewrite decide_True; [done | tauto].
  - destruct (decide (k ∈ geometryKeys)).
    + rewrite decide_True; [done | tauto].
    + rewrite decide_False; [done | tauto].
Qed.





Example mixedDoc_split :
  dom (known (normalizeNode mixedDoc)) = {[ "id"; "name"; "type" ]}
  ∧ dom (other (normalizeNode mixedDoc)) = {[ "scrollBehavior" ]}.
Proof. vm_compute. done. Qed.

Lemma truthyId_Some (v : option NodeId) :
  truthyId v = true ↔ ∃ s, v = Some s ∧ s ≠ "".
Proof.
  destruct v as [s|]; simpl.
  - rewrite negb_true_iff, String.eqb_neq. naive_solver.
  - naive_solver.
Qed.

Lemma filter_all {A} (P : A → Prop) `{!∀ x, Decision (P x)} (l : list A) :
  Forall P l → filter P l = l.
Proof.
  induction 1 as [|x l Hx _ IH]; [done|].
  by rewrite filter_cons_True, IH.
Qed.

Example childIds_anonymous :
  childIds (normalizeNode anonymousChildDoc) = ["1:2"; "1:4"].
Proof. vm_compute. reflexivity. Qed.

(** The code's test of the visibility flag and the spec's words agree. *)
Lemma isVisibleNode_flag (c : json) :
  isVisibleNode c = true ↔ spec_flagFalse c = false.
Proof.
  unfold isVisibleNode, spec_flagFalse, member.
  destruct c as [| | | | |o]; try done.
  by destruct (o !! "visible") as [[|[]| | | |]|].
Qed.

(** [Boolean] drops exactly the values listed in [spec_noId]. *)
Lemma keeps_noId (v : option json) :
  keeps v = true ↔ spec_noId v = false.
Proof.
  unfold keeps, spec_noId, truthy.
  destruct v as [[|[]|q|[|a s]|l|o]|]; cbn; try done.
  by rewrite negb_true_iff.
Qed.

Lemma idsOf_objects (entries : list json) :
  Forall (λ c, c ≠ JNull) entries →
  idsOf entries = inr (map (λ c, member c "id") entries).
Proof.
  induction 1 as [|c entries Hc _ IH]; [done|].
  cbn [idsOf map]. rewrite IH. by destruct c.
Qed.

Lemma idsOf_null (entries : list json) :
  JNull ∈ entries → idsOf entries = inl TypeError.
Proof.
  induction entries as [|c entries IH]; intros Hin;
    [by apply elem_of_nil in Hin|].
  cbn [idsOf]. destruct c; try done;
    (apply elem_of_cons in Hin as [? | Hin]; [done|]);
    cbn [idOf]; rewrite (IH Hin); done.
Qed.

Lemma spec_childIds_eq (doc : obj) :
  spec_childIds doc
  = map (λ c, member c "id")
      (filter (λ c, spec_flagFalse c = false) (childrenOf doc)).
Proof.
  unfold spec_childIds, childrenOf.
  apply map_ext. by intros [].
Qed.

(** The computation of [childIds] on a document without a [null] entry. *)
Lemma childIdValues_eq (doc : obj) :
  Forall (λ c, c ≠ JNull) (childrenOf doc) →
  childIdValues doc
  = inr (omap (λ v, v)
           (filter (λ v, spec_noId v = false) (spec_childIds doc))).
Proof.
  intros Hnull. unfold childIdValues.
  rewrite (list_filter_iff (λ c, isVisibleNode c = true)
             (λ c, spec_flagFalse c = false)) by apply isVisibleNode_flag.
  rewrite idsOf_objects.
  2: { apply Forall_forall. intros c [_ Hc]%list_elem_of_filter.
       rewrite Forall_forall in Hnull. by apply Hnull. }
  rewrite spec_childIds_eq.
  by rewrite (list_filter_iff (λ v, keeps v = true)
                (λ v, spec_noId v = false)) by apply keeps_noId.
Qed.

(** On a document with a [null] among its [children], the computation
    throws. *)
Lemma childIdValues_null (doc : obj) :
  JNull ∈ childrenOf doc → childIdValues doc = inl TypeError.
Proof.
  intros Hin. unfold childIdValues. rewrite idsOf_null; [done|].
  by apply list_elem_of_filter.
Qed.

(** Where every [id] that counts is a string, the [childIds] that
    [normalizeNode] holds as strings are the values computed. *)
Lemma childIds_strings (entries : list json) :
  Forall (λ v, spec_noId v = true ∨ ∃ s, v = Some (JStr s))
    (map (λ c, member c "id") entries) →
  map JStr (omap (λ v, v)
              (filter (λ v, truthyId v = true)
                 (map (λ c, asId (member c "id")) entries)))
  = omap (λ v, v)
      (filter (λ v, spec_noId v = false) (map (λ c, member c "id") entries)).
Proof.
  induction entries as [|c entries IH]; [done|].
  cbn [map]. intros [Hc Hrest]%Forall_cons. specialize (IH Hrest).
  rewrite !filter_cons.
  destruct Hc as [Hno | [s Hs]].
  - rewrite (decide_False (P := spec_noId _ = false)) by congruence.
    rewrite decide_False; [done|].
    intros (s & Hs & Hne)%truthyId_Some.
    destruct (member c "id") as [[| | |s'| |]|]; try done.
    injection Hs as ->. by destruct s.
  - rewrite Hs. cbn [asId].
    destruct (decide (s = "")) as [->|Hne].
    + rewrite decide_False by done. by rewrite decide_False.
    + rewrite decide_True.
      2: { apply truthyId_Some. eauto. }
      rewrite decide_True by (by destruct s).
      cbn. by rewrite IH.
Qed.

(** C9, as stated, fails twice over.  [normalizeNode] copies the identifiers
    of the visible children without removing repetitions, so a parent that
    lists one identifier twice gets it twice in [childIds]; and its
    [.filter(Boolean)] drops a visible child that has no identifier, so
    [childIds] is not the list of the [id] values of exactly the entries
    whose flag is not [false]. *)
Lemma childIds_may_repeat :
  (childIdValues twinsDoc = inr [JStr "1:2"; JStr "1:2"]
   ∧ childIds (normalizeNode twinsDoc) = ["1:2"; "1:2"]
   ∧ ¬ NoDup [JStr "1:2"; JStr "1:2"])
  ∧ (spec_childIds anonymousChildDoc
     = [Some (JStr "1:2"); None; Some (JStr "1:4")]
     ∧ childIdValues anonymousChildDoc = inr [JStr "1:2"; JStr "1:4"]
     ∧ map Some [JStr "1:2"; JStr "1:4"] ≠ spec_childIds anonymousChildDoc).
Proof.
  assert (spec_childIds anonymousChildDoc
          = [Some (JStr "1:2"); None; Some (JStr "1:4")])
    as Hspec by (vm_compute; reflexivity).
  split; split; [vm_compute; reflexivity | | exact Hspec |].
  - split; [vm_compute; reflexivity|]. intros Hnd.
    apply NoDup_cons in Hnd as [Hnin _]. apply Hnin. left.
  - split; [vm_compute; reflexivity|]. rewrite Hspec. discriminate.
Qed.

(** C9, amended: for every RawNode none of whose [children] entries is
    [null], [normalizeNode] computes [childIds] as the order-preserving list
    of the [id] values of the entries whose visibility flag is not
    explicitly false, without the entries that have no [id] or one that is
    [null], [false], 0 or the empty string; nothing is deduplicated, so the
    list is free of duplicates exactly when the list of those values is; it
    is the spec's list itself when every such entry has an [id] that
    counts; and where those are strings, it is the [childIds] held by the
    normalized node. *)
Theorem normalizeNode_childIds (doc : obj) :
  Forall (λ c, c ≠ JNull) (childrenOf doc) →
  let ids := omap (λ v, v)
               (filter (λ v, spec_noId v = false) (spec_childIds doc)) in
  childIdValues doc = inr ids
  ∧ (∀ v, v ∈ ids ↔
          spec_noId (Some v) = false
          ∧ ∃ c, c ∈ childrenOf doc
                 ∧ member c "visible" ≠ Some (JBool false)
                 ∧ member c "id" = Some v)
  ∧ (NoDup ids ↔
     NoDup (filter (λ v, spec_noId v = false) (spec_childIds doc)))
  ∧ (Forall (λ v, spec_noId v = false) (spec_childIds doc) →
     map Some ids = spec_childIds doc)
  ∧ (Forall (λ v, spec_noId v = true ∨ ∃ s, v = Some (JStr s))
       (spec_childIds doc) →
     map JStr (childIds (normalizeNode doc)) = ids).
Proof.
  intros Hnull ids.
  assert (map Some ids = filter (λ v, spec_noId v = false) (spec_childIds doc))
    as Hsome.
  { subst ids. induction (spec_childIds doc) as [|v l IH]; [done|].
    rewrite filter_cons. case_decide as Hv; [| done].
    destruct v as [v|]; [| done]. cbn [omap list_omap map].
    fold (omap (M:=list) (λ v : option json, v)). by rewrite IH. }
  split; [by apply childIdValues_eq|]. split; [| split; [| split]].
  - intros v. transitivity (Some v ∈ map Some ids).
    { split; [apply (list_elem_of_fmap_2 Some) |].
      intros (v' & [= ->] & Hv')%list_elem_of_fmap. exact Hv'. }
    rewrite Hsome, list_elem_of_filter, spec_childIds_eq, list_elem_of_fmap.
    setoid_rewrite list_elem_of_filter.
    assert (∀ c, spec_flagFalse c = false
                 ↔ member c "visible" ≠ Some (JBool false)) as Hflag.
    { intros c. unfold spec_flagFalse, member.
      destruct c as [| | | | |o]; try done.
      by destruct (o !! "visible") as [[|[]| | | |]|]. }
    split.
    + intros [Hno (c & Hid & Hvis & Hin)]. split; [done|].
      exists c. by rewrite <- Hflag.
    + intros (Hno & c & Hin & Hvis & Hid). split; [done|].
      exists c. by rewrite Hflag.
  - rewrite <- Hsome. symmetry. apply (NoDup_fmap Some).
  - intros Hall. rewrite Hsome. by apply filter_all.
  - intros Hstr. subst ids. rewrite spec_childIds_eq in *.
    cbn [normalizeNode childIds]. unfold visibleChildIds.
    rewrite (list_filter_iff (λ c, isVisibleNode c = true)
               (λ c, spec_flagFalse c = false)) by apply isVisibleNode_flag.
    by apply childIds_strings.
Qed.

Lemma normalizeNode_childIds_witness :
  let ids := omap (λ v, v)
               (filter (λ v, spec_noId v = false)
                  (spec_childIds anonymousChildDoc)) in
  childIdValues anonymousChildDoc = inr ids
  ∧ (∀ v, v ∈ ids ↔
          spec_noId (Some v) = false
          ∧ ∃ c, c ∈ childrenOf anonymousChildDoc
                 ∧ member c "visible" ≠ Some (JBool false)
                 ∧ member c "id" = Some v)
  ∧ (NoDup ids ↔
     NoDup (filter (λ v, spec_noId v = false)
              (spec_childIds anonymousChildDoc)))
  ∧ (Forall (λ v, spec_noId v = false) (spec_childIds anonymousChildDoc) →
     map Some ids = spec_childIds anonymousChildDoc)
  ∧ (Forall (λ v, spec_noId v = true ∨ ∃ s, v = Some (JStr s))
       (spec_childIds anonymousChildDoc) →
     map JStr (childIds (normalizeNode anonymousChildDoc)) = ids).
Proof.
  apply (normalizeNode_childIds anonymousChildDoc).
  vm_compute. repeat constructor; discriminate.
Defined.

End NormalizerFacts.

(** ** The fetcher *)

Module FetcherFacts.
Import Fetcher Scenarios.

Lemma shouldRetry_iff (st : Z) :
  shouldRetry st = true ↔ (st = 429 ∨ 500 ≤ st ≤ 599)%Z.
Proof.
  unfold shouldRetry.
  destruct (Z.eqb_spec st 429) as [->|Hne]; [intuition lia|].
  destruct (Z.leb_spec 500 st), (Z.leb_spec st 599); simpl;
    intuition (try discriminate; lia).
Qed.

Section Run.

Variable server : nat → FetchOutcome.
Variable random : nat → Q.

(** The loop, started at [attempt] with [k] retryable failures ahead of a
    response that ends it, makes [k] sleeps and stops at call [attempt + k]. *)
Lemma fetchLoop_stops (k fuel attempt : nat) (ws : list Z) :
  attempt + k < maxAttempts →
  k < fuel →
  (∀ i, attempt ≤ i < attempt + k → retryable (server i) = true) →
  retryable (server (attempt + k)) = false ∨ attempt + k = maxAttempts - 1 →
  fetchLoop server random fuel attempt ws
  = Some (mkRun (conclude (server (attempt + k)))
            (ws ++ map (waitMs random) (seq attempt k))
            (S (attempt + k))).
Proof.
  revert fuel attempt ws.
  induction k as [|k IH]; intros fuel attempt ws Hmax Hfuel Hretry Hlast.
  - destruct fuel as [|fuel]; [lia|].
    rewrite Nat.add_0_r in *. rewrite app_nil_r. cbn [fetchLoop].
    unfold retryable, conclude in *.
    destruct (server attempt) as [|res]; [done|].
    destruct (ok res); [by destruct (bodyJson res)|]. simpl in Hlast.
    destruct Hlast as [-> | ->]; [by rewrite andb_false_r|].
    by cbn.
  - destruct fuel as [|fuel]; [lia|]. cbn [fetchLoop].
    pose proof (Hretry attempt ltac:(lia)) as Hr. unfold retryable in Hr.
    destruct (server attempt) as [|res]; [done|].
    apply andb_true_iff in Hr as [Hok Hsr].
    apply negb_true_iff in Hok. rewrite Hok, Hsr.
    assert ((attempt <? maxAttempts - 1)%nat = true) as ->
      by (apply Nat.ltb_lt; unfold maxAttempts in *; lia).
    cbn [andb]. rewrite (IH fuel (S attempt)); try lia.
    + replace (S attempt + k) with (attempt + S k) by lia.
      cbn [seq map]. by rewrite <- app_assoc.
    + intros i Hi. apply Hretry. lia.
    + replace (S attempt + k) with (attempt + S k) by lia. exact Hlast.
Qed.

(** Some call among the first [maxAttempts] ends the loop. *)
Lemma stop_index (bound : nat) :
  ∃ k, k ≤ bound
       ∧ (∀ i, i < k → retryable (server i) = true)
       ∧ (retryable (server k) = false ∨ k = bound).
Proof.
  induction bound as [|bound (k & Hk & Hbefore & Hlast)].
  - exists 0. split; [lia|]. split; [intros; lia | by right].
  - destruct Hlast as [Hstop | ->].
    + exists k. split; [lia|]. split; [done | by left].
    + destruct (retryable (server bound)) eqn:Hb.
      * exists (S bound). split; [lia|]. split; [| by right].
        intros i Hi. destruct (decide (i = bound)) as [->|]; [done|].
        apply Hbefore. lia.
      * exists bound. split; [lia|]. split; [done | by left].
Qed.

Lemma figmaFetchJson_run :
  ∃ k, k < maxAttempts
       ∧ (∀ i, i < k → retryable (server i) = true)
       ∧ (retryable (server k) = false ∨ k = maxAttempts - 1)
       ∧ figmaFetchJson server random
         = Some (mkRun (conclude (server k))
                   (map (waitMs random) (seq 0 k)) (S k)).
Proof.
  destruct (stop_index (maxAttempts - 1)) as (k & Hk & Hbefore & Hlast).
  exists k. unfold maxAttempts in *. repeat split; [lia | done | done |].
  unfold figmaFetchJson.
  rewrite (fetchLoop_stops k); unfold maxAttempts; simpl; try done; try lia.
  intros i Hi. apply Hbefore. lia.
Qed.

Lemma figmaFetchJson_stops_at (k : nat) :
  k < maxAttempts →
  (∀ i, i < k → retryable (server i) = true) →
  retryable (server k) = false ∨ k = maxAttempts - 1 →
  figmaFetchJson server random
  = Some (mkRun (conclude (server k)) (map (waitMs random) (seq 0 k)) (S k)).
Proof.
  intros Hk Hbefore Hlast. unfold figmaFetchJson.
  rewrite (fetchLoop_stops k); unfold maxAttempts in *; simpl; try done; try lia.
  intros i Hi. apply Hbefore. lia.
Qed.

End Run.

(** C4: [shouldRetry] holds of exactly 429 and 500-599.  A failing response
    whose status is outside that set makes [figmaFetchJson] throw its error
    at once: as the first response, after one [fetch] call and no sleep; as a
    later one, with no call or sleep after it.  A failing response inside the
    set is retried while fewer than [maxAttempts] = 6 calls were made; when
    all six fail that way, the error is thrown after the sixth call and five
    sleeps.  No run makes more than six calls. *)
Theorem figmaFetchJson_retry_policy (server : nat → FetchOutcome)
    (random : nat → Q) :
  (∀ st, shouldRetry st = true ↔ (st = 429 ∨ 500 ≤ st ≤ 599)%Z)
  ∧ (∀ res, server 0 = Responded res → ok res = false →
       shouldRetry (status res) = false →
       figmaFetchJson server random
       = Some (mkRun (inr (ApiError (status res) (statusText res)
                             (String.substring 0 2000 (bodyText res))))
                 [] 1))
  ∧ (∀ k res, k < maxAttempts →
       (∀ i, i < k → retryable (server i) = true) →
       server k = Responded res → ok res = false →
       shouldRetry (status res) = false →
       figmaFetchJson server random
       = Some (mkRun (inr (ApiError (status res) (statusText res)
                             (String.substring 0 2000 (bodyText res))))
                 (map (waitMs random) (seq 0 k)) (S k)))
  ∧ (∀ k, k < maxAttempts - 1 →
       (∀ i, i ≤ k → retryable (server i) = true) →
       ∃ run, figmaFetchJson server random = Some run ∧ k + 2 ≤ calls run)
  ∧ ((∀ i, i < maxAttempts → retryable (server i) = true) →
       ∃ res, server (maxAttempts - 1) = Responded res
              ∧ figmaFetchJson server random
                = Some (mkRun (inr (ApiError (status res) (statusText res)
                                      (String.substring 0 2000 (bodyText res))))
                          (map (waitMs random) (seq 0 (maxAttempts - 1)))
                          maxAttempts))
  ∧ (∃ run, figmaFetchJson server random = Some run
            ∧ calls run ≤ maxAttempts
            ∧ length (waits run) + 1 = calls run).
Proof.
  assert (∀ k res, k < maxAttempts →
       (∀ i, i < k → retryable (server i) = true) →
       server k = Responded res → ok res = false →
       shouldRetry (status res) = false →
       figmaFetchJson server random
       = Some (mkRun (inr (ApiError (status res) (statusText res)
                             (String.substring 0 2000 (bodyText res))))
                 (map (waitMs random) (seq 0 k)) (S k))) as Hstop.
  { intros k res Hk Hbefore Hres Hok Hsr.
    rewrite (figmaFetchJson_stops_at server random k Hk Hbefore).
    - unfold conclude. by rewrite Hres, Hok.
    - left. unfold retryable. by rewrite Hres, Hsr, andb_false_r. }
  split; [exact shouldRetry_iff|].
  split; [| split; [exact Hstop | split; [| split]]].
  - intros res Hres Hok Hsr.
    apply (Hstop 0 res); try done; [unfold maxAttempts; lia | intros; lia].
  - intros k Hk Hretry.
    destruct (figmaFetchJson_run server random)
      as (k' & Hk' & _ & Hlast & Hrun).
    eexists. split; [exact Hrun|]. cbn [calls].
    destruct (decide (k' ≤ k)) as [Hle|]; [| lia].
    destruct Hlast as [Hstop' | ->]; [| lia].
    rewrite Hretry in Hstop' by done. done.
  - intros Hall.
    pose proof (Hall (maxAttempts - 1) ltac:(unfold maxAttempts; lia)) as Hr.
    unfold retryable in Hr.
    destruct (server (maxAttempts - 1)) as [|res] eqn:Hres; [done|].
    apply andb_true_iff in Hr as [Hok%negb_true_iff _].
    exists res. split; [done|].
    rewrite (figmaFetchJson_stops_at server random (maxAttempts - 1)).
    + unfold conclude. by rewrite Hres, Hok.
    + unfold maxAttempts. lia.
    + intros i Hi. apply Hall. lia.
    + by right.
  - destruct (figmaFetchJson_run server random)
      as (k & Hk & _ & _ & Hrun).
    eexists. split; [exact Hrun|]. cbn [calls waits].
    rewrite length_map, length_seq. lia.
Qed.

Lemma roundHalfEven_le (q : Q) (n : Z) :
  (q <= inject_Z n)%Q → (roundHalfEven q ≤ n)%Z.
Proof.
  intros Hq. unfold roundHalfEven. cbv zeta.
  pose proof (Qfloor_le q) as Hf. pose proof (Qlt_floor q) as Hlt.
  assert (Qfloor q ≤ n)%Z as Hfn.
  { rewrite <- (Qfloor_Z n). by apply Qfloor_resp_le. }
  destruct (decide (Qfloor q = n)) as [Heq|Hne].
  - assert ((q - inject_Z (Qfloor q) ?= 1 # 2)%Q = Lt) as ->; [| cbv iota; lia].
    rewrite Heq in *. apply (proj1 (Qlt_alt _ _)). lra.
  - destruct (q - inject_Z (Qfloor q) ?= 1 # 2)%Q; [| lia | lia].
    destruct (Z.even (Qfloor q)); lia.
Qed.

Lemma roundHalfEven_below (q : Q) (n : Z) :
  (q < inject_Z n - (1 # 2))%Q → (roundHalfEven q ≤ n - 1)%Z.
Proof.
  intros Hq. unfold roundHalfEven. cbv zeta.
  pose proof (Qfloor_le q) as Hf. pose proof (Qlt_floor q) as Hlt.
  assert (Qfloor q ≤ n - 1)%Z as Hfn.
  { assert (Qfloor q < n)%Z; [| lia]. rewrite Zlt_Qlt. lra. }
  clear Hlt.
  destruct (decide (Qfloor q = n - 1)%Z) as [Heq|Hne].
  - assert ((q - inject_Z (Qfloor q) ?= 1 # 2)%Q = Lt) as ->; [| cbv iota; lia].
    rewrite Heq in *. apply (proj1 (Qlt_alt _ _)).
    assert (inject_Z (n - 1) == inject_Z n - 1)%Q as He.
    { unfold Z.sub. rewrite inject_Z_plus, inject_Z_opp. reflexivity. }
    lra.
  - destruct (q - inject_Z (Qfloor q) ?= 1 # 2)%Q; [| lia | lia].
    destruct (Z.even (Qfloor q)); lia.
Qed.

Lemma roundHalfEven_nonneg (q : Q) :
  (0 <= q)%Q → (0 ≤ roundHalfEven q)%Z.
Proof.
  intros Hq. unfold roundHalfEven. cbv zeta.
  assert (0 ≤ Qfloor q)%Z as Hf.
  { rewrite <- (Qfloor_Z 0). by apply Qfloor_resp_le. }
  destruct (q - inject_Z (Qfloor q) ?= 1 # 2)%Q; [| lia | lia].
  destruct (Z.even (Qfloor q)); lia.
Qed.

Lemma binade_spec (steps : nat) (e : Z) (x : Q) :
  (x < Qpower 2 (e + 1))%Q →
  let b := binade steps e x in
  (e - Z.of_nat steps ≤ b ≤ e)%Z
  ∧ (x < Qpower 2 (b + 1))%Q
  ∧ ((Qpower 2 b <= x)%Q ∨ b = (e - Z.of_nat steps)%Z).
Proof.
  revert e. induction steps as [|steps IH]; intros e Hx; cbn [binade].
  - cbv zeta. split; [lia|]. split; [done|]. right. lia.
  - destruct (Qle_bool (Qpower 2 e) x) eqn:Hle.
    + apply Qle_bool_iff in Hle. cbv zeta. split; [lia|]. by split; [| left].
    + assert (x < Qpower 2 (e - 1 + 1))%Q as Hx'.
      { replace (e - 1 + 1)%Z with e by lia. apply Qnot_le_lt.
        intros H%Qle_bool_iff. congruence. }
      destruct (IH (e - 1)%Z Hx') as (Hb & Hlt & Hor).
      cbv zeta. split; [lia|]. split; [done|].
      destruct Hor as [? | ->]; [by left | right; lia].
Qed.

Lemma Qabs_nonneg_eq (x : Q) : (0 <= x)%Q → Qabs x = x.
Proof.
  destruct x as [p q]. unfold Qle, Qabs. cbn. intros Hp.
  f_equal. apply Z.abs_eq. lia.
Qed.

(** The product of a double in [0, 1) with 250 is a double in [0, 250). *)
Lemma toDouble_scaled (x : Q) :
  (0 <= x)%Q → (x <= 250 - (250 # 9007199254740992))%Q →
  (0 <= toDouble x)%Q ∧ (toDouble x < 250)%Q.
Proof.
  intros H0 Hx. unfold toDouble. cbv zeta. rewrite (Qabs_nonneg_eq x H0).
  assert (x < Qpower 2 (1023 + 1))%Q as Hbig.
  { apply Qle_lt_trans with (250 - (250 # 9007199254740992))%Q; [done|].
    apply Qlt_trans with (Qpower 2 8); [reflexivity|].
    by apply Qpower_lt_compat_l. }
  destruct (binade_spec 2045 1023 x Hbig) as (Hb & Hlt & Hor).
  set (b := binade 2045 1023 x) in *. clearbody b.
  assert (0 < Qpower 2 (b - 52))%Q as Hu by (by apply Qpower_0_lt).
  assert (b ≤ 7)%Z as Hb7.
  { destruct Hor as [Hle | ->]; [| lia].
    assert (Qpower 2 b < Qpower 2 8)%Q as Hp.
    { eapply Qle_lt_trans; [exact Hle|].
      eapply Qle_lt_trans; [exact Hx|]. reflexivity. }
    apply Qpower_lt_compat_l_inv in Hp; [lia | reflexivity]. }
  split.
  - apply Qmult_le_0_compat; [| by apply Qlt_le_weak].
    change 0%Q with (inject_Z 0). rewrite <- Zle_Qle.
    apply roundHalfEven_nonneg. apply Qle_shift_div_l; [done|]. lra.
  - destruct (decide (b = 7)%Z) as [->|Hne].
    + change (Qpower 2 (7 - 52)) with (1 # 35184372088832)%Q in *.
      assert (roundHalfEven (x / (1 # 35184372088832))
              ≤ 8796093022208000 - 1)%Z as Hr.
      { apply roundHalfEven_below. apply Qlt_shift_div_r; [reflexivity|].
        eapply Qle_lt_trans; [exact Hx|]. reflexivity. }
      apply Qle_lt_trans
        with (inject_Z (8796093022208000 - 1) * (1 # 35184372088832))%Q;
        [| reflexivity].
      apply Qmult_le_compat_r; [| done]. by rewrite <- Zle_Qle.
    + assert (roundHalfEven (x / Qpower 2 (b - 52)) ≤ 2 ^ 53)%Z as Hr.
      { apply roundHalfEven_le. apply Qle_shift_div_r; [done|].
        apply Qlt_le_weak. eapply Qlt_le_trans; [exact Hlt|].
        replace (b + 1)%Z with (53 + (b - 52))%Z by lia.
        rewrite Qpower_plus by done. apply Qle_refl. }
      apply Qle_lt_trans with (Qpower 2 (b + 1)).
      * replace (b + 1)%Z with (53 + (b - 52))%Z by lia.
        rewrite Qpower_plus by done.
        apply Qmult_le_compat_r; [| by apply Qlt_le_weak].
        change (Qpower 2 53) with (inject_Z (2 ^ 53)). by rewrite <- Zle_Qle.
      * apply Qle_lt_trans with (Qpower 2 7); [| reflexivity].
        apply Qpower_le_compat_l; [lia | done].
Qed.

(** A double below 1 is at most [1 - 2^(-53)]. *)
Lemma double_below_one (r : Q) :
  (0 <= r)%Q → (r < 1)%Q → (toDouble r == r)%Q →
  (r <= 1 - (1 # 9007199254740992))%Q.
Proof.
  intros H0 H1 Hd. unfold toDouble in Hd. cbv zeta in Hd.
  rewrite (Qabs_nonneg_eq r H0) in Hd.
  assert (r < Qpower 2 (1023 + 1))%Q as Hbig.
  { apply Qlt_trans with 1%Q; [done|].
    change 1%Q with (Qpower 2 0). by apply Qpower_lt_compat_l. }
  destruct (binade_spec 2045 1023 r Hbig) as (Hb & Hlt & Hor).
  set (b := binade 2045 1023 r) in *. clearbody b.
  assert (b ≤ -1)%Z as Hb1.
  { destruct Hor as [Hle | ->]; [| lia].
    assert (Qpower 2 b < Qpower 2 0)%Q as Hp
      by (eapply Qle_lt_trans; [exact Hle | exact H1]).
    apply Qpower_lt_compat_l_inv in Hp; [lia | reflexivity]. }
  destruct (decide (b = -1)%Z) as [->|Hne].
  - change (Qpower 2 (-1 - 52)) with (1 # 9007199254740992)%Q in Hd.
    set (k := roundHalfEven (r / (1 # 9007199254740992))) in *. clearbody k.
    assert (k < 9007199254740992)%Z as Hk.
    { rewrite Zlt_Qlt.
      apply (Qmult_lt_r _ _ (1 # 9007199254740992)); [reflexivity|].
      rewrite Hd. eapply Qlt_le_trans; [exact H1|].
      apply Qle_bool_iff. reflexivity. }
    rewrite <- Hd.
    apply Qle_trans
      with (inject_Z (9007199254740992 - 1) * (1 # 9007199254740992))%Q;
      [| apply Qle_bool_iff; reflexivity].
    apply Qmult_le_compat_r; [| done]. rewrite <- Zle_Qle. lia.
  - apply Qlt_le_weak. eapply Qlt_le_trans; [exact Hlt|].
    apply Qle_trans with (Qpower 2 (-1));
      [| apply Qle_bool_iff; reflexivity].
    apply Qpower_le_compat_l; [lia | done].
Qed.

Lemma jitter_bounds (random : nat → Q) (n : nat) :
  unitDouble (random n) → (0 ≤ jitter random n < 250)%Z.
Proof.
  intros (H0 & H1 & Hd). unfold jitter.
  pose proof (double_below_one _ H0 H1 Hd) as Hmax.
  destruct (toDouble_scaled (random n * inject_Z 250)) as [Hlo Hhi].
  { change 0%Q with (0 * inject_Z 250)%Q.
    by apply Qmult_le_compat_r. }
  { apply Qle_trans
      with ((1 - (1 # 9007199254740992)) * inject_Z 250)%Q;
      [by apply Qmult_le_compat_r | apply Qle_bool_iff; reflexivity]. }
  split.
  - rewrite <- (Qfloor_Z 0). by apply Qfloor_resp_le.
  - rewrite Zlt_Qlt. eapply Qle_lt_trans; [apply Qfloor_le | exact Hhi].
Qed.

(** The product is rounded as the code rounds it: at the double 0.24 the
    exact product is below 60 and the double product is 60. *)
Example jitter_at_double024 :
  unitDouble double024
  ∧ Qfloor (double024 * inject_Z 250) = 59%Z
  ∧ jitter (λ _, double024) 0 = 60%Z.
Proof.
  split; [| split; vm_compute; reflexivity].
  split; [| split]; vm_compute; congruence.
Qed.

Lemma waits_lookup (random : nat → Q) (n k : nat) (w : Z) :
  map (waitMs random) (seq 0 n) !! k = Some w →
  k < n ∧ w = waitMs random k.
Proof.
  intros Hk. change (map (waitMs random) (seq 0 n))
    with (waitMs random <$> seq 0 n) in Hk.
  rewrite list_lookup_fmap in Hk.
  destruct (seq 0 n !! k) as [i|] eqn:Hi; [| done].
  apply lookup_seq in Hi as [-> ?]. simpl in Hk. split; [done | congruence].
Qed.

(** C5: when [Math.random()] yields doubles in [0, 1), every reattempt of
    one call is preceded by one wait and no other wait is made; the wait
    before the reattempt that follows failed attempt number [k] (counted
    from 0) is [500 * 2^k] plus the jitter [Math.floor(Math.random() * 250)],
    which lies in [0, 250); so each wait is at least [500 * 2^k], the
    exponential components of successive waits of one call strictly
    increase, and so do the waits themselves. *)
Theorem figmaFetchJson_backoff (server : nat → FetchOutcome)
    (random : nat → Q) :
  (∀ n, unitDouble (random n)) →
  ∃ run, figmaFetchJson server random = Some run
    ∧ length (waits run) + 1 = calls run
    ∧ (∀ k, S k < calls run →
         waits run !! k
         = Some (500 * 2 ^ Z.of_nat k + jitter random k)%Z)
    ∧ (∀ k w, waits run !! k = Some w →
         S k < calls run
         ∧ (w = 500 * 2 ^ Z.of_nat k + jitter random k
            ∧ 0 ≤ jitter random k < 250
            ∧ 500 * 2 ^ Z.of_nat k ≤ w)%Z)
    ∧ (∀ k w w', waits run !! k = Some w → waits run !! S k = Some w' →
         (500 * 2 ^ Z.of_nat k < 500 * 2 ^ Z.of_nat (S k) ∧ w < w')%Z).
Proof.
  intros Hrandom.
  destruct (figmaFetchJson_run server random) as (n & _ & _ & _ & Hrun).
  eexists. split; [exact Hrun|]. cbn [waits calls].
  assert (∀ k, (0 ≤ jitter random k < 250)%Z) as Hj.
  { intros k. by apply jitter_bounds. }
  assert (∀ k, (2 ^ Z.of_nat (S k) = 2 * 2 ^ Z.of_nat k)%Z) as Hpow.
  { intros k. rewrite Nat2Z.inj_succ, Z.pow_succ_r; lia. }
  split; [| split; [| split]].
  - rewrite length_map, length_seq. lia.
  - intros k Hk.
    change (map (waitMs random) (seq 0 n)) with (waitMs random <$> seq 0 n).
    rewrite list_lookup_fmap, lookup_seq_lt by lia. done.
  - intros k w [Hk ->]%waits_lookup. split; [lia|]. unfold waitMs, base.
    specialize (Hj k). lia.
  - intros k w w' [_ ->]%waits_lookup [_ ->]%waits_lookup.
    unfold waitMs, base. rewrite Hpow.
    pose proof (Hj k). pose proof (Hj (S k)).
    assert (0 < 2 ^ Z.of_nat k)%Z by (apply Z.pow_pos_nonneg; lia).
    lia.
Qed.

Example busyThenOk_run :
  figmaFetchJson busyThenOk halfRandom
  = Some (mkRun (inl (JObj ∅)) [625; 1125; 2125]%Z 4)
  ∧ figmaFetchJson busyThenOk (λ _, double024)
    = Some (mkRun (inl (JObj ∅)) [560; 1060; 2060]%Z 4).
Proof. vm_compute. done. Qed.

Lemma figmaFetchJson_backoff_witness :
  ∃ run, figmaFetchJson busyThenOk halfRandom = Some run
    ∧ length (waits run) + 1 = calls run
    ∧ (∀ k, S k < calls run →
         waits run !! k
         = Some (500 * 2 ^ Z.of_nat k + jitter halfRandom k)%Z)
    ∧ (∀ k w, waits run !! k = Some w →
         S k < calls run
         ∧ (w = 500 * 2 ^ Z.of_nat k + jitter halfRandom k
            ∧ 0 ≤ jitter halfRandom k < 250
            ∧ 500 * 2 ^ Z.of_nat k ≤ w)%Z)
    ∧ (∀ k w w', waits run !! k = Some w → waits run !! S k = Some w' →
         (500 * 2 ^ Z.of_nat k < 500 * 2 ^ Z.of_nat (S k) ∧ w < w')%Z).
Proof.
  apply (figmaFetchJson_backoff busyThenOk halfRandom).
  intros n. unfold halfRandom.
  split; [| split]; vm_compute; congruence.
Defined.

End FetcherFacts.

(** ** The worker pool *)

Module PoolFacts.
Import Pool Invariants.

Section Facts.

Context {I R E : Type}.

Abbreviation State := (Pool.State I R E).

Lemma join_fields (p : State) :
  items (join p) = items p ∧ results (join p) = results p
  ∧ idx (join p) = idx p ∧ workers (join p) = workers p.
Proof.
  unfold join. destruct (promise p); [| done | done].
  by destruct (forallb isReturned (workers p)).
Qed.

Lemma join_promise (p : State) :
  promise (join p)
  = match promise p with
    | Pending => if forallb isReturned (workers p) then Fulfilled else Pending
    | settled => settled
    end.
Proof.
  unfold join. destruct (promise p) eqn:Hp; [| done | done].
  by destruct (forallb isReturned (workers p)).
Qed.

Lemma forallb_isReturned (ws : list (Worker E)) :
  forallb isReturned ws = true ↔ ∀ w wk, ws !! w = Some wk → wk = Returned.
Proof.
  rewrite forallb_forall. split.
  - intros H w wk Hw. apply list_elem_of_lookup_2, list_elem_of_In, H in Hw.
    by destruct wk.
  - intros H wk Hin. apply list_elem_of_In, list_elem_of_lookup_1 in Hin as [w Hw].
    by rewrite (H w wk Hw).
Qed.

(** The state [mapLimit] builds before it suspends: the first
    [Math.min(limit, items.length)] items are started, one per worker. *)
Lemma spawn_iter (its : list I) (m : nat) :
  m ≤ length its →
  Nat.iter m spawn
    (mkPool its (replicate (length its) None) 0 [] Pending : State)
  = mkPool its (replicate (length its) None) m
      (map Awaiting (seq 0 m)) Pending.
Proof.
  induction m as [|m IH]; intros Hm; [done|].
  rewrite Nat.iter_succ, IH by lia. unfold spawn, nextUnit.
  cbn [idx items results workers promise].
  assert ((m <? length its)%nat = true) as -> by (apply Nat.ltb_lt; lia).
  cbn [idx items results workers promise]. by rewrite seq_S, map_app.
Qed.

Lemma mapLimit_eq (its : list I) (limit : nat) :
  let m := Nat.min limit (length its) in
  (mapLimit its limit : State)
  = mkPool its (replicate (length its) None) m (map Awaiting (seq 0 m))
      (match m with O => Fulfilled | S _ => Pending end).
Proof.
  intros m. unfold mapLimit. fold m. rewrite spawn_iter by (subst m; lia).
  unfold join. cbn. destruct m; [done|]. done.
Qed.

(** What [settle] does to the pool, case by case. *)
Lemma settle_Some (w : nat) (o : R + E) (p p' : State) :
  settle w o p = Some p' →
  ∃ c, workers p !! w = Some (Awaiting c)
    ∧ items p' = items p
    ∧ match o with
      | inl r =>
        results p' = <[c := Some r]> (results p)
        ∧ ((idx p < length (items p) ∧ idx p' = S (idx p)
            ∧ workers p' = <[w := Awaiting (idx p)]> (workers p))
           ∨ (length (items p) ≤ idx p ∧ idx p' = idx p
              ∧ workers p' = <[w := Returned]> (workers p)))
        ∧ promise p'
          = match promise p with
            | Pending =>
              if forallb isReturned (workers p') then Fulfilled else Pending
            | settled => settled
            end
      | inr e =>
        results p' = results p ∧ idx p' = idx p
        ∧ workers p' = <[w := Threw e]> (workers p)
        ∧ promise p'
          = match promise p with
            | Pending => RejectedWith e
            | settled => settled
            end
      end.
Proof.
  unfold settle. destruct (workers p !! w) as [[c| |e']|] eqn:Hw; try done.
  intros Hs. exists c. split; [done|]. destruct o as [r|e].
  - unfold nextUnit in Hs. cbn [idx items results workers promise] in Hs.
    destruct (idx p <? length (items p))%nat eqn:Hlt;
      cbv beta iota zeta in Hs; cbn [idx items results workers promise] in Hs;
      injection Hs as <-;
      match goal with |- context [join ?q] =>
        destruct (join_fields q) as (Hi & Hr & Hx & Hws);
        rewrite (join_promise q), Hi, Hr, Hx, Hws
      end;
      cbn [idx items results workers promise];
      (split; [done|]); (split; [done|]); (split; [| done]).
    + left. apply Nat.ltb_lt in Hlt. done.
    + right. apply Nat.ltb_ge in Hlt. done.
  - injection Hs as <-. done.
Qed.

Lemma wf_mapLimit (its : list I) (limit : nat) :
  Wf limit (mapLimit its limit : State).
Proof.
  rewrite mapLimit_eq. cbv zeta.
  remember (Nat.min limit (length its)) as m eqn:Hmdef.
  assert (m ≤ length its) as Hm by lia.
  assert (∀ w wk, map (Awaiting (E:=E)) (seq 0 m) !! w = Some wk →
                  w < m ∧ wk = Awaiting w) as Hws.
  { intros w wk Hw.
    change (map Awaiting (seq 0 m)) with (Awaiting (E:=E) <$> seq 0 m) in Hw.
    rewrite list_lookup_fmap in Hw.
    destruct (seq 0 m !! w) as [i|] eqn:Hi; [| done].
    apply lookup_seq in Hi as [-> ?]. simpl in Hw. split; [done | congruence]. }
  split; cbn [idx items results workers promise].
  - done.
  - by rewrite length_replicate.
  - by rewrite length_map, length_seq.
  - intros w c [Hw [= <-]]%Hws. split; [done|].
    apply lookup_replicate_2. lia.
  - intros w w' c [_ [= <-]]%Hws [_ [= <-]]%Hws. done.
  - intros i _ Hi. by apply lookup_replicate_2.
  - intros w [_ ?]%Hws. done.
  - intros Hf w wk [Hw _]%Hws. destruct m; [lia | done].
  - intros c Hc. left. exists c.
    change (map Awaiting (seq 0 m)) with (Awaiting (E:=E) <$> seq 0 m).
    rewrite list_lookup_fmap, lookup_seq_lt by done. done.
Qed.

Lemma wf_settle (limit w : nat) (o : R + E) (p p' : State) :
  Wf limit p → settle w o p = Some p' → Wf limit p'.
Proof.
  intros [Hidx Hres Hwk Haw Hinj Hfresh Hret Hful Hst]
    (c & Hw & Hi & Ho)%settle_Some.
  pose proof (Haw w c Hw) as [Hc Hcnone].
  assert (w < length (workers p)) as Hwlt by by eapply lookup_lt_Some.
  destruct o as [r|e].
  - destruct Ho as (Hr & Hcase & Hp).
    assert (∀ i, i ≠ c → results p' !! i = results p !! i) as Hother.
    { intros i Hne. rewrite Hr. by apply list_lookup_insert_ne. }
    assert (results p' !! c = Some (Some r)) as Hcres.
    { rewrite Hr. apply list_lookup_insert_eq. rewrite Hres. lia. }
    destruct Hcase as [(Hlt & Hx & Hws) | (Hge & Hx & Hws)].
    + (* the worker takes item [idx p] *)
      assert (∀ w' wk, workers p' !! w' = Some wk →
                (w' = w ∧ wk = Awaiting (idx p))
                ∨ (w' ≠ w ∧ workers p !! w' = Some wk)) as Hlook.
      { intros w' wk. rewrite Hws. destruct (decide (w' = w)) as [->|Hne].
        - rewrite list_lookup_insert_eq by done. intros [= <-]. by left.
        - rewrite list_lookup_insert_ne by done. by right. }
      split; rewrite ?Hi, ?Hx.
      * lia.
      * rewrite Hr, length_insert. done.
      * rewrite Hws, length_insert. done.
      * intros w' c' [[-> [= ->]] | [Hne Hw']]%Hlook.
        -- split; [lia|]. rewrite Hother by lia. apply Hfresh; lia.
        -- destruct (Haw w' c' Hw') as [Hc' Hn']. split; [lia|].
           rewrite Hother; [done|]. intros ->. apply Hne. by eapply Hinj.
      * intros w1 w2 c' [[-> Hc1] | [Hne1 Hw1]]%Hlook
          [[-> Hc2] | [Hne2 Hw2]]%Hlook; try done.
        -- injection Hc1 as ->. destruct (Haw w2 _ Hw2). lia.
        -- injection Hc2 as ->. destruct (Haw w1 _ Hw1). lia.
        -- by eapply Hinj.
      * intros i Hle Hilt. rewrite Hother by lia. apply Hfresh; lia.
      * intros w' [[_ ?] | [_ Hw']]%Hlook; [done|].
        apply Hret in Hw'. lia.
      * intros Hf w' wk Hw'. rewrite Hp in Hf.
        destruct (promise p) eqn:Hpp;
          [| by specialize (Hful eq_refl w _ Hw) | done].
        destruct (forallb isReturned (workers p')) eqn:Hall; [| done].
        by eapply forallb_isReturned.
      * intros c' Hc'. destruct (decide (c' = c)) as [->|Hnec].
        { right. left. eauto. }
        destruct (decide (c' = idx p)) as [->|Hnei].
        { left. exists w. rewrite Hws. by apply list_lookup_insert_eq. }
        destruct (Hst c' ltac:(lia)) as [[w' Hw'] | [[r' Hr'] | (w' & e & Hw')]].
        -- left. exists w'. rewrite Hws, list_lookup_insert_ne; [done|].
           intros <-. congruence.
        -- right. left. exists r'. by rewrite Hother.
        -- right. right. exists w', e.
           rewrite Hws, list_lookup_insert_ne; [done|]. intros <-. congruence.
    + (* no item is left: the worker returns *)
      assert (∀ w' wk, workers p' !! w' = Some wk →
                (w' = w ∧ wk = Returned)
                ∨ (w' ≠ w ∧ workers p !! w' = Some wk)) as Hlook.
      { intros w' wk. rewrite Hws. destruct (decide (w' = w)) as [->|Hne].
        - rewrite list_lookup_insert_eq by done. intros [= <-]. by left.
        - rewrite list_lookup_insert_ne by done. by right. }
      split; rewrite ?Hi, ?Hx.
      * lia.
      * rewrite Hr, length_insert. done.
      * rewrite Hws, length_insert. done.
      * intros w' c' [[_ ?] | [Hne Hw']]%Hlook; [done|].
        destruct (Haw w' c' Hw') as [Hc' Hn']. split; [lia|].
        rewrite Hother; [done|]. intros ->. apply Hne. by eapply Hinj.
      * intros w1 w2 c' [[_ ?] | [Hne1 Hw1]]%Hlook
          [[_ ?] | [Hne2 Hw2]]%Hlook; try done.
        by eapply Hinj.
      * intros i Hle Hilt. lia.
      * intros _ _. lia.
      * intros Hf w' wk Hw'. rewrite Hp in Hf.
        destruct (promise p) eqn:Hpp;
          [| by specialize (Hful eq_refl w _ Hw) | done].
        destruct (forallb isReturned (workers p')) eqn:Hall; [| done].
        by eapply forallb_isReturned.
      * intros c' Hc'. destruct (decide (c' = c)) as [->|Hnec].
        { right. left. eauto. }
        destruct (Hst c' ltac:(lia)) as [[w' Hw'] | [[r' Hr'] | (w' & e & Hw')]].
        -- left. exists w'. rewrite Hws, list_lookup_insert_ne; [done|].
           intros <-. congruence.
        -- right. left. exists r'. by rewrite Hother.
        -- right. right. exists w', e.
           rewrite Hws, list_lookup_insert_ne; [done|]. intros <-. congruence.
  - destruct Ho as (Hr & Hx & Hws & Hp).
    assert (∀ w' wk, workers p' !! w' = Some wk →
              (w' = w ∧ wk = Threw e)
              ∨ (w' ≠ w ∧ workers p !! w' = Some wk)) as Hlook.
    { intros w' wk. rewrite Hws. destruct (decide (w' = w)) as [->|Hne].
      - rewrite list_lookup_insert_eq by done. intros [= <-]. by left.
      - rewrite list_lookup_insert_ne by done. by right. }
    split; rewrite ?Hi, ?Hx, ?Hr.
    + done.
    + done.
    + rewrite Hws, length_insert. done.
    + intros w' c' [[_ ?] | [_ Hw']]%Hlook; [done | by eapply Haw].
    + intros w1 w2 c' [[_ ?] | [_ Hw1]]%Hlook [[_ ?] | [_ Hw2]]%Hlook;
        try done. by eapply Hinj.
    + done.
    + intros w' [[_ ?] | [_ Hw']]%Hlook; [done | by eapply Hret].
    + intros Hf. rewrite Hp in Hf. destruct (promise p) eqn:Hpp; try done.
      specialize (Hful eq_refl w _ Hw). done.
    + intros c' Hc'. right. right. exists w, e.
      rewrite Hws. by apply list_lookup_insert_eq.
Qed.

Lemma run_items (events : list (nat * (R + E))) (p : State) :
  items (run events p) = items p.
Proof.
  revert p. induction events as [|[w o] events IH]; intros p; [done|].
  unfold run in *. cbn [foldl fst snd]. rewrite IH.
  destruct (settle w o p) as [p'|] eqn:Hs; simpl; [| done].
  by apply settle_Some in Hs as (c & _ & -> & _).
Qed.

Lemma wf_run (limit : nat) (events : list (nat * (R + E))) (p : State) :
  Wf limit p → Wf limit (run events p).
Proof.
  revert p. induction events as [|[w o] events IH]; intros p Hwf; [done|].
  cbn [run foldl]. apply IH. cbn [fst snd].
  destruct (settle w o p) as [p'|] eqn:Hs; [by eapply wf_settle | done].
Qed.

(** A fulfilled pool with [limit >= 1] has started and finished every
    item. *)
Lemma fulfilled_complete (limit : nat) (p : State) :
  Wf limit p → 1 ≤ limit → promise p = Fulfilled →
  idx p = length (items p)
  ∧ ∀ c, c < length (items p) → ∃ r, results p !! c = Some (Some r).
Proof.
  intros [Hidx Hres Hwk Haw Hinj Hfresh Hret Hful Hst] Hlim Hf.
  assert (idx p = length (items p)) as Hall.
  { destruct (decide (length (items p) = 0)) as [Hz|Hnz]; [lia|].
    destruct (workers p) as [|wk ws] eqn:Hws; [simpl in Hwk; lia|].
    assert (wk = Returned) as -> by by apply (Hful Hf 0).
    specialize (Hret 0 eq_refl). lia. }
  split; [done|]. intros c Hc.
  destruct (Hst c ltac:(lia)) as [[w Hw] | [Hr | (w & e & Hw)]]; [| done |].
  - by specialize (Hful Hf w _ Hw).
  - by specialize (Hful Hf w _ Hw).
Qed.




End Facts.

End PoolFacts.

(** ** The pool: what the promise tells of the workers *)

Module PoolLive.
Import Pool Invariants PoolFacts.

Section Facts.

Context {I R E : Type}.

Implicit Types p : Pool.State I R E.

Lemma elem_of_inFlight p (c : nat) :
  c ∈ inFlight p ↔ ∃ w, workers p !! w = Some (Awaiting c).
Proof.
  unfold inFlight. rewrite list_elem_of_omap. split.
  - intros (wk & [w Hw]%list_elem_of_lookup_1 & Hc).
    destruct wk; try done. injection Hc as ->. eauto.
  - intros (w & Hw). exists (Awaiting c). split; [| done].
    by eapply list_elem_of_lookup_2.
Qed.

Lemma inFlight_nil p :
  inFlight p = [] ↔ ∀ w c, workers p !! w ≠ Some (Awaiting c).
Proof.
  split.
  - intros Hnil w c Hw.
    assert (c ∈ inFlight p) as Hin by (apply elem_of_inFlight; eauto).
    rewrite Hnil in Hin. by apply elem_of_nil in Hin.
  - intros Hnone. destruct (inFlight p) as [|c l] eqn:Hl; [done|].
    assert (c ∈ inFlight p) as [w Hw]%elem_of_inFlight
      by (rewrite Hl; left).
    by destruct (Hnone w c).
Qed.

Lemma live_mapLimit (its : list I) (limit : nat) :
  Live (mapLimit its limit : Pool.State I R E).
Proof.
  rewrite mapLimit_eq. cbv zeta.
  destruct (Nat.min limit (length its)) as [|m] eqn:Hm.
  - split; cbn [promise workers]; done.
  - split; cbn [promise workers]; try done.
    intros w e Hw.
    change (map Awaiting (seq 0 (S m)))
      with (Awaiting (E:=E) <$> seq 0 (S m)) in Hw.
    rewrite list_lookup_fmap in Hw.
    destruct (seq 0 (S m) !! w); simpl in Hw; congruence.
Qed.

Lemma live_settle (limit w : nat) (o : R + E) p p' :
  Wf limit p → Live p → settle w o p = Some p' → Live p'.
Proof.
  intros Hwf [Hpend Hthrew Hrej] Hs.
  apply settle_Some in Hs as (c & Hw & Hitems & Hcase).
  assert (w < length (workers p)) as Hlt by (by eapply lookup_lt_Some).
  destruct o as [r|e].
  - destruct Hcase as (Hres & Hnext & Hprom).
    assert (∃ wk, workers p' = <[w := wk]> (workers p)
                  ∧ ∀ e, wk ≠ Threw e) as (wk & Hws & Hwk).
    { destruct Hnext as [(_ & _ & ->) | (_ & _ & ->)]; eauto. }
    split.
    + intros Hp. rewrite Hprom in Hp.
      destruct (promise p) eqn:Hpp; try done.
      destruct (forallb isReturned (workers p')) eqn:Hall; [done|].
      intros Hnone. rewrite inFlight_nil in Hnone.
      assert (forallb isReturned (workers p') = true) as Hall'; [| congruence].
      apply forallb_isReturned. intros w' wk' Hw'.
      destruct wk' as [c'| |e']; [by destruct (Hnone w' c') | done |].
      rewrite Hws in Hw'.
      destruct (decide (w' = w)) as [->|Hne].
      * rewrite list_lookup_insert_eq in Hw' by done.
        injection Hw' as ->. by destruct (Hwk e').
      * rewrite list_lookup_insert_ne in Hw' by done.
        destruct (Hthrew w' e' Hw') as [e'' He'']. congruence.
    + intros w' e' Hw'. rewrite Hws in Hw'.
      destruct (decide (w' = w)) as [->|Hne].
      * rewrite list_lookup_insert_eq in Hw' by done.
        injection Hw' as ->. by destruct (Hwk e').
      * rewrite list_lookup_insert_ne in Hw' by done.
        destruct (Hthrew w' e' Hw') as [e'' He'']. exists e''.
        rewrite Hprom, He''. done.
    + intros e' Hp. rewrite Hprom in Hp.
      destruct (promise p) eqn:Hpp;
        [by destruct (forallb isReturned (workers p')) | done |].
      destruct (Hrej e' Hp) as [w' Hw']. exists w'. rewrite Hws.
      rewrite list_lookup_insert_ne; [done|]. intros ->. congruence.
  - destruct Hcase as (Hres & Hidx & Hws & Hprom).
    split.
    + intros Hp. rewrite Hprom in Hp. by destruct (promise p).
    + intros w' e' Hw'. rewrite Hprom.
      destruct (promise p) eqn:Hpp; eauto.
      rewrite Hws in Hw'.
      destruct (decide (w' = w)) as [->|Hne].
      * specialize (wf_fulfilled _ _ Hwf Hpp w _ Hw). done.
      * rewrite list_lookup_insert_ne in Hw' by done.
        destruct (Hthrew w' e' Hw') as [e'' He'']. congruence.
    + intros e' Hp. rewrite Hprom in Hp.
      destruct (promise p) eqn:Hpp.
      * injection Hp as ->. exists w. rewrite Hws.
        by apply list_lookup_insert_eq.
      * done.
      * destruct (Hrej e' Hp) as [w' Hw']. exists w'. rewrite Hws.
        rewrite list_lookup_insert_ne; [done|]. intros ->. congruence.
Qed.

Lemma live_run (limit : nat) (events : list (nat * (R + E))) p :
  Wf limit p → Live p → Live (run events p).
Proof.
  revert p. induction events as [|[w o] events IH]; intros p Hwf Hlive;
    [done|].
  cbn [run foldl fst snd].
  destruct (settle w o p) as [p'|] eqn:Hs; simpl.
  - apply IH; [by eapply wf_settle | by eapply live_settle].
  - by apply IH.
Qed.


End Facts.

End PoolLive.

(** ** The crawler *)

Module CrawlerFacts.
Import Normalizer Crawler Invariants.

(** *** What each operation changes *)

Lemma enqueue_cases (st : State) (id : NodeId) :
  (enqueue st id = st
   ∧ (id = "" ∨ is_Some (nodeMap st !! Some id) ∨ id ∈ queued st))
  ∨ (id ≠ "" ∧ nodeMap st !! Some id = None ∧ (id ∉ queued st)
     ∧ enqueue st id
       = mkState (nodeMap st) (toExpand st ++ [id]) ({[id]} ∪ queued st)
           (fetchedCount st) (requestCount st) (round st) (status st)
           (enqueued st ++ [id]) (dispatched st) (answered st)).
Proof.
  unfold enqueue. destruct (String.eqb_spec id "") as [->|Hne]; [left; auto|].
  case_bool_decide as Hmap; [left; auto|].
  case_bool_decide as Hq; [left; auto|].
  right. repeat split; try done.
  by apply eq_None_not_Some.
Qed.

(** The effect of [for (const childId of norm.childIds) enqueue(childId)]:
    the identifiers [new] are appended to the queue, each once. *)
Lemma enqueue_all (ids : list NodeId) (st : State) :
  ∃ new,
    foldl enqueue st ids
    = mkState (nodeMap st) (toExpand st ++ new) (list_to_set new ∪ queued st)
        (fetchedCount st) (requestCount st) (round st) (status st)
        (enqueued st ++ new) (dispatched st) (answered st)
    ∧ NoDup new
    ∧ (∀ id, id ∈ new → id ∈ ids ∧ id ≠ "" ∧ id ∉ queued st)
    ∧ (∀ id, id ∈ ids →
         id = "" ∨ is_Some (nodeMap st !! Some id)
         ∨ id ∈ ((list_to_set new : gset NodeId) ∪ queued st)).
Proof.
  revert st. induction ids as [|id ids IH]; intros st.
  - exists []. cbn [foldl]. rewrite !app_nil_r, list_to_set_nil, (left_id_L ∅ (∪)).
    split; [by destruct st|]. split; [constructor|].
    split; intros id Hin; by apply elem_of_nil in Hin.
  - cbn [foldl].
    destruct (enqueue_cases st id) as [[-> Hold] | (Hne & Hmap & Hq & ->)];
      match goal with |- context [foldl enqueue ?s ids] =>
        destruct (IH s) as (new & -> & Hnd & Hnew & Hall)
      end;
      cbn [nodeMap toExpand queued fetchedCount requestCount round status
           enqueued dispatched answered] in *.
    + exists new. split; [done|]. split; [done|]. split.
      * intros x Hx. destruct (Hnew x Hx) as (? & ? & ?).
        split; [by right | done].
      * intros x [->|Hx]%elem_of_cons; [| by apply Hall].
        destruct Hold as [?|[?|?]]; [by left | by right; left |].
        right. right. set_solver.
    + exists (id :: new). rewrite <- !app_assoc. cbn [app list_to_set].
      split; [f_equal; set_solver|]. split.
      { constructor; [| done]. intros Hin. apply Hnew in Hin. set_solver. }
      split.
      * intros x [->|Hx]%elem_of_cons; [split; [by left | done]|].
        destruct (Hnew x Hx) as (? & ? & ?). split; [by right|].
        split; [done | set_solver].
      * intros x [->|Hx]%elem_of_cons; [right; right; set_solver|].
        destruct (Hall x Hx) as [?|[?|?]]; [by left | by right; left |].
        right. right. set_solver.
Qed.

Lemma startUnits_eq (l : list (list NodeId)) (st : State) :
  foldl startUnit st l
  = mkState (nodeMap st) (toExpand st) (queued st) (fetchedCount st)
      (length l + requestCount st) (round st) (status st) (enqueued st)
      (dispatched st ++ l) (answered st).
Proof.
  revert st. induction l as [|b l IH]; intros st; cbn [foldl].
  - rewrite app_nil_r. by destruct st.
  - rewrite IH. unfold startUnit.
    cbn [nodeMap toExpand queued fetchedCount requestCount round status
         enqueued dispatched answered length].
    rewrite <- app_assoc. f_equal. lia.
Qed.

Lemma fillBatch_app (batchSize : nat) (queue : list NodeId) :
  (fillBatch batchSize queue).1 ++ (fillBatch batchSize queue).2 = queue.
Proof.
  revert queue. induction batchSize as [|room IH]; intros [|id queue];
    cbn [fillBatch]; try done.
  specialize (IH queue). destruct (fillBatch room queue) as [b rest].
  cbn [fst snd app] in *. by rewrite IH.
Qed.

Lemma moreBatches_app (fuel batchSize concurrency : nat)
    (batches : list (list NodeId)) (queue : list NodeId) :
  concat (moreBatches fuel batchSize concurrency batches queue).1
    ++ (moreBatches fuel batchSize concurrency batches queue).2
  = concat batches ++ queue.
Proof.
  revert batches queue. induction fuel as [|fuel IH]; intros batches queue;
    cbn [moreBatches]; [done|].
  destruct (negb (length queue =? 0) && (length batches <? concurrency)%nat);
    [| done].
  pose proof (fillBatch_app batchSize queue) as Hfill.
  destruct (fillBatch batchSize queue) as [b rest]. cbn [fst snd] in Hfill.
  rewrite IH. destruct b as [|id b]; cbn [length Nat.eqb negb].
  - by rewrite <- Hfill.
  - rewrite concat_app. cbn [concat]. rewrite app_nil_r, <- app_assoc.
    by rewrite Hfill.
Qed.

Lemma formBatches_app (batchSize concurrency : nat) (queue : list NodeId) :
  concat (formBatches batchSize concurrency queue).1
    ++ (formBatches batchSize concurrency queue).2
  = queue.
Proof.
  unfold formBatches. pose proof (fillBatch_app batchSize queue) as Hfill.
  destruct (fillBatch batchSize queue) as [batch rest]. cbn [fst snd] in Hfill.
  rewrite moreBatches_app. cbn [concat]. by rewrite app_nil_r.
Qed.

(** A batch is the first [batchSize] identifiers of the queue. *)
Lemma fillBatch_eq (batchSize : nat) (queue : list NodeId) :
  fillBatch batchSize queue = (take batchSize queue, drop batchSize queue).
Proof.
  revert queue. induction batchSize as [|room IH]; intros [|id queue];
    cbn [fillBatch take drop]; try done.
  by rewrite IH.
Qed.

(** With [batchSize >= 1] the inner loop of the source ends by its own test,
    within the passes [moreBatches] is given: the queue is empty or
    [concurrency] batches are formed. *)
Lemma moreBatches_exit (fuel batchSize concurrency : nat)
    (batches : list (list NodeId)) (queue : list NodeId) :
  1 ≤ batchSize → length queue ≤ fuel →
  (moreBatches fuel batchSize concurrency batches queue).2 = []
  ∨ concurrency ≤ length (moreBatches fuel batchSize concurrency batches queue).1.
Proof.
  intros Hb. revert batches queue.
  induction fuel as [|fuel IH]; intros batches queue Hfuel; cbn [moreBatches].
  - left. destruct queue; [done | simpl in Hfuel; lia].
  - destruct (negb (length queue =? 0)) eqn:Hq; cbn [andb].
    + destruct (length batches <? concurrency)%nat eqn:Hc.
      * rewrite fillBatch_eq. apply IH. rewrite length_drop.
        apply negb_true_iff, Nat.eqb_neq in Hq. lia.
      * right. apply Nat.ltb_ge in Hc. done.
    + left. apply negb_false_iff, Nat.eqb_eq in Hq. by destruct queue.
Qed.

Lemma moreBatches_length (fuel batchSize concurrency : nat)
    (batches : list (list NodeId)) (queue : list NodeId) :
  length batches ≤ concurrency →
  length (moreBatches fuel batchSize concurrency batches queue).1
  ≤ concurrency.
Proof.
  revert batches queue.
  induction fuel as [|fuel IH]; intros batches queue Hlen; cbn [moreBatches];
    [done|].
  destruct (negb (length queue =? 0)); cbn [andb]; [| done].
  destruct (length batches <? concurrency)%nat eqn:Hc; [| done].
  apply Nat.ltb_lt in Hc. destruct (fillBatch batchSize queue) as [b rest].
  apply IH. destruct (negb (length b =? 0)); [| done].
  rewrite length_app. simpl. lia.
Qed.

(** One pass of the outer loop with [batchSize >= 1], [concurrency >= 1] and
    a non-empty queue: at most [concurrency] batches are formed, every one of
    them is started at once by a worker of its own, and the pool is
    pending. *)
Lemma dispatch_starts_all (batchSize concurrency : nat) (st : State) :
  1 ≤ batchSize → 1 ≤ concurrency → toExpand st ≠ [] →
  let pool := round (dispatch batchSize concurrency st) in
  1 ≤ length (Pool.items pool) ≤ concurrency
  ∧ Pool.idx pool = length (Pool.items pool)
  ∧ Pool.promise pool = Pool.Pending
  ∧ (toExpand (dispatch batchSize concurrency st) = []
     ∨ length (Pool.items pool) = concurrency).
Proof.
  intros Hb Hc Hq. unfold dispatch, formBatches.
  rewrite fillBatch_eq.
  pose proof (moreBatches_length (length (drop batchSize (toExpand st)))
                batchSize concurrency [take batchSize (toExpand st)]
                (drop batchSize (toExpand st)) ltac:(simpl; lia)) as Hlen.
  pose proof (moreBatches_exit (length (drop batchSize (toExpand st)))
                batchSize concurrency [take batchSize (toExpand st)]
                (drop batchSize (toExpand st)) Hb ltac:(lia)) as Hexit.
  assert (1 ≤ length (moreBatches (length (drop batchSize (toExpand st)))
                        batchSize concurrency [take batchSize (toExpand st)]
                        (drop batchSize (toExpand st))).1) as Hone.
  { generalize (length (drop batchSize (toExpand st))) at 1.
    generalize (drop batchSize (toExpand st)).
    assert (1 ≤ length [take batchSize (toExpand st)]) as H1 by (simpl; lia).
    revert H1. generalize [take batchSize (toExpand st)].
    intros batches H1 queue fuel. revert batches queue H1.
    induction fuel as [|fuel IH]; intros batches queue H1; cbn [moreBatches];
      [done|].
    destruct (negb (length queue =? 0) && (length batches <? concurrency)%nat);
      [| done].
    destruct (fillBatch batchSize queue) as [b rest]. apply IH.
    destruct (negb (length b =? 0)); [| done]. rewrite length_app. lia. }
  destruct (moreBatches _ _ _ _ _) as [batches rest]. cbn [fst snd] in *.
  rewrite startUnits_eq. cbv zeta.
  cbn [round toExpand]. rewrite PoolFacts.mapLimit_eq. cbv zeta.
  cbn [Pool.items Pool.idx Pool.promise].
  assert (Nat.min concurrency (length batches) = length batches) as ->
    by lia.
  split; [lia|]. split; [done|].
  split; [destruct batches; [simpl in Hone; lia | done]|].
  destruct Hexit as [?|?]; [by left | right; lia].
Qed.

(** So with [batchSize >= 1] and [concurrency >= 1] the outer loop suspends
    in its first pass, whatever [fuel] it is given. *)
Lemma loop_suspends (batchSize concurrency fuel : nat) (st : State) :
  1 ≤ batchSize → 1 ≤ concurrency → toExpand st ≠ [] →
  loop batchSize concurrency fuel st = dispatch batchSize concurrency st.
Proof.
  intros Hb Hc Hq.
  destruct (dispatch_starts_all batchSize concurrency st Hb Hc Hq)
    as (_ & _ & Hp & _).
  destruct fuel; cbn [loop]; (destruct (toExpand st); [done|]);
    by rewrite Hp.
Qed.

Lemma childIds_elem (doc : obj) (c : NodeId) :
  c ∈ childIds (normalizeNode doc) ↔
  c ≠ "" ∧ ∃ stub, stub ∈ childrenOf doc ∧ isVisibleNode stub = true
                   ∧ asId (member stub "id") = Some c.
Proof.
  cbn [normalizeNode childIds]. unfold visibleChildIds.
  rewrite list_elem_of_omap. split.
  - intros (v & Hv & ->). apply list_elem_of_filter in Hv as [Ht Hv].
    apply NormalizerFacts.truthyId_Some in Ht as (s & [= <-] & Hne).
    split; [done|].
    apply (list_elem_of_fmap_1 (λ c, asId (member c "id"))) in Hv
      as (stub & Hid & Hstub).
    apply list_elem_of_filter in Hstub as [Hvis Hin]. eauto.
  - intros (Hne & stub & Hin & Hvis & Hid). exists (Some c). split; [| done].
    apply list_elem_of_filter. split.
    + apply NormalizerFacts.truthyId_Some. eauto.
    + rewrite <- Hid.
      apply (list_elem_of_fmap_2 (λ c, asId (member c "id"))).
      by apply list_elem_of_filter.
Qed.

Section Preservation.

Variables (rootId : NodeId) (batchSize concurrency : nat).
Hypothesis concurrency_pos : 1 ≤ concurrency.

Abbreviation Inv' := (Inv rootId concurrency).

Lemma reachable_mono (answers answers' : list (NodeId * option obj))
    (id : NodeId) :
  (∀ x, x ∈ answers → x ∈ answers') →
  reachable rootId answers id → reachable rootId answers' id.
Proof.
  intros Hsub. induction 1 as [|parent doc stub id _ IH Ha Hvis Hin Hsv Hid].
  - constructor.
  - eapply reach_child; [exact IH | by apply Hsub | done..].
Qed.

(** A response without a document for [id], or with an invisible one. *)
Lemma inv_record (st : State) (id : NodeId) (d : option obj) :
  Inv' st → id ∈ concat (dispatched st) →
  (∀ doc, d = Some doc → isVisibleNode (JObj doc) = false) →
  Inv' (record id d st).
Proof.
  intros [] Hid Hd. unfold record.
  split; cbn [nodeMap toExpand queued fetchedCount requestCount round status
              enqueued dispatched answered]; try done.
  - intros k n Hk. destruct (inv_stored0 k n Hk) as (id' & doc & Ha & H).
    exists id', doc. split; [| done]. apply elem_of_app. by left.
  - intros x Hx. eapply reachable_mono; [| by apply inv_origin0].
    intros y Hy. apply elem_of_app. by left.
  - intros id' d' [Hin | Hin%list_elem_of_singleton]%elem_of_app;
      [by eapply inv_answered0 | congruence].
  - intros id' doc [Hin | Hin%list_elem_of_singleton]%elem_of_app Hvis;
      [by eapply inv_visible_stored0|].
    injection Hin as ? ?; subst. by rewrite (Hd doc eq_refl) in Hvis.
  - intros x Hx. destruct (inv_dispatched0 x Hx) as [[d' Hd'] | H];
      [| by right]. left. exists d'. apply elem_of_app. by left.
  - intros c b r Hr Hb x Hx.
    destruct (inv_results0 c b r Hr Hb x Hx) as [d' Hd'].
    exists d'. apply elem_of_app. by left.
Qed.

(** A visible document for [id]: it is normalized and stored, and its
    children are enqueued. *)
Lemma inv_expand (st : State) (id : NodeId) (doc : obj) :
  Inv' st → id ∈ concat (dispatched st) → status st ≠ Done →
  isVisibleNode (JObj doc) = true →
  Inv' (foldl enqueue (store (normalizeNode doc) (record id (Some doc) st))
          (childIds (normalizeNode doc))).
Proof.
  intros [] Hid Hstatus Hvis.
  destruct (enqueue_all (childIds (normalizeNode doc))
              (store (normalizeNode doc) (record id (Some doc) st)))
    as (new & -> & Hnd & Hnew & Hall).
  unfold store, record in *.
  cbn [nodeMap toExpand queued fetchedCount requestCount round status
       enqueued dispatched answered] in *.
  assert (∀ x, x ∈ new → x ∉ enqueued st) as Hfresh.
  { intros x Hx Hin. apply inv_queued0 in Hin. by apply Hnew in Hx as (_ & _ & ?). }
  assert (∀ x, x ∈ answered st → x ∈ answered st ++ [(id, Some doc)]) as Hmono.
  { intros x Hx. apply elem_of_app. by left. }
  assert (∀ k, is_Some (nodeMap st !! k) →
               is_Some (<[n_id (normalizeNode doc) := normalizeNode doc]>
                          (nodeMap st) !! k)) as Hkeep.
  { intros k Hk. rewrite lookup_insert. by case_decide. }
  split; cbn [nodeMap toExpand queued fetchedCount requestCount round status
              enqueued dispatched answered frontier]; try done.
  - apply NoDup_app. split; [done|]. split; [| done].
    intros x Hx Hx'. by apply (Hfresh x).
  - intros x [Hx|Hx]%elem_of_app; [by apply inv_nonempty0|].
    by apply Hnew in Hx as (_ & ? & _).
  - intros x. rewrite elem_of_union, elem_of_list_to_set, elem_of_app,
      inv_queued0. tauto.
  - unfold frontier. cbn [toExpand round dispatched]. rewrite !app_assoc.
    apply NoDup_app. split; [by rewrite <- app_assoc|]. split; [| done].
    intros x Hx Hx'. rewrite <- app_assoc in Hx.
    apply inv_frontier0, inv_queued0 in Hx. by apply (Hfresh x).
  - intros x. unfold frontier. cbn [toExpand round dispatched queued].
    rewrite !app_assoc, elem_of_app, <- app_assoc.
    fold (frontier st). rewrite inv_frontier0, elem_of_union,
      elem_of_list_to_set. tauto.
  - intros k n. rewrite lookup_insert. case_decide as Hk.
    + by intros [= <-].
    + apply inv_key0.
  - intros k n. rewrite lookup_insert. case_decide as Hk.
    + intros [= <-]. exists id, doc. split; [| done].
      apply elem_of_app. right. by apply list_elem_of_singleton.
    + intros Hn. destruct (inv_stored0 k n Hn) as (id' & doc' & Ha & H).
      exists id', doc'. split; [by apply Hmono | done].
  - intros x [Hx|Hx]%elem_of_app.
    + eapply reachable_mono; [exact Hmono | by apply inv_origin0].
    + apply Hnew in Hx as (Hx & _ & _).
      apply childIds_elem in Hx as (_ & stub & Hin & Hsv & Hsid).
      apply (reach_child _ _ id doc stub); try done.
      * eapply reachable_mono; [exact Hmono|].
        apply inv_origin0, inv_queued0, inv_frontier0.
        unfold frontier. apply elem_of_app. by left.
      * apply elem_of_app. right. by apply list_elem_of_singleton.
  - intros id' d' [Hin | Hin%list_elem_of_singleton]%elem_of_app;
      [by eapply inv_answered0 | congruence].
  - intros k n c. rewrite lookup_insert. case_decide as Hk.
    + intros [= <-] Hc. destruct (Hall c Hc) as [->|[?|?]]; [| by right | by left].
      by apply childIds_elem in Hc as [? _].
    + intros Hn Hc. destruct (inv_children0 k n c Hn Hc) as [?|?].
      * left. apply elem_of_union. by right.
      * right. by apply Hkeep.
  - intros id' doc' [Hin | Hin%list_elem_of_singleton]%elem_of_app Hvis'.
    + apply Hkeep. by eapply inv_visible_stored0.
    + injection Hin as ? ?; subst. by rewrite lookup_insert_eq.
  - intros x Hx. destruct (inv_dispatched0 x Hx) as [[d' Hd'] | H];
      [| by right]. left. exists d'. by apply Hmono.
  - intros c b r Hr Hb x Hx.
    destruct (inv_results0 c b r Hr Hb x Hx) as [d' Hd'].
    exists d'. by apply Hmono.
Qed.

Lemma visit_fields (nodes : obj) (st : State) (id : NodeId) :
  round (visit nodes st id) = round st
  ∧ status (visit nodes st id) = status st
  ∧ dispatched (visit nodes st id) = dispatched st
  ∧ answered (visit nodes st id) = answered st ++ [(id, documentOf nodes id)].
Proof.
  unfold visit. destruct (documentOf nodes id) as [doc|]; [| done].
  destruct (isVisibleNode (JObj doc)); [| done].
  by destruct (enqueue_all (childIds (normalizeNode doc))
                 (store (normalizeNode doc) (record id (Some doc) st)))
    as (new & -> & _).
Qed.

Lemma inv_visit (nodes : obj) (st : State) (id : NodeId) :
  Inv' st → id ∈ concat (dispatched st) → status st ≠ Done →
  Inv' (visit nodes st id).
Proof.
  intros Hinv Hid Hstatus. unfold visit.
  destruct (documentOf nodes id) as [doc|]; [| by apply inv_record].
  destruct (isVisibleNode (JObj doc)) eqn:Hvis.
  - by apply inv_expand.
  - apply inv_record; [done | done |]. by intros ? [= <-].
Qed.

Lemma inv_processBatch (ids : list NodeId) (data : json) (st : State) :
  Inv' st → (∀ id, id ∈ ids → id ∈ concat (dispatched st)) →
  status st ≠ Done →
  Inv' (processBatch ids data st)
  ∧ round (processBatch ids data st) = round st
  ∧ status (processBatch ids data st) = status st
  ∧ dispatched (processBatch ids data st) = dispatched st
  ∧ (∀ x, x ∈ answered st → x ∈ answered (processBatch ids data st))
  ∧ (∀ id, id ∈ ids → ∃ d, (id, d) ∈ answered (processBatch ids data st)).
Proof.
  unfold processBatch. revert st.
  induction ids as [|id ids IH]; intros st Hinv Hids Hstatus; cbn [foldl].
  - do 5 (split; [done|]). intros id Hin. by apply elem_of_nil in Hin.
  - destruct (visit_fields (nodesOf data) st id) as (Hr & Hs & Hd & Ha).
    destruct (IH (visit (nodesOf data) st id)) as (Hinv' & Hr' & Hs' & Hd' & Hmono & Hans).
    + apply inv_visit; [done | | done]. apply Hids. by left.
    + intros x Hx. rewrite Hd. apply Hids. by right.
    + by rewrite Hs.
    + split; [done|]. split; [congruence|]. split; [congruence|].
      split; [congruence|]. split.
      * intros x Hx. apply Hmono. rewrite Ha. apply elem_of_app. by left.
      * intros x [->|Hx]%elem_of_cons; [| by apply Hans].
        exists (documentOf (nodesOf data) id). apply Hmono. rewrite Ha.
        apply elem_of_app. right. by apply list_elem_of_singleton.
Qed.

Lemma mapLimit_empty_eq (limit : nat) :
  (Pool.mapLimit [] limit : Pool.State (list NodeId) unit Fetcher.FetchError)
  = Pool.mapLimit [] 0.
Proof. rewrite !PoolFacts.mapLimit_eq. cbn. by rewrite Nat.min_0_r. Qed.

Lemma elem_of_concat {A} (ls : list (list A)) (x : A) :
  x ∈ concat ls ↔ ∃ l, l ∈ ls ∧ x ∈ l.
Proof.
  induction ls as [|l ls IH]; cbn [concat].
  - split; [intros H; by apply elem_of_nil in H|].
    intros (l & H & _). by apply elem_of_nil in H.
  - rewrite elem_of_app, IH. split.
    + intros [Hx | (l' & Hl' & Hx)]; [exists l; split; [left | done]|].
      exists l'. split; [by right | done].
    + intros (l' & [->|Hl']%elem_of_cons & Hx); [by left|]. right. eauto.
Qed.

Lemma elem_of_concat_take {A} (l : list (list A)) (n : nat) (x : A) :
  x ∈ concat (take n l) → ∃ c b, c < n ∧ l !! c = Some b ∧ x ∈ b.
Proof.
  intros (b & Hb & Hx)%elem_of_concat.
  apply list_elem_of_lookup_1 in Hb as [c Hc].
  apply lookup_take_Some in Hc as [Hc Hlt]. eauto.
Qed.

Lemma inv_dispatch (st : State) :
  Inv' st → status st = Running →
  Pool.promise (round st) = Pool.Fulfilled →
  Inv' (dispatch batchSize concurrency st)
  ∧ status (dispatch batchSize concurrency st) = Running.
Proof.
  intros [] Hrun Hful. unfold dispatch.
  pose proof (formBatches_app batchSize concurrency (toExpand st)) as Hform.
  destruct (formBatches batchSize concurrency (toExpand st)) as [batches rest].
  cbn [fst snd] in Hform. rewrite startUnits_eq.
  cbn [nodeMap toExpand queued fetchedCount requestCount round status
       enqueued dispatched answered].
  split; [| done].
  destruct (PoolFacts.fulfilled_complete _ _ inv_pool0 concurrency_pos Hful)
    as [Hidx Hcomplete].
  set (pool := Pool.mapLimit batches concurrency
               : Pool.State (list NodeId) unit Fetcher.FetchError).
  assert (Pool.items pool = batches) as Hitems
    by (subst pool; by rewrite PoolFacts.mapLimit_eq).
  assert (Pool.startedItems pool ++ Pool.pendingItems pool = batches) as Hsplit.
  { unfold Pool.startedItems, Pool.pendingItems. by rewrite take_drop. }
  assert (frontier st = concat (dispatched st) ++ toExpand st) as Hfst.
  { unfold frontier, Pool.pendingItems. rewrite Hidx, drop_all. done. }
  assert (∀ q ms fc rc s, frontier (mkState ms rest q fc rc pool s (enqueued st)
                      (dispatched st ++ Pool.startedItems pool) (answered st))
          = frontier st) as Hfr.
  { intros. unfold frontier at 1.
    cbn [nodeMap toExpand queued fetchedCount requestCount round status
         enqueued dispatched answered].
    rewrite Hfst, concat_app, <- !app_assoc. f_equal.
    rewrite !app_assoc, <- concat_app, Hsplit. done. }
  split; cbn [nodeMap toExpand queued fetchedCount requestCount round status
              enqueued dispatched answered]; try done.
  - by rewrite Hfr.
  - intros id. by rewrite Hfr.
  - intros b Hb. apply elem_of_app. by right.
  - apply PoolFacts.wf_mapLimit.
  - intros id d Hin. rewrite concat_app, elem_of_app. left.
    by eapply inv_answered0.
  - intros id. rewrite concat_app, elem_of_app. intros [Hin|Hin].
    + destruct (inv_dispatched0 id Hin) as [?|(c & b & Hc & Hb & Hx)];
        [by left|]. left.
      destruct (Hcomplete c) as [r Hr]; [by eapply lookup_lt_Some|].
      by eapply inv_results0.
    + right. unfold Pool.startedItems in Hin.
      by apply elem_of_concat_take in Hin.
  - intros c b r Hr. subst pool. rewrite PoolFacts.mapLimit_eq in Hr.
    cbn [Pool.results] in Hr. apply lookup_replicate in Hr as [? _]. done.
  - by rewrite Hrun.
Qed.

Lemma inv_setStatus (s : Status) (st : State) :
  Inv' st →
  (s = Done → toExpand st = [] ∧ Pool.promise (round st) = Pool.Fulfilled) →
  Inv' (setStatus s st).
Proof. intros [] Hs. by split. Qed.

Lemma inv_loop (fuel : nat) (st : State) :
  Inv' st → status st = Running →
  Pool.promise (round st) = Pool.Fulfilled →
  Inv' (loop batchSize concurrency fuel st).
Proof.
  revert st. induction fuel as [|fuel IH]; intros st Hinv Hrun Hful;
    cbn [loop]; (destruct (toExpand st) eqn:Hq; [by apply inv_setStatus|]);
    destruct (inv_dispatch st Hinv Hrun Hful) as [Hinv' Hrun'].
  - by destruct (Pool.promise (round (dispatch batchSize concurrency st))).
  - destruct (Pool.promise (round (dispatch batchSize concurrency st))) eqn:Hp;
      [done | by apply IH | done].
Qed.

Lemma inv_step (st : State) (ev : nat * (json + Fetcher.FetchError)) :
  Inv' st → Inv' (step batchSize concurrency st ev).
Proof.
  intros Hinv. destruct ev as [w outcome]. unfold step.
  destruct (Pool.workers (round st) !! w) as [[current| |e0]|] eqn:Hw; try done.
  pose proof (inv_pool _ _ _ Hinv) as Hwf.
  destruct (wf_await _ _ Hwf w current Hw) as [Hcur _].
  pose proof (wf_idx _ _ Hwf) as Hidx.
  destruct (Pool.items (round st) !! current) as [ids|] eqn:Hids;
    [| apply lookup_ge_None in Hids; lia].
  cbn [default from_option]. unfold id. cbv zeta.
  assert (status st ≠ Done) as Hstatus.
  { intros [_ Hf]%(inv_done _ _ _ Hinv).
    by specialize (wf_fulfilled _ _ Hwf Hf w _ Hw). }
  assert (∀ id, id ∈ ids → id ∈ concat (dispatched st)) as Hdisp.
  { intros id Hid. apply elem_of_concat. exists ids. split; [| done].
    apply (inv_started _ _ _ Hinv). unfold Pool.startedItems.
    apply list_elem_of_lookup_2 with current. by apply lookup_take_Some. }
  set (st1 := match outcome with
              | inl data => processBatch ids data st
              | inr _ => st
              end).
  set (po := match outcome with
             | inl _ => inl ()
             | inr e => inr e
             end : unit + Fetcher.FetchError).
  assert (Inv' st1 ∧ round st1 = round st ∧ status st1 = status st
          ∧ dispatched st1 = dispatched st
          ∧ (∀ x, x ∈ answered st → x ∈ answered st1)
          ∧ (∀ r, po = inl r → ∀ id, id ∈ ids → ∃ d, (id, d) ∈ answered st1))
    as (Hinv1 & Hr1 & Hs1 & Hd1 & Hmono & Hans).
  { subst st1 po. destruct outcome as [data|e].
    - destruct (inv_processBatch ids data st Hinv Hdisp Hstatus)
        as (? & ? & ? & ? & ? & ?). eauto 10.
    - do 5 (split; [done|]). done. }
  clearbody st1 po. rewrite Hr1.
  destruct (Pool.settle w po (round st)) as [pool|] eqn:Hsettle; [| done].
  rewrite startUnits_eq.
  cbn [nodeMap toExpand queued fetchedCount requestCount round status
       enqueued dispatched answered].
  pose proof (PoolFacts.wf_settle _ _ _ _ _ Hwf Hsettle) as Hwf'.
  apply PoolFacts.settle_Some in Hsettle as (c & Hw' & Hitems & Hcase).
  assert (c = current) as -> by congruence.
  set (newly := drop (Pool.idx (round st)) (Pool.startedItems pool)).
  assert (Pool.idx (round st) ≤ Pool.idx pool
          ∧ Pool.startedItems pool = Pool.startedItems (round st) ++ newly
          ∧ Pool.pendingItems (round st) = newly ++ Pool.pendingItems pool
          ∧ (∀ id, id ∈ concat newly →
               ∃ c b, c < Pool.idx pool ∧ Pool.items pool !! c = Some b
                      ∧ id ∈ b))
    as (Hle & Hstarted & Hpending & Hnewly).
  { subst newly. unfold Pool.startedItems, Pool.pendingItems. rewrite Hitems.
    assert (Pool.idx (round st) ≤ Pool.idx pool) as Hle.
    { destruct po; [destruct Hcase as (_ & [(?&?&_)|(?&?&_)] & _); lia
                   | destruct Hcase as (_ & ? & _); lia]. }
    split; [done|]. split; [| split].
    - rewrite <- (take_drop (Pool.idx (round st))
                    (take (Pool.idx pool) (Pool.items (round st)))) at 1.
      by rewrite take_take, Nat.min_l.
    - by rewrite drop_take_drop.
    - intros id (b & Hb & Hid)%elem_of_concat.
      apply list_elem_of_lookup_1 in Hb as [i Hi].
      rewrite lookup_drop in Hi. apply lookup_take_Some in Hi as [Hi Hlt].
      eauto. }
  clearbody newly.
  assert (Inv' (mkState (nodeMap st1) (toExpand st1) (queued st1)
                  (fetchedCount st1) (length newly + requestCount st1) pool
                  (status st1) (enqueued st1) (dispatched st1 ++ newly)
                  (answered st1))) as Hinv2.
  { destruct Hinv1. rewrite Hr1 in *.
    assert (∀ q ms fc rc s en an,
              frontier (mkState ms (toExpand st1) q fc rc pool s en
                          (dispatched st1 ++ newly) an)
              = frontier st1) as Hfr.
    { intros. unfold frontier.
      cbn [nodeMap toExpand queued fetchedCount requestCount round status
           enqueued dispatched answered].
      rewrite Hr1, Hpending, !concat_app, <- !app_assoc. done. }
    split; cbn [nodeMap toExpand queued fetchedCount requestCount round status
                enqueued dispatched answered]; try done.
    - by rewrite Hfr.
    - intros id. by rewrite Hfr.
    - intros b. rewrite Hstarted, !elem_of_app. intros [Hb|Hb]; [| by right].
      left. by apply inv_started0.
    - intros id d Hin. rewrite concat_app, elem_of_app. left.
      by eapply inv_answered0.
    - intros id. rewrite concat_app, elem_of_app. intros [Hin|Hin].
      + destruct (inv_dispatched0 id Hin) as [?|(c & b & Hc & Hb & Hx)];
          [by left|]. right. exists c, b. rewrite Hitems. split; [lia | done].
      + right. by apply Hnewly.
    - intros c b r Hr Hb id Hid. rewrite Hitems in Hb.
      destruct po as [[]|e].
      + destruct Hcase as (Hres & _). rewrite Hres in Hr.
        destruct (decide (c = current)) as [->|Hne].
        * assert (b = ids) as -> by congruence. by eapply Hans.
        * rewrite list_lookup_insert_ne in Hr by done. by eapply inv_results0.
      + destruct Hcase as (Hres & _). rewrite Hres in Hr.
        by eapply inv_results0.
    - intros Hdone. rewrite Hs1 in Hdone. done. }
  cbn [status].
  destruct (status st1) eqn:Hst1; rewrite ?Hst1 in Hinv2; [| done | done].
  destruct (Pool.promise pool) eqn:Hp; [done | |].
  - by apply inv_loop.
  - by apply inv_setStatus.
Qed.

Lemma inv_run (events : list (nat * (json + Fetcher.FetchError)))
    (st : State) :
  Inv' st → Inv' (run batchSize concurrency events st).
Proof.
  revert st. induction events as [|ev events IH]; intros st Hinv; [done|].
  cbn [run foldl]. apply IH. by apply inv_step.
Qed.

Lemma inv_crawlSubtree :
  Inv' (crawlSubtree batchSize concurrency rootId).
Proof.
  unfold crawlSubtree.
  pose (st0 := mkState ∅ [] ∅ 0 0 (Pool.mapLimit [] 0) Running [] [] []).
  fold st0.
  assert (Inv' st0) as Hinv0.
  { split; unfold frontier, st0;
      cbn [nodeMap toExpand queued fetchedCount requestCount round status
           enqueued dispatched answered concat app];
      try done; try (by constructor);
      try (intros ? Hin; by apply elem_of_nil in Hin);
      try (intros ? ? Hin; by apply elem_of_nil in Hin).
    - intros id. rewrite elem_of_nil. set_solver.
    - intros id. rewrite PoolFacts.mapLimit_eq. cbn.
      rewrite elem_of_nil. set_solver.
    - rewrite <- (mapLimit_empty_eq concurrency). apply PoolFacts.wf_mapLimit. }
  assert (Inv' (enqueue st0 rootId) ∧ status (enqueue st0 rootId) = Running
          ∧ round (enqueue st0 rootId) = Pool.mapLimit [] 0)
    as (Hinv1 & Hs1 & Hr1).
  { destruct (enqueue_cases st0 rootId) as [[-> _] | (Hne & _ & _ & ->)];
      [done|]. split; [| done]. destruct Hinv0.
    split; unfold frontier, st0 in *;
      cbn [nodeMap toExpand queued fetchedCount requestCount round status
           enqueued dispatched answered concat app] in *; try done.
    - apply NoDup_singleton.
    - intros id ->%list_elem_of_singleton. done.
    - intros id. rewrite list_elem_of_singleton. set_solver.
    - rewrite PoolFacts.mapLimit_eq. cbn. apply NoDup_singleton.
    - intros id. rewrite PoolFacts.mapLimit_eq. cbn.
      rewrite list_elem_of_singleton. set_solver.
    - intros id ->%list_elem_of_singleton. constructor. }
  apply inv_loop; [done | done |]. by rewrite Hr1.
Qed.

End Preservation.

(** *** The result map only grows *)






End CrawlerFacts.

(** ** The crawler and the pool call it awaits *)

Module CrawlCoupling.
Import Normalizer Crawler Invariants PoolFacts CrawlerFacts PoolLive.












End CrawlCoupling.


Module PoolProperties.
Import Pool Invariants PoolFacts PoolLive CrawlCoupling.




End PoolProperties.

Module CrawlerProperties.
Import Normalizer Crawler Remote Invariants CrawlerFacts.

Abbreviation Event := (nat * (json + Fetcher.FetchError))%type.

Lemma reached_inv (rootId : NodeId) (batchSize concurrency : nat)
    (events : list Event) :
  1 ≤ concurrency →
  Inv rootId concurrency
    (run batchSize concurrency events
       (crawlSubtree batchSize concurrency rootId)).
Proof. intros Hc. by apply inv_run, inv_crawlSubtree. Qed.

Lemma isVisibleNode_true (v : json) :
  isVisibleNode v = true ↔ member v "visible" ≠ Some (JBool false).
Proof.
  unfold isVisibleNode.
  destruct (member v "visible") as [[|[]| | | |]|]; naive_solver.
Qed.

Lemma known_visible (doc : obj) :
  known (normalizeNode doc) !! "visible" = doc !! "visible".
Proof.
  rewrite NormalizerFacts.known_lookup. rewrite decide_True; [done|].
  apply (bool_decide_unpack _). vm_compute. reflexivity.
Qed.

(** The crawl against a file is the crawl under one schedule. *)
Lemma crawlFile_run (batchSize concurrency : nat) (file : gmap NodeId obj)
    (fuel : nat) (st : State) :
  ∃ events, crawlFile batchSize concurrency file fuel st
            = run batchSize concurrency events st.
Proof.
  revert st. induction fuel as [|fuel IH]; intros st; cbn [crawlFile].
  - by exists [].
  - destruct (firstAwaiting (Pool.workers (round st)) 0) as [[w current]|];
      [| by exists []].
    match goal with |- context [step _ _ st ?ev] =>
      destruct (IH (step batchSize concurrency st ev)) as [events ->];
      by exists (ev :: events)
    end.
Qed.

(** C1: in every crawl ([batchSize >= 1], [concurrency >= 1], any root, any
    responses or failures of the fetcher, settling in any order), no
    identifier is pushed on the queue twice, and no identifier occurs twice
    in the [ids] of the [fetchNodes] calls, whether in one batch or in two;
    what is fetched was enqueued, and the [queued] set holds exactly what was
    enqueued. *)
Theorem crawl_fetches_each_id_once (rootId : NodeId)
    (batchSize concurrency : nat) (events : list Event) :
  1 ≤ batchSize → 1 ≤ concurrency →
  let st := run batchSize concurrency events
              (crawlSubtree batchSize concurrency rootId) in
  NoDup (enqueued st)
  ∧ NoDup (concat (dispatched st))
  ∧ (∀ id, id ∈ concat (dispatched st) → id ∈ enqueued st)
  ∧ (∀ id, id ∈ queued st ↔ id ∈ enqueued st).
Proof.
  intros _ Hc st.
  destruct (reached_inv rootId batchSize concurrency events Hc).
  fold st in inv_enq_nodup0, inv_queued0, inv_frontier_nodup0, inv_frontier0.
  split; [done|]. split; [| split; [| done]].
  - unfold frontier in inv_frontier_nodup0.
    by apply NoDup_app in inv_frontier_nodup0 as [? _].
  - intros id Hid. apply inv_queued0, inv_frontier0. unfold frontier.
    apply elem_of_app. by left.
Qed.

(** C2: in every crawl, every stored node was normalized from a fetched
    document whose [visible] is not [false] (so no stored node has
    [visible === false], and a fetched document with [visible === false] is
    never the one stored); [childIds] never carries the identifier of a stub
    whose flag is [false] on account of that stub; and every identifier
    enqueued or dispatched is reachable from the root through visible
    fetched documents and stubs whose flag is not [false]. *)
Theorem crawl_prunes_invisible (rootId : NodeId)
    (batchSize concurrency : nat) (events : list Event) :
  1 ≤ batchSize → 1 ≤ concurrency →
  let st := run batchSize concurrency events
              (crawlSubtree batchSize concurrency rootId) in
  (∀ k n, nodeMap st !! k = Some n →
     known n !! "visible" ≠ Some (JBool false)
     ∧ ∃ id doc, (id, Some doc) ∈ answered st
                 ∧ doc !! "visible" ≠ Some (JBool false)
                 ∧ n = normalizeNode doc)
  ∧ (∀ doc k, doc !! "visible" = Some (JBool false) →
       nodeMap st !! k ≠ Some (normalizeNode doc))
  ∧ (∀ doc c, c ∈ childIds (normalizeNode doc) →
       ∃ stub, stub ∈ childrenOf doc
               ∧ member stub "visible" ≠ Some (JBool false)
               ∧ asId (member stub "id") = Some c)
  ∧ (∀ id, id ∈ enqueued st → reachable rootId (answered st) id)
  ∧ (∀ id, id ∈ concat (dispatched st) →
       reachable rootId (answered st) id)
  ∧ (∀ id d, (id, d) ∈ answered st → id ∈ concat (dispatched st)).
Proof.
  intros _ Hc st.
  destruct (reached_inv rootId batchSize concurrency events Hc).
  fold st in inv_stored0, inv_origin0, inv_queued0, inv_frontier0,
    inv_answered0.
  assert (∀ k n, nodeMap st !! k = Some n →
     known n !! "visible" ≠ Some (JBool false)
     ∧ ∃ id doc, (id, Some doc) ∈ answered st
                 ∧ doc !! "visible" ≠ Some (JBool false)
                 ∧ n = normalizeNode doc) as Hstored.
  { intros k n Hn. destruct (inv_stored0 k n Hn) as (id & doc & Ha & Hvis & ->).
    apply isVisibleNode_true in Hvis. cbn [member] in Hvis.
    split; [by rewrite known_visible | eauto]. }
  split; [exact Hstored|]. split; [| split; [| split; [done | split; [| done]]]].
  - intros doc k Hinv Hk. apply Hstored in Hk as [Hk _].
    by rewrite known_visible in Hk.
  - intros doc c (_ & stub & Hin & Hvis & Hid)%childIds_elem.
    apply isVisibleNode_true in Hvis. eauto.
  - intros id Hid. apply inv_origin0, inv_queued0, inv_frontier0.
    unfold frontier. apply elem_of_app. by left.
Qed.

(** C10: at every point of every crawl, every entry of the result map is
    keyed by the [id] of the node it holds, which is the [id] attribute of
    the fetched document the node was normalized from, whatever identifier
    that document was requested under. *)
Theorem crawl_key_is_node_id (rootId : NodeId)
    (batchSize concurrency : nat) (events : list Event) :
  1 ≤ batchSize → 1 ≤ concurrency →
  let st := run batchSize concurrency events
              (crawlSubtree batchSize concurrency rootId) in
  ∀ k n, nodeMap st !! k = Some n →
    k = n_id n
    ∧ ∃ requested doc, (requested, Some doc) ∈ answered st
                       ∧ n = normalizeNode doc ∧ k = asId (doc !! "id").
Proof.
  intros _ Hc st k n Hn.
  destruct (reached_inv rootId batchSize concurrency events Hc).
  fold st in inv_stored0, inv_key0.
  pose proof (inv_key0 k n Hn) as ->. split; [done|].
  destruct (inv_stored0 _ n Hn) as (id & doc & Ha & _ & ->). eauto.
Qed.

(** C3, amended: when a crawl has completed without an error, every
    identifier in the [childIds] of a stored node is a key of the result map,
    or it was fetched and the response held for it no document, a document
    with [visible === false], or a document with another [id]. *)
Theorem crawl_children_resolved (rootId : NodeId)
    (batchSize concurrency : nat) (events : list Event) :
  1 ≤ batchSize → 1 ≤ concurrency →
  let st := run batchSize concurrency events
              (crawlSubtree batchSize concurrency rootId) in
  status st = Done →
  ∀ k n c, nodeMap st !! k = Some n → c ∈ childIds n →
    is_Some (nodeMap st !! Some c)
    ∨ ∃ d, (c, d) ∈ answered st
           ∧ ∀ doc, d = Some doc →
               doc !! "visible" = Some (JBool false)
               ∨ asId (doc !! "id") ≠ Some c.
Proof.
  intros _ Hc st Hdone k n c Hn Hcn.
  destruct (reached_inv rootId batchSize concurrency events Hc).
  fold st in inv_children0, inv_frontier0, inv_done0, inv_pool0,
    inv_dispatched0, inv_results0, inv_visible_stored0.
  destruct (inv_children0 k n c Hn Hcn) as [Hq | ?]; [| by left].
  destruct (inv_done0 Hdone) as [Hempty Hful].
  destruct (PoolFacts.fulfilled_complete _ _ inv_pool0 Hc Hful)
    as [Hidx Hcomplete].
  apply inv_frontier0 in Hq. unfold frontier, Pool.pendingItems in Hq.
  rewrite Hidx, drop_all, Hempty in Hq. cbn [concat app] in Hq.
  rewrite app_nil_r in Hq.
  assert (∃ d, (c, d) ∈ answered st) as [d Hd].
  { destruct (inv_dispatched0 c Hq) as [?|(i & b & Hi & Hb & Hcb)]; [done|].
    destruct (Hcomplete i) as [r Hr]; [by eapply lookup_lt_Some|].
    by eapply inv_results0. }
  destruct d as [doc|]; [| right; exists None; split; [done | by intros]].
  destruct (isVisibleNode (JObj doc)) eqn:Hvis.
  - destruct (decide (asId (doc !! "id") = Some c)) as [Hid|Hid].
    + left. rewrite <- Hid. by apply (inv_visible_stored0 c doc).
    + right. exists (Some doc). split; [done|]. intros ? [= <-]. by right.
  - right. exists (Some doc). split; [done|]. intros ? [= <-]. left.
    unfold isVisibleNode in Hvis. cbn [member] in Hvis.
    by destruct (doc !! "visible") as [[|[]| | | |]|].
Qed.

End CrawlerProperties.

Module ScenarioFacts.
Import Normalizer Crawler Remote Scenarios Invariants CrawlerFacts CrawlerProperties.

Example diamond_run :
  let st := run 1 2 diamondEvents (crawlSubtree 1 2 "root") in
  dispatched st = [["root"]; ["P"]; ["Q"]; ["X"]] ∧ status st = Done.
Proof. vm_compute. done. Qed.

Lemma crawl_fetches_each_id_once_witness :
  let st := run 1 2 diamondEvents (crawlSubtree 1 2 "root") in
  NoDup (enqueued st)
  ∧ NoDup (concat (dispatched st))
  ∧ (∀ id, id ∈ concat (dispatched st) → id ∈ enqueued st)
  ∧ (∀ id, id ∈ queued st ↔ id ∈ enqueued st).
Proof.
  apply (crawl_fetches_each_id_once "root" 1 2 diamondEvents); lia.
Defined.

Lemma crawl_prunes_invisible_witness :
  let st := run 2 1 scenarioEvents (crawlSubtree 2 1 "root") in
  (∀ k n, nodeMap st !! k = Some n →
     known n !! "visible" ≠ Some (JBool false)
     ∧ ∃ id doc, (id, Some doc) ∈ answered st
                 ∧ doc !! "visible" ≠ Some (JBool false)
                 ∧ n = normalizeNode doc)
  ∧ (∀ doc k, doc !! "visible" = Some (JBool false) →
       nodeMap st !! k ≠ Some (normalizeNode doc))
  ∧ (∀ doc c, c ∈ childIds (normalizeNode doc) →
       ∃ stub, stub ∈ childrenOf doc
               ∧ member stub "visible" ≠ Some (JBool false)
               ∧ asId (member stub "id") = Some c)
  ∧ (∀ id, id ∈ enqueued st → reachable "root" (answered st) id)
  ∧ (∀ id, id ∈ concat (dispatched st) →
       reachable "root" (answered st) id)
  ∧ (∀ id d, (id, d) ∈ answered st → id ∈ concat (dispatched st)).
Proof.
  apply (crawl_prunes_invisible "root" 2 1 scenarioEvents); lia.
Defined.

Example moved_run :
  let st := run 1 1 movedEvents (crawlSubtree 1 1 "1:1") in
  nodeMap st !! Some "9:9" = Some (normalizeNode movedDoc)
  ∧ nodeMap st !! Some "1:1" = None.
Proof. vm_compute. done. Qed.

Lemma crawl_key_is_node_id_witness :
  let st := run 1 1 movedEvents (crawlSubtree 1 1 "1:1") in
  Some "9:9" = n_id (normalizeNode movedDoc)
  ∧ ∃ requested doc, (requested, Some doc) ∈ answered st
                     ∧ normalizeNode movedDoc = normalizeNode doc
                     ∧ Some "9:9" = asId (doc !! "id").
Proof.
  apply (crawl_key_is_node_id "1:1" 1 1 movedEvents); [lia | lia |].
  vm_compute. reflexivity.
Defined.

(** C3, as stated, fails: the root lists the child "A", the API resolves no
    document for "A", the crawl completes without an error, and "A", in the
    root's [childIds], is no key of the result map. *)
Lemma crawl_leaves_dangling_child :
  let st := run 50 3 danglingEvents (crawlSubtree 50 3 "root") in
  status st = Done
  ∧ childIds <$> nodeMap st !! Some "root" = Some ["A"]
  ∧ nodeMap st !! Some "A" = None.
Proof. vm_compute. done. Qed.

Lemma crawl_children_resolved_witness :
  let st := run 50 3 danglingEvents (crawlSubtree 50 3 "root") in
  is_Some (nodeMap st !! Some "A")
  ∨ ∃ d, ("A", d) ∈ answered st
         ∧ ∀ doc, d = Some doc →
             doc !! "visible" = Some (JBool false)
             ∨ asId (doc !! "id") ≠ Some "A".
Proof.
  apply (crawl_children_resolved "root" 50 3 danglingEvents
           ltac:(lia) ltac:(lia) ltac:(vm_compute; reflexivity)
           (Some "root") (normalizeNode (dangling !!! "root")) "A").
  - vm_compute. reflexivity.
  - vm_compute. left.
Defined.

Lemma crawlFile_idle (batchSize concurrency : nat) (file : gmap NodeId obj)
    (fuel : nat) (st : State) :
  firstAwaiting (Pool.workers (round st)) 0 = None →
  crawlFile batchSize concurrency file fuel st = st.
Proof. intros Hidle. destruct fuel; [done|]. cbn [crawlFile]. by rewrite Hidle. Qed.

Example lateFlag_run :
  let st := crawlFile 2 1 lateFlagScenario 2 (crawlSubtree 2 1 "root") in
  status st = Done
  ∧ dom (nodeMap st) = {[ Some "root"; Some "A" ]}
  ∧ dispatched st = [["root"]; ["A"; "B"]].
Proof. cbv zeta. split; [| split]; vm_compute; reflexivity. Qed.

(** C7, as stated, fails: the root's document lists B with its visibility
    flag, so B is never enqueued; the second batch holds A alone and B is in
    no batch. *)
Lemma scenario_second_batch_is_A_alone :
  let st := crawlFile 2 1 scenario 2 (crawlSubtree 2 1 "root") in
  dispatched st = [["root"]; ["A"]] ∧ "B" ∉ concat (dispatched st).
Proof.
  assert (dispatched (crawlFile 2 1 scenario 2 (crawlSubtree 2 1 "root"))
          = [["root"]; ["A"]]) as Heq by (vm_compute; reflexivity).
  cbv zeta. rewrite Heq. split; [done|]. cbn [concat app].
  intros [?|[?|?%elem_of_nil]%elem_of_cons]%elem_of_cons; done.
Qed.

(** C7, amended: for the tree whose root has the children A (visible) and B
    (invisible, with child C), the crawl from the root with [batchSize >= 2]
    and [concurrency >= 1] completes with a result map holding exactly the
    root and A, and issues exactly two fetches: the root alone, then A alone;
    B and C are in no batch. *)
Theorem scenario_crawl (batchSize concurrency fuel : nat) :
  2 ≤ batchSize → 1 ≤ concurrency → 2 ≤ fuel →
  let st := crawlFile batchSize concurrency scenario fuel
              (crawlSubtree batchSize concurrency "root") in
  status st = Done
  ∧ dom (nodeMap st) = {[ Some "root"; Some "A" ]}
  ∧ dispatched st = [["root"]; ["A"]]
  ∧ requestCount st = 2.
Proof.
  intros Hb Hc Hf.
  destruct batchSize as [|[|b]]; [lia | lia |].
  destruct concurrency as [|[|c]]; [lia | |];
    (destruct fuel as [|[|[|fuel]]]; [lia | lia | |]);
    cbv zeta; (split; [| split; [| split]]); vm_compute; reflexivity.
Qed.

Lemma scenario_crawl_witness :
  let st := crawlFile 2 1 scenario 2 (crawlSubtree 2 1 "root") in
  status st = Done
  ∧ dom (nodeMap st) = {[ Some "root"; Some "A" ]}
  ∧ dispatched st = [["root"]; ["A"]]
  ∧ requestCount st = 2.
Proof. apply (scenario_crawl 2 1 2); lia. Defined.

End ScenarioFacts.

(** ** The fetcher: recovery, total wait and errors *)

Module FetcherProperties.
Import Fetcher FetcherFacts Scenarios Servers.

Lemma substring_length (n : nat) (s : string) :
  String.length (String.substring 0 n s) ≤ n.
Proof.
  revert s. induction n as [|n IH]; intros [|c s]; simpl; try lia.
  specialize (IH s). lia.
Qed.

Lemma retryable_not_ok (o : FetchOutcome) :
  retryable o = true →
  ∃ res, o = Responded res ∧ ok res = false ∧ shouldRetry (status res) = true.
Proof.
  destruct o as [|res]; [done|]. simpl.
  intros [Hok%negb_true_iff Hs]%andb_true_iff. by exists res.
Qed.

(** When the first [k] responses (with [k < 6]) are failures that are
    retried and the next response is successful with a JSON body, the call
    returns that body, after exactly [k] waits and [k + 1] requests. *)
Theorem figmaFetchJson_recovers (server : nat → FetchOutcome)
    (random : nat → Q) (k : nat) (res : Response) (data : json) :
  k < maxAttempts →
  (∀ i, i < k → retryable (server i) = true) →
  server k = Responded res → ok res = true → bodyJson res = Some data →
  figmaFetchJson server random
  = Some (mkRun (inl data) (map (waitMs random) (seq 0 k)) (S k)).
Proof.
  intros Hk Hbefore Hres Hok Hdata.
  rewrite (figmaFetchJson_stops_at server random k Hk Hbefore).
  - unfold conclude. by rewrite Hres, Hok, Hdata.
  - left. unfold retryable. by rewrite Hres, Hok.
Qed.

Lemma figmaFetchJson_recovers_witness :
  figmaFetchJson busyThenOk halfRandom
  = Some (mkRun (inl (JObj ∅)) (map (waitMs halfRandom) (seq 0 3)) 4).
Proof.
  apply (figmaFetchJson_recovers busyThenOk halfRandom 3
           (mkResponse 200 "OK" "{}" (Some (JObj ∅)))).
  - unfold maxAttempts. lia.
  - intros i Hi.
    destruct i as [|[|[|i]]]; [reflexivity | reflexivity | reflexivity | lia].
  - reflexivity.
  - reflexivity.
  - reflexivity.
Defined.

(** When [Math.random()] yields doubles in [0, 1), one call sleeps at most
    5 times; after [n] sleeps its total wait lies between [500 * (2^n - 1)]
    and that plus [249 * n] milliseconds, and is at most 16745 ms. *)
Theorem figmaFetchJson_total_wait (server : nat → FetchOutcome)
    (random : nat → Q) :
  (∀ n, unitDouble (random n)) →
  ∃ run, figmaFetchJson server random = Some run
    ∧ length (waits run) ≤ 5
    ∧ (500 * (2 ^ Z.of_nat (length (waits run)) - 1)
       ≤ foldr Z.add 0 (waits run)
       ≤ 500 * (2 ^ Z.of_nat (length (waits run)) - 1)
         + 249 * Z.of_nat (length (waits run)))%Z
    ∧ (foldr Z.add 0 (waits run) ≤ 16745)%Z.
Proof.
  intros Hrandom.
  destruct (figmaFetchJson_run server random) as (n & Hn & _ & _ & Hrun).
  eexists. split; [exact Hrun|]. cbn [waits].
  rewrite length_map, length_seq.
  assert (∀ k, (0 ≤ jitter random k < 250)%Z) as Hj.
  { intros k. by apply jitter_bounds. }
  pose proof (Hj 0). pose proof (Hj 1). pose proof (Hj 2).
  pose proof (Hj 3). pose proof (Hj 4).
  unfold maxAttempts in Hn.
  split; [lia|].
  destruct n as [|[|[|[|[|[|n]]]]]]; [| | | | | | lia];
    cbn [seq map foldr]; unfold waitMs, base;
    change (2 ^ Z.of_nat 0)%Z with 1%Z;
    change (2 ^ Z.of_nat 1)%Z with 2%Z;
    change (2 ^ Z.of_nat 2)%Z with 4%Z;
    change (2 ^ Z.of_nat 3)%Z with 8%Z;
    change (2 ^ Z.of_nat 4)%Z with 16%Z;
    change (2 ^ Z.of_nat 5)%Z with 32%Z; lia.
Qed.

Lemma figmaFetchJson_total_wait_witness :
  ∃ run, figmaFetchJson busyThenOk halfRandom = Some run
    ∧ length (waits run) ≤ 5
    ∧ (500 * (2 ^ Z.of_nat (length (waits run)) - 1)
       ≤ foldr Z.add 0 (waits run)
       ≤ 500 * (2 ^ Z.of_nat (length (waits run)) - 1)
         + 249 * Z.of_nat (length (waits run)))%Z
    ∧ (foldr Z.add 0 (waits run) ≤ 16745)%Z.
Proof.
  apply (figmaFetchJson_total_wait busyThenOk halfRandom).
  intros n. unfold halfRandom. split; [| split]; vm_compute; congruence.
Defined.

(** A request that is rejected before any response, and a successful
    response whose body is no JSON, end the call at once with that failure:
    neither is retried, whatever attempts are left. *)
Theorem figmaFetchJson_no_retry_without_status (server : nat → FetchOutcome)
    (random : nat → Q) (k : nat) :
  k < maxAttempts →
  (∀ i, i < k → retryable (server i) = true) →
  (server k = Rejected →
   figmaFetchJson server random
   = Some (mkRun (inr NetworkFailure) (map (waitMs random) (seq 0 k)) (S k)))
  ∧ (∀ res, server k = Responded res → ok res = true →
       bodyJson res = None →
       figmaFetchJson server random
       = Some (mkRun (inr InvalidBody) (map (waitMs random) (seq 0 k)) (S k))).
Proof.
  intros Hk Hbefore. split.
  - intros Hres.
    rewrite (figmaFetchJson_stops_at server random k Hk Hbefore).
    + unfold conclude. by rewrite Hres.
    + left. unfold retryable. by rewrite Hres.
  - intros res Hres Hok Hbody.
    rewrite (figmaFetchJson_stops_at server random k Hk Hbefore).
    + unfold conclude. by rewrite Hres, Hok, Hbody.
    + left. unfold retryable. by rewrite Hres, Hok.
Qed.

Lemma figmaFetchJson_no_retry_without_status_witness :
  (flakyThenHtml 2 = Rejected →
   figmaFetchJson flakyThenHtml halfRandom
   = Some (mkRun (inr NetworkFailure) (map (waitMs halfRandom) (seq 0 2)) 3))
  ∧ (∀ res, flakyThenHtml 2 = Responded res → ok res = true →
       bodyJson res = None →
       figmaFetchJson flakyThenHtml halfRandom
       = Some (mkRun (inr InvalidBody) (map (waitMs halfRandom) (seq 0 2)) 3)).
Proof.
  apply (figmaFetchJson_no_retry_without_status flakyThenHtml halfRandom 2).
  - unfold maxAttempts. lia.
  - intros i Hi. destruct i as [|[|i]]; [reflexivity | reflexivity | lia].
Defined.

(** The error thrown for a response carries the status and the status text
    of the last response and at most the first 2000 characters of its body;
    its status is outside 200-299; and for a status that is retried it is
    thrown only after the sixth request. *)
Theorem figmaFetchJson_error_report (server : nat → FetchOutcome)
    (random : nat → Q) (run : FetchRun) (st : Z) (text body : string) :
  figmaFetchJson server random = Some run →
  result run = inr (ApiError st text body) →
  (∃ res, server (calls run - 1) = Responded res
          ∧ st = status res ∧ text = statusText res
          ∧ body = String.substring 0 2000 (bodyText res))
  ∧ ¬ (200 ≤ st ≤ 299)%Z
  ∧ String.length body ≤ 2000
  ∧ ((st = 429 ∨ 500 ≤ st ≤ 599)%Z → calls run = maxAttempts).
Proof.
  intros Hrun Hresult.
  destruct (figmaFetchJson_run server random)
    as (k & Hk & Hbefore & Hlast & Hrun').
  rewrite Hrun in Hrun'. injection Hrun' as ->.
  cbn [result calls] in *. replace (S k - 1) with k by lia.
  unfold conclude in Hresult.
  destruct (server k) as [|res] eqn:Hres; [done|].
  destruct (ok res) eqn:Hok; [by destruct (bodyJson res)|].
  injection Hresult as <- <- <-.
  split; [by exists res|].
  split.
  { unfold ok in Hok. apply andb_false_iff in Hok. lia. }
  split; [apply substring_length|].
  intros Hst%shouldRetry_iff.
  destruct Hlast as [Hstop | ->]; [| done].
  unfold retryable in Hstop. rewrite Hok, Hst in Hstop. done.
Qed.

Lemma figmaFetchJson_error_report_witness :
  (∃ res, alwaysDown (6 - 1) = Responded res
          ∧ 500%Z = status res ∧ "Internal Server Error" = statusText res
          ∧ "oops" = String.substring 0 2000 (bodyText res))
  ∧ ¬ (200 ≤ 500 ≤ 299)%Z
  ∧ String.length "oops" ≤ 2000
  ∧ ((500 = 429 ∨ 500 ≤ 500 ≤ 599)%Z → 6 = maxAttempts).
Proof.
  apply (figmaFetchJson_error_report alwaysDown halfRandom
           (mkRun (inr (ApiError 500 "Internal Server Error" "oops"))
              (map (waitMs halfRandom) (seq 0 5)) 6)).
  - vm_compute. reflexivity.
  - reflexivity.
Defined.

End FetcherProperties.

(** ** The normalizer: geometry and malformed children *)

Module NormalizerProperties.
Import Normalizer NormalizerFacts.

Lemma normalized_eq (a b : NormalizedNode) :
  n_id a = n_id b → n_name a = n_name b → n_type a = n_type b →
  childIds a = childIds b → known a = known b → other a = other b →
  a = b.
Proof. destruct a, b. cbn. by intros -> -> -> -> -> ->. Qed.

(** The geometry fields have no effect on the normalized node: setting
    one to any value, or deleting it, gives the same [NormalizedNode]. *)
Theorem normalizeNode_ignores_geometry (doc : obj) (g : string) (v : json) :
  g ∈ geometryKeys →
  normalizeNode (<[g := v]> doc) = normalizeNode doc
  ∧ normalizeNode (delete g doc) = normalizeNode doc.
Proof.
  intros Hg.
  assert (g ≠ "id" ∧ g ≠ "name" ∧ g ≠ "type" ∧ g ≠ "children")
    as (Hid & Hname & Htype & Hchildren).
  { unfold geometryKeys in Hg.
    repeat (apply elem_of_cons in Hg as [-> | Hg]; [done|]).
    by apply elem_of_nil in Hg. }
  assert (∀ doc', (∀ k, k ≠ g → doc' !! k = doc !! k) →
                  normalizeNode doc' = normalizeNode doc) as Hsame.
  { intros doc' Hk. apply normalized_eq.
    - cbn [normalizeNode n_id]. by rewrite Hk.
    - cbn [normalizeNode n_name]. by rewrite Hk.
    - cbn [normalizeNode n_type]. by rewrite Hk.
    - cbn [normalizeNode childIds]. unfold visibleChildIds, childrenOf.
      by rewrite Hk.
    - apply map_eq. intros k. rewrite !known_lookup.
      destruct (decide (k ∈ knownKeys)) as [Hin|]; [| done].
      apply Hk. intros ->. by apply knownKeys_not_geometry in Hin.
    - apply map_eq. intros k. rewrite !other_lookup.
      destruct (decide (k ∈ knownKeys ∨ k = "children" ∨ k ∈ geometryKeys
                        ∨ k = "__proto__")) as [|Hn]; [done|].
      apply Hk. intros ->. naive_solver. }
  split; apply Hsame; intros k Hk.
  - by apply lookup_insert_ne.
  - by apply lookup_delete_ne.
Qed.

Lemma normalizeNode_ignores_geometry_witness :
  normalizeNode (<["vectorPaths" := JArr [JStr "M 0 0 L 10 10"]]>
                   Scenarios.twinsDoc)
  = normalizeNode Scenarios.twinsDoc
  ∧ normalizeNode (delete "vectorPaths" Scenarios.twinsDoc)
    = normalizeNode Scenarios.twinsDoc.
Proof.
  apply normalizeNode_ignores_geometry. unfold geometryKeys. left.
Defined.

(** A [null] among the [children] of a document makes [normalizeNode]
    throw a [TypeError]: [isVisibleNode(null)] is [true], and the entry
    reaches [c.id]. *)
Theorem normalizeNode_null_child (doc : obj) :
  JNull ∈ childrenOf doc → childIdValues doc = inl TypeError.
Proof. apply childIdValues_null. Qed.

Lemma normalizeNode_null_child_witness :
  childIdValues {[ "id" := JStr "0:1";
                   "children" := JArr [ JObj {[ "id" := JStr "1:2" ]}; JNull ] ]}
  = inl TypeError.
Proof.
  apply normalizeNode_null_child. vm_compute. right. left.
Defined.

End NormalizerProperties.

(** ** The pool: concurrency and progress *)

Module PoolProgress.
Import Pool Invariants PoolFacts PoolLive.

Section Facts.

Context {I R E : Type}.

Implicit Types p : Pool.State I R E.

Lemma inFlight_length p : length (inFlight p) ≤ length (workers p).
Proof.
  unfold inFlight. induction (workers p) as [|wk ws IH]; [done|].
  destruct wk; cbn [omap list_omap awaited length];
    fold (omap (awaited (E:=E)) ws); lia.
Qed.

Lemma omap_awaited_NoDup (ws : list (Worker E)) :
  (∀ w w' c, ws !! w = Some (Awaiting c) → ws !! w' = Some (Awaiting c) →
     w = w') →
  NoDup (omap awaited ws).
Proof.
  induction ws as [|wk ws IH]; intros Hinj; [constructor|].
  assert (NoDup (omap awaited ws)) as Hrest.
  { apply IH. intros w w' c Hw Hw'.
    specialize (Hinj (S w) (S w') c Hw Hw'). lia. }
  destruct wk as [c| |e]; cbn [omap list_omap awaited]; try done.
  constructor; [| done].
  rewrite list_elem_of_omap. intros (wk & [w Hw]%list_elem_of_lookup_1 & Hc).
  destruct wk; try done. injection Hc as ->.
  specialize (Hinj 0 (S w) c eq_refl Hw). lia.
Qed.

End Facts.

(** Under every schedule, the units of work in flight are distinct, at most
    [min(limit, items.length)] of them, each started and without a result
    yet; and no more units are started than there are items. *)
Theorem mapLimit_bounded_concurrency {I R E : Type} (its : list I)
    (limit : nat) (events : list (nat * (R + E))) :
  let p := run events (mapLimit its limit : Pool.State I R E) in
  length (inFlight p) ≤ Nat.min limit (length its)
  ∧ NoDup (inFlight p)
  ∧ (∀ c, c ∈ inFlight p → c < idx p ∧ results p !! c = Some None)
  ∧ idx p ≤ length its.
Proof.
  intros p.
  assert (Wf limit p) as Hwf by apply wf_run, wf_mapLimit.
  assert (items p = its) as Hits.
  { subst p. rewrite run_items. by rewrite mapLimit_eq. }
  clearbody p. destruct Hwf. rewrite Hits in *.
  split; [| split; [| split]].
  - rewrite <- wf_workers0. apply inFlight_length.
  - by apply omap_awaited_NoDup.
  - intros c [w Hw]%elem_of_inFlight. by eapply wf_await0.
  - done.
Qed.

(** Under every schedule the pool call cannot stall: while it is pending a
    unit is in flight and no worker has thrown; when it is fulfilled every
    worker has returned and nothing is in flight; and when it is rejected,
    the error is that of a worker that threw. *)
Theorem mapLimit_never_stalls {I R E : Type} (its : list I) (limit : nat)
    (events : list (nat * (R + E))) :
  let p := run events (mapLimit its limit : Pool.State I R E) in
  match promise p with
  | Pending => inFlight p ≠ [] ∧ ∀ w e, workers p !! w ≠ Some (Threw e)
  | Fulfilled =>
    inFlight p = [] ∧ ∀ w wk, workers p !! w = Some wk → wk = Returned
  | RejectedWith e => ∃ w, workers p !! w = Some (Threw e)
  end.
Proof.
  intros p.
  assert (Wf limit p) as Hwf by apply wf_run, wf_mapLimit.
  assert (Live p) as [Hpend Hthrew Hrej].
  { apply (live_run limit); [apply wf_mapLimit | apply live_mapLimit]. }
  clearbody p. destruct (promise p) eqn:Hp.
  - split; [by apply Hpend|]. intros w e Hw.
    destruct (Hthrew w e Hw) as [e' He']. congruence.
  - pose proof (wf_fulfilled _ _ Hwf Hp) as Hall.
    split; [| done]. apply inFlight_nil. intros w c Hw.
    by specialize (Hall w _ Hw).
  - by apply Hrej.
Qed.

(** With [limit = 0], or with no items, the call starts no unit and is
    fulfilled at once, with a [results] array of [items.length] holes. *)
Theorem mapLimit_without_worker {I R E : Type} (its : list I) (limit : nat)
    (events : list (nat * (R + E))) :
  Nat.min limit (length its) = 0 →
  run events (mapLimit its limit : Pool.State I R E)
  = mkPool its (replicate (length its) None) 0 [] Fulfilled.
Proof.
  intros Hm. rewrite mapLimit_eq. cbv zeta. rewrite Hm. cbn [seq map].
  induction events as [|[w o] events IH]; [done|].
  cbn [run foldl fst snd]. unfold settle at 1. simpl. exact IH.
Qed.

Lemma mapLimit_without_worker_witness :
  run [(0, inl ()); (1, inr "HTTP 500")]
    (mapLimit ["1:2"; "1:3"] 0 : Pool.State string unit string)
  = mkPool ["1:2"; "1:3"] (replicate (length ["1:2"; "1:3"]) None) 0 []
      Fulfilled.
Proof.
  apply (mapLimit_without_worker ["1:2"; "1:3"] 0). reflexivity.
Defined.

End PoolProgress.

(** ** The crawler: order and size of the requests *)

Module CrawlOrder.
Import Normalizer Crawler Invariants PoolLive Ordering CrawlerFacts PoolFacts PoolProgress.

Lemma visit_queue (nodes : obj) (st : State) (id : NodeId) :
  ∃ new, toExpand (visit nodes st id) = toExpand st ++ new
         ∧ enqueued (visit nodes st id) = enqueued st ++ new
         ∧ requestCount (visit nodes st id) = requestCount st.
Proof.
  unfold visit. destruct (documentOf nodes id) as [doc|];
    [| exists []; by rewrite !app_nil_r].
  cbv zeta. destruct (isVisibleNode (JObj doc));
    [| exists []; by rewrite !app_nil_r].
  destruct (enqueue_all (childIds (normalizeNode doc))
              (store (normalizeNode doc) (record id (Some doc) st)))
    as (new & -> & _). by exists new.
Qed.

Lemma processBatch_queue (ids : list NodeId) (data : json) (st : State) :
  ∃ new, toExpand (processBatch ids data st) = toExpand st ++ new
         ∧ enqueued (processBatch ids data st) = enqueued st ++ new
         ∧ requestCount (processBatch ids data st) = requestCount st
         ∧ round (processBatch ids data st) = round st
         ∧ status (processBatch ids data st) = status st
         ∧ dispatched (processBatch ids data st) = dispatched st
         ∧ answered (processBatch ids data st)
           = answered st
             ++ map (λ id, (id, documentOf (nodesOf data) id)) ids.
Proof.
  unfold processBatch. revert st.
  induction ids as [|id ids IH]; intros st; cbn [foldl map].
  - exists []. by rewrite !app_nil_r.
  - destruct (IH (visit (nodesOf data) st id))
      as (new' & -> & -> & -> & -> & -> & -> & ->).
    destruct (visit_queue (nodesOf data) st id) as (new & -> & -> & ->).
    destruct (visit_fields (nodesOf data) st id) as (-> & -> & -> & ->).
    exists (new ++ new'). rewrite <- !app_assoc. done.
Qed.

Lemma moreBatches_bounds (fuel batchSize concurrency : nat)
    (batches : list (list NodeId)) (queue : list NodeId) :
  (∀ b, b ∈ batches → 1 ≤ length b ≤ batchSize) →
  ∀ b, b ∈ (moreBatches fuel batchSize concurrency batches queue).1 →
       1 ≤ length b ≤ batchSize.
Proof.
  revert batches queue.
  induction fuel as [|fuel IH]; intros batches queue Hb; cbn [moreBatches];
    [done|].
  destruct (negb (length queue =? 0) && (length batches <? concurrency)%nat);
    [| done].
  rewrite fillBatch_eq. apply IH.
  destruct (negb (length (take batchSize queue) =? 0)) eqn:Hne; [| done].
  intros b [Hin | ->%list_elem_of_singleton]%elem_of_app; [by apply Hb|].
  apply negb_true_iff, Nat.eqb_neq in Hne.
  rewrite length_take in *. lia.
Qed.

Lemma formBatches_bounds (batchSize concurrency : nat) (queue : list NodeId) :
  1 ≤ batchSize → queue ≠ [] →
  ∀ b, b ∈ (formBatches batchSize concurrency queue).1 →
       1 ≤ length b ≤ batchSize.
Proof.
  intros Hbs Hq. unfold formBatches. rewrite fillBatch_eq.
  apply moreBatches_bounds.
  intros b ->%list_elem_of_singleton. rewrite length_take.
  destruct queue; [done|]. simpl. lia.
Qed.

(** What one pass of the outer loop does to the state. *)
Lemma dispatch_fields (batchSize concurrency : nat) (st : State) :
  1 ≤ batchSize → 1 ≤ concurrency → toExpand st ≠ [] →
  ∃ batches,
    dispatch batchSize concurrency st
    = mkState (nodeMap st) (toExpand (dispatch batchSize concurrency st))
        (queued st) (fetchedCount st) (length batches + requestCount st)
        (Pool.mapLimit batches concurrency) (status st) (enqueued st)
        (dispatched st ++ batches) (answered st)
    ∧ concat batches ++ toExpand (dispatch batchSize concurrency st)
      = toExpand st
    ∧ (∀ b, b ∈ batches → 1 ≤ length b ≤ batchSize)
    ∧ 1 ≤ length batches ≤ concurrency.
Proof.
  intros Hbs Hc Hq.
  pose proof (dispatch_starts_all batchSize concurrency st Hbs Hc Hq)
    as (Hlen & Hidx & _ & _).
  pose proof (formBatches_app batchSize concurrency (toExpand st)) as Happ.
  pose proof (formBatches_bounds batchSize concurrency (toExpand st) Hbs Hq)
    as Hbounds.
  revert Hlen Hidx. unfold dispatch.
  destruct (formBatches batchSize concurrency (toExpand st))
    as [batches rest]. cbn [fst snd] in *.
  rewrite startUnits_eq. cbn [round toExpand nodeMap queued fetchedCount
    requestCount status enqueued dispatched answered].
  unfold Pool.startedItems. rewrite mapLimit_eq. cbv zeta.
  cbn [Pool.items Pool.idx]. intros Hlen Hidx.
  exists batches. rewrite Hidx, firstn_all.
  rewrite mapLimit_eq. cbv zeta. rewrite !Hidx. done.
Qed.

Lemma concat_lookup_disjoint {A} (l : list (list A)) (i j : nat)
    (a b : list A) (x : A) :
  NoDup (concat l) → l !! i = Some a → l !! j = Some b → i ≠ j →
  x ∈ a → x ∉ b.
Proof.
  revert i j. induction l as [|h l IH]; intros i j Hnd Hi Hj Hne Ha Hb;
    [done|].
  cbn [concat] in Hnd. apply NoDup_app in Hnd as (Hh & Hdis & Hl).
  destruct i as [|i], j as [|j]; [done | | |].
  - injection Hi as ->. apply (Hdis x Ha). apply elem_of_concat.
    exists b. split; [by eapply list_elem_of_lookup_2 | done].
  - injection Hj as ->. apply (Hdis x Hb). apply elem_of_concat.
    exists a. split; [by eapply list_elem_of_lookup_2 | done].
  - apply (IH i j); try done. lia.
Qed.

Lemma concat_elem_NoDup {A} (l : list (list A)) (a : list A) :
  NoDup (concat l) → a ∈ l → NoDup a.
Proof.
  induction l as [|h l IH]; intros Hnd Ha; [by apply elem_of_nil in Ha|].
  cbn [concat] in Hnd. apply NoDup_app in Hnd as (Hh & _ & Hl).
  apply elem_of_cons in Ha as [->|Ha]; [done | by apply IH].
Qed.

Section Preservation.

Variables (rootId : NodeId) (batchSize concurrency : nat).
Hypothesis batchSize_pos : 1 ≤ batchSize.
Hypothesis concurrency_pos : 1 ≤ concurrency.

Abbreviation Inv' := (Inv rootId concurrency).
Abbreviation Order' := (Order rootId batchSize concurrency).

Lemma order_setStatus (s : Status) (st : State) :
  Order' st → Order' (setStatus s st).
Proof. intros []. by split. Qed.

(** A pass of the outer loop keeps the order; it needs of [Inv] only what
    does not depend on the pool. *)
Lemma order_dispatch (st : State) :
  Order' st → NoDup (enqueued st) →
  (∀ id d, (id, d) ∈ answered st → id ∈ concat (dispatched st)) →
  toExpand st ≠ [] →
  Order' (dispatch batchSize concurrency st)
  ∧ Pool.promise (round (dispatch batchSize concurrency st)) = Pool.Pending
  ∧ status (dispatch batchSize concurrency st) = status st.
Proof.
  intros [] Hnd Hans Hq.
  pose proof (dispatch_starts_all batchSize concurrency st batchSize_pos
                concurrency_pos Hq) as (_ & Hidx & Hpend & _).
  destruct (dispatch_fields batchSize concurrency st batchSize_pos
              concurrency_pos Hq) as (batches & Heq & Happ & Hbounds & Hlen).
  revert Hidx Hpend. rewrite Heq.
  cbn [round toExpand nodeMap queued fetchedCount requestCount status
       enqueued dispatched answered].
  set (rest := toExpand (dispatch batchSize concurrency st)) in *.
  clearbody rest. clear Heq. intros Hidx Hpend.
  assert (Pool.items (Pool.mapLimit batches concurrency
            : Pool.State (list NodeId) unit Fetcher.FetchError) = batches)
    as Hitems by (by rewrite mapLimit_eq).
  split; [| done].
  split; cbn [round toExpand nodeMap queued fetchedCount requestCount status
              enqueued dispatched answered]; try done.
  - rewrite concat_app, <- app_assoc, Happ. done.
  - rewrite Hitems. lia.
  - exists (dispatched st). by rewrite Hitems.
  - intros b [Hb|Hb]%elem_of_app; [by apply ord_batch0 | by apply Hbounds].
  - rewrite length_app. lia.
  - intros c b id _ Hb Hid Hin. rewrite Hitems in Hb.
    apply list_elem_of_fmap in Hin as ([id' d] & -> & Hin). cbn [fst] in *.
    apply Hans in Hin. rewrite <- ord_fifo0, <- Happ in Hnd.
    apply NoDup_app in Hnd as (_ & Hdis & _). apply (Hdis id' Hin).
    apply elem_of_app. left. apply elem_of_concat. exists b.
    split; [by eapply list_elem_of_lookup_2 | done].
  - apply live_mapLimit.
Qed.

Lemma order_loop (fuel : nat) (st : State) :
  Order' st → NoDup (enqueued st) →
  (∀ id d, (id, d) ∈ answered st → id ∈ concat (dispatched st)) →
  status st = Running →
  Order' (loop batchSize concurrency fuel st)
  ∧ Suspended (loop batchSize concurrency fuel st).
Proof.
  intros Hord Hnd Hans Hrun.
  destruct (toExpand st) as [|id q] eqn:Hq.
  - destruct fuel; cbn [loop]; rewrite Hq;
      (split; [by apply order_setStatus | done]).
  - rewrite loop_suspends by (done || by rewrite Hq).
    destruct (order_dispatch st Hord Hnd Hans) as (Hord' & Hp & Hs);
      [by rewrite Hq|].
    split; [done|]. unfold Suspended. by rewrite Hs, Hrun.
Qed.

Lemma order_step (st : State) (ev : nat * (json + Fetcher.FetchError)) :
  Inv' st → Order' st → Suspended st →
  Order' (step batchSize concurrency st ev)
  ∧ Suspended (step batchSize concurrency st ev).
Proof.
  intros Hinv Hord Hsus. destruct ev as [w outcome]. unfold step.
  destruct (Pool.workers (round st) !! w) as [[current| |e0]|] eqn:Hw;
    try done.
  pose proof (inv_pool _ _ _ Hinv) as Hwf.
  destruct (wf_await _ _ Hwf w current Hw) as [Hcur Hnone].
  pose proof (wf_idx _ _ Hwf) as Hidx.
  destruct (Pool.items (round st) !! current) as [ids|] eqn:Hids;
    [| apply lookup_ge_None in Hids; lia].
  cbn [default from_option]. unfold id. cbv zeta.
  assert (status st ≠ Done) as Hstatus.
  { intros [_ Hf]%(inv_done _ _ _ Hinv).
    by specialize (wf_fulfilled _ _ Hwf Hf w _ Hw). }
  assert (ids ∈ dispatched st) as Hbatch.
  { apply (inv_started _ _ _ Hinv). unfold Pool.startedItems.
    apply list_elem_of_lookup_2 with current. by apply lookup_take_Some. }
  assert (∀ id, id ∈ ids → id ∈ concat (dispatched st)) as Hdisp.
  { intros id Hid. apply elem_of_concat. by exists ids. }
  assert (NoDup (concat (dispatched st))) as Hndd.
  { pose proof (inv_frontier_nodup _ _ _ Hinv) as Hnd. unfold frontier in Hnd.
    by apply NoDup_app in Hnd as (? & _). }
  set (st1 := match outcome with
              | inl data => processBatch ids data st
              | inr _ => st
              end).
  set (po := match outcome with
             | inl _ => inl ()
             | inr e => inr e
             end : unit + Fetcher.FetchError).
  assert (∃ new extra,
            toExpand st1 = toExpand st ++ new
            ∧ enqueued st1 = enqueued st ++ new
            ∧ requestCount st1 = requestCount st
            ∧ round st1 = round st ∧ status st1 = status st
            ∧ dispatched st1 = dispatched st
            ∧ (answered st1).*1 = (answered st).*1 ++ extra
            ∧ match po with inl _ => extra = ids | inr _ => extra = [] end
            ∧ NoDup (enqueued st1)
            ∧ (∀ id d, (id, d) ∈ answered st1 →
                 id ∈ concat (dispatched st1)))
    as (new & extra & Hq1 & He1 & Hrc1 & Hr1 & Hs1 & Hd1 & Ha1 & Hextra
        & Hnd1 & Hans1).
  { subst st1 po. destruct outcome as [data|e].
    - destruct (processBatch_queue ids data st)
        as (new & ? & ? & ? & ? & ? & ? & Ha).
      destruct (inv_processBatch rootId concurrency ids data st Hinv Hdisp
                  Hstatus) as (Hinv1 & _).
      exists new, ids. do 6 (split; [done|]).
      split; [| split; [done | split]].
      + rewrite Ha, fmap_app. f_equal.
        change (map (λ id, (id, documentOf (nodesOf data) id)) ids)
          with ((λ id, (id, documentOf (nodesOf data) id)) <$> ids).
        rewrite <- list_fmap_compose. apply list_fmap_id.
      + apply (inv_enq_nodup _ _ _ Hinv1).
      + apply (inv_answered _ _ _ Hinv1).
    - exists [], []. rewrite !app_nil_r. do 8 (split; [done|]).
      split; [apply (inv_enq_nodup _ _ _ Hinv)
             | apply (inv_answered _ _ _ Hinv)]. }
  clearbody st1. rewrite Hr1.
  destruct (Pool.settle w po (round st)) as [pool|] eqn:Hsettle; [| done].
  pose proof (wf_settle _ _ _ _ _ Hwf Hsettle) as Hwf'.
  pose proof (live_settle _ _ _ _ _ Hwf (ord_live _ _ _ _ Hord) Hsettle)
    as Hlive'.
  apply settle_Some in Hsettle as (c & Hw' & Hitems & Hcase).
  assert (c = current) as -> by congruence.
  destruct Hord.
  assert (Pool.idx pool = Pool.idx (round st)
          ∧ (∀ c, Pool.results pool !! c = Some None →
                  Pool.results (round st) !! c = Some None
                  ∧ (c = current → extra = []))
          ∧ Pool.promise pool
            = match Pool.promise (round st) with
              | Pool.Pending =>
                match po with
                | inl _ => Pool.promise pool
                | inr e => Pool.RejectedWith e
                end
              | settled => settled
              end)
    as (Hidx' & Hres' & Hprom').
  { destruct po as [[]|e].
    - destruct Hcase as (Hres & [(? & _) | (_ & ? & _)] & Hp); [lia|].
      split; [done|]. split.
      + intros c Hc. rewrite Hres in Hc.
        destruct (decide (c = current)) as [->|Hne].
        * rewrite list_lookup_insert_eq in Hc; [done|].
          rewrite (wf_results _ _ Hwf). lia.
        * by rewrite list_lookup_insert_ne in Hc.
      + rewrite Hp. by destruct (Pool.promise (round st)).
    - destruct Hcase as (Hres & ? & _ & Hp). split; [done|]. split.
      + intros c Hc. by rewrite Hres in Hc.
      + done. }
  assert (drop (Pool.idx (round st)) (Pool.startedItems pool) = []) as ->.
  { unfold Pool.startedItems. rewrite Hidx', Hitems.
    apply drop_ge. rewrite length_take. lia. }
  cbn [foldl].
  assert (Order' (mkState (nodeMap st1) (toExpand st1) (queued st1)
                    (fetchedCount st1) (requestCount st1) pool (status st1)
                    (enqueued st1) (dispatched st1) (answered st1)))
    as Hord2.
  { split; cbn [round toExpand nodeMap queued fetchedCount requestCount
                status enqueued dispatched answered].
    - rewrite Hd1, Hq1, He1, app_assoc. by rewrite ord_fifo0.
    - by rewrite Hidx', Hitems.
    - by rewrite Hitems.
    - by rewrite Hd1, Hitems.
    - by rewrite Hd1.
    - by rewrite Hd1, Hrc1.
    - intros Hroot. destruct (ord_root0 Hroot) as [later Hl].
      exists (later ++ new). by rewrite He1, Hl.
    - rewrite Ha1. apply NoDup_app. split; [done|]. split.
      + intros id Hin Hid. destruct po.
        * subst extra. by apply (ord_unanswered0 current ids id).
        * subst extra. by apply elem_of_nil in Hid.
      + destruct po; subst extra; [| constructor].
        by eapply concat_elem_NoDup.
    - intros c b id Hc Hb Hid. rewrite Hitems in Hb.
      destruct (Hres' c Hc) as [Hc' Hcur'].
      rewrite Ha1, elem_of_app. intros [Hin|Hin].
      + by apply (ord_unanswered0 c b id).
      + destruct (decide (c = current)) as [->|Hne].
        * rewrite (Hcur' eq_refl) in Hin. by apply elem_of_nil in Hin.
        * destruct po; subst extra; [| by apply elem_of_nil in Hin].
          destruct ord_suffix0 as [earlier Hsuf].
          rewrite Hsuf, concat_app in Hndd.
          apply NoDup_app in Hndd as (_ & _ & Hndd).
          by apply (concat_lookup_disjoint _ c current b ids id Hndd).
    - done. }
  cbn [status].
  assert (Pool.promise (round st) = Pool.Pending
          ∨ status st1 ≠ Running) as Hcases.
  { unfold Suspended in Hsus. rewrite Hs1.
    destruct (status st); [by left | by right | by right]. }
  destruct (status st1) eqn:Hst1.
  - destruct Hcases as [Hpend|]; [| done].
    destruct (Pool.promise pool) eqn:Hp.
    + split; [done|]. unfold Suspended. cbn [status round]. done.
    + apply order_loop; try done.
    + split; [by apply order_setStatus|]. unfold Suspended, setStatus.
      cbn [status round]. done.
  - split; [done|]. unfold Suspended. cbn [status round]. done.
  - split; [done|]. unfold Suspended. cbn [status round].
    unfold Suspended in Hsus. rewrite <- Hs1 in Hsus.
    rewrite Hprom', Hsus. done.
Qed.

Lemma order_run (events : list (nat * (json + Fetcher.FetchError)))
    (st : State) :
  Inv' st → Order' st → Suspended st →
  Order' (run batchSize concurrency events st)
  ∧ Suspended (run batchSize concurrency events st).
Proof.
  revert st. induction events as [|ev events IH]; intros st Hinv Hord Hsus;
    [done|].
  cbn [run foldl]. destruct (order_step st ev Hinv Hord Hsus).
  apply IH; [by apply inv_step | done | done].
Qed.

Lemma order_crawlSubtree :
  Order' (crawlSubtree batchSize concurrency rootId)
  ∧ Suspended (crawlSubtree batchSize concurrency rootId).
Proof.
  unfold crawlSubtree.
  pose (st0 := mkState ∅ [] ∅ 0 0 (Pool.mapLimit [] 0) Running [] [] []).
  fold st0. cbv zeta.
  assert (∃ q, enqueue st0 rootId
               = mkState ∅ q (queued (enqueue st0 rootId)) 0 0
                   (Pool.mapLimit [] 0) Running q [] []
               ∧ NoDup q ∧ (rootId ≠ "" → q = [rootId])) as (q & Heq & Hq & Hroot).
  { destruct (enqueue_cases st0 rootId) as [[-> Hor] | (Hne & _ & _ & ->)].
    - exists []. split; [done|]. split; [constructor|]. intros Hne.
      destruct Hor as [? | [[? Hm] | Hin]]; [done | |].
      + cbn [st0 nodeMap] in Hm. by rewrite lookup_empty in Hm.
      + cbn [st0 queued] in Hin. by apply elem_of_empty in Hin.
    - exists [rootId]. split; [done|]. split; [apply NoDup_singleton | done]. }
  rewrite Heq. apply order_loop; cbn [enqueued answered status]; try done.
  - split; cbn [round toExpand nodeMap queued fetchedCount requestCount status
                enqueued dispatched answered concat app]; try done.
    + rewrite mapLimit_eq. cbn. lia.
    + exists []. by rewrite mapLimit_eq.
    + intros b Hb. by apply elem_of_nil in Hb.
    + intros Hne. exists []. by rewrite Hroot.
    + constructor.
  - intros id d Hin. by apply elem_of_nil in Hin.
Qed.

End Preservation.

Lemma reached_order (rootId : NodeId) (batchSize concurrency : nat)
    (events : list (nat * (json + Fetcher.FetchError))) :
  1 ≤ batchSize → 1 ≤ concurrency →
  let st := run batchSize concurrency events
              (crawlSubtree batchSize concurrency rootId) in
  Inv rootId concurrency st ∧ Order rootId batchSize concurrency st
  ∧ Suspended st.
Proof.
  intros Hb Hc st.
  split; [by apply CrawlerProperties.reached_inv|].
  destruct (order_crawlSubtree rootId batchSize concurrency Hb Hc).
  apply (order_run rootId batchSize concurrency Hb Hc); try done.
  by apply inv_crawlSubtree.
Qed.

(** In every crawl with [batchSize >= 1] and [concurrency >= 1], the
    identifiers are requested in the order of their discovery: the batches
    dispatched so far, followed by the queue, are the identifiers in the
    order they were enqueued, the root first. *)
Theorem crawl_requests_in_discovery_order (rootId : NodeId)
    (batchSize concurrency : nat)
    (events : list (nat * (json + Fetcher.FetchError))) :
  1 ≤ batchSize → 1 ≤ concurrency →
  let st := run batchSize concurrency events
              (crawlSubtree batchSize concurrency rootId) in
  concat (dispatched st) ++ toExpand st = enqueued st
  ∧ (rootId ≠ "" → ∃ later, enqueued st = rootId :: later).
Proof.
  intros Hb Hc st.
  assert (Order rootId batchSize concurrency st) as []
    by (by apply reached_order).
  done.
Qed.

(** In every crawl with [batchSize >= 1] and [concurrency >= 1], every
    dispatched batch has between 1 and [batchSize] identifiers,
    [requestCount] is the number of batches dispatched, a round has at most
    [concurrency] batches and as many requests in flight, and every batch of
    a round is started when the round begins. *)
Theorem crawl_batches_bounded (rootId : NodeId)
    (batchSize concurrency : nat)
    (events : list (nat * (json + Fetcher.FetchError))) :
  1 ≤ batchSize → 1 ≤ concurrency →
  let st := run batchSize concurrency events
              (crawlSubtree batchSize concurrency rootId) in
  (∀ b, b ∈ dispatched st → 1 ≤ length b ≤ batchSize)
  ∧ requestCount st = length (dispatched st)
  ∧ length (Pool.items (round st)) ≤ concurrency
  ∧ length (Pool.inFlight (round st)) ≤ concurrency
  ∧ Pool.pendingItems (round st) = [].
Proof.
  intros Hb Hc st.
  assert (Inv rootId concurrency st ∧ Order rootId batchSize concurrency st)
    as (Hinv & []) by (split; by apply reached_order).
  clearbody st. pose proof (inv_pool _ _ _ Hinv) as Hwf.
  split; [done|]. split; [done|]. split; [done|]. split.
  - pose proof (inFlight_length (round st)).
    pose proof (wf_workers _ _ Hwf). lia.
  - unfold Pool.pendingItems. rewrite ord_all_started0. apply drop_all.
Qed.

(** In every crawl with [batchSize >= 1] and [concurrency >= 1], a crawl
    that is still running has a request in flight; one that returned has an
    empty queue and nothing in flight; one that failed has the error of a
    unit that threw. *)
Theorem crawl_never_stalls (rootId : NodeId) (batchSize concurrency : nat)
    (events : list (nat * (json + Fetcher.FetchError))) :
  1 ≤ batchSize → 1 ≤ concurrency →
  let st := run batchSize concurrency events
              (crawlSubtree batchSize concurrency rootId) in
  match status st with
  | Running => Pool.inFlight (round st) ≠ []
  | Done => toExpand st = [] ∧ Pool.inFlight (round st) = []
  | Failed e => ∃ w, Pool.workers (round st) !! w = Some (Pool.Threw e)
  end.
Proof.
  intros Hb Hc st.
  assert (Inv rootId concurrency st ∧ Order rootId batchSize concurrency st
          ∧ Suspended st) as (Hinv & [] & Hsus) by (by apply reached_order).
  clearbody st. unfold Suspended in Hsus. destruct ord_live0 as [Hpend _ Hrej].
  destruct (status st) eqn:Hst.
  - by apply Hpend.
  - destruct (inv_done _ _ _ Hinv Hst) as [Hq Hf]. split; [done|].
    apply inFlight_nil. intros w c Hw.
    by specialize (wf_fulfilled _ _ (inv_pool _ _ _ Hinv) Hf w _ Hw).
  - by apply Hrej.
Qed.

End CrawlOrder.

(** ** The crawler against a file *)

Module FileCrawl.
Import Normalizer Crawler Remote Invariants PoolLive Ordering Files.
Import CrawlerFacts PoolFacts PoolProgress CrawlOrder.

Lemma lookup_list_to_map_fn (f : NodeId → json) (ids : list NodeId)
    (id : NodeId) :
  id ∈ ids →
  (list_to_map (map (λ id, (id, f id)) ids) : obj) !! id = Some (f id).
Proof.
  intros Hid. induction ids as [|x ids IH]; [by apply elem_of_nil in Hid|].
  cbn [map list_to_map foldr].
  destruct (decide (x = id)) as [->|Hne].
  - apply lookup_insert_eq.
  - rewrite lookup_insert_ne by done. apply IH.
    by apply elem_of_cons in Hid as [?|?].
Qed.

(** The response to a batch holds for each requested identifier the
    document of the file, if it has one. *)
Lemma serve_documentOf (file : gmap NodeId obj) (ids : list NodeId)
    (id : NodeId) :
  id ∈ ids → documentOf (nodesOf (serve file ids)) id = file !! id.
Proof.
  intros Hid. unfold serve, nodesOf, member. rewrite lookup_singleton_eq.
  unfold documentOf.
  pose proof (lookup_list_to_map_fn
                (λ id, match file !! id with
                       | Some doc => JObj {[ "document" := JObj doc ]}
                       | None => JNull
                       end) ids id Hid) as Hl.
  cbv beta in Hl. rewrite Hl.
  destruct (file !! id) as [doc|]; [| done].
  unfold member. by rewrite lookup_singleton_eq.
Qed.

Lemma answered_dispatch (batchSize concurrency : nat) (st : State) :
  answered (dispatch batchSize concurrency st) = answered st.
Proof.
  unfold dispatch.
  destruct (formBatches batchSize concurrency (toExpand st)) as [batches rest].
  by rewrite startUnits_eq.
Qed.

Lemma answered_loop (batchSize concurrency fuel : nat) (st : State) :
  answered (loop batchSize concurrency fuel st) = answered st.
Proof.
  revert st. induction fuel as [|fuel IH]; intros st; cbn [loop];
    (destruct (toExpand st); [done|]).
  - destruct (Pool.promise _); apply answered_dispatch.
  - destruct (Pool.promise _); rewrite ?IH; apply answered_dispatch.
Qed.

Lemma healthy_dispatch (batchSize concurrency : nat) (st : State)
    (e : Fetcher.FetchError) :
  Pool.promise (round (dispatch batchSize concurrency st))
  ≠ Pool.RejectedWith e.
Proof.
  unfold dispatch.
  destruct (formBatches batchSize concurrency (toExpand st)) as [batches rest].
  rewrite startUnits_eq. cbn [round]. rewrite mapLimit_eq. cbv zeta.
  cbn [Pool.promise]. by destruct (Nat.min _ _).
Qed.

Lemma healthy_loop (batchSize concurrency fuel : nat) (st : State) :
  (∀ e, Pool.promise (round st) ≠ Pool.RejectedWith e) →
  ∀ e, Pool.promise (round (loop batchSize concurrency fuel st))
       ≠ Pool.RejectedWith e.
Proof.
  revert st. induction fuel as [|fuel IH]; intros st Hst e; cbn [loop];
    (destruct (toExpand st); [by apply Hst|]).
  - destruct (Pool.promise (round (dispatch batchSize concurrency st)));
      apply healthy_dispatch.
  - destruct (Pool.promise (round (dispatch batchSize concurrency st)))
      eqn:Hp.
    + apply healthy_dispatch.
    + apply IH. intros e'. apply healthy_dispatch.
    + apply healthy_dispatch.
Qed.

(** The step that processes a response for the batch [ids]. *)
Lemma step_response (batchSize concurrency : nat) (st : State)
    (w current : nat) (ids : list NodeId) (data : json) :
  Pool.workers (round st) !! w = Some (Pool.Awaiting current) →
  Pool.items (round st) !! current = Some ids →
  let st' := step batchSize concurrency st (w, inl data) in
  answered st'
  = answered st ++ map (λ id, (id, documentOf (nodesOf data) id)) ids
  ∧ ((∀ e, Pool.promise (round st) ≠ Pool.RejectedWith e) →
     ∀ e, Pool.promise (round st') ≠ Pool.RejectedWith e).
Proof.
  intros Hw Hids. cbv zeta. unfold step. rewrite Hw, Hids.
  cbn [default from_option]. unfold id. cbv zeta.
  destruct (processBatch_queue ids data st)
    as (new & _ & _ & _ & Hr & Hs & _ & Ha).
  rewrite Hr.
  destruct (Pool.settle w (inl ()) (round st)) as [pool|] eqn:Hsettle.
  2: { unfold Pool.settle in Hsettle. rewrite Hw in Hsettle.
       cbv zeta in Hsettle. by destruct (Pool.nextUnit _). }
  rewrite startUnits_eq.
  cbn [nodeMap toExpand queued fetchedCount requestCount round status
       enqueued dispatched answered].
  apply settle_Some in Hsettle as (_ & _ & _ & _ & _ & Hp).
  assert ((∀ e, Pool.promise (round st) ≠ Pool.RejectedWith e) →
          ∀ e, Pool.promise pool ≠ Pool.RejectedWith e) as Hpool.
  { intros Hst e. rewrite Hp. specialize (Hst e).
    destruct (Pool.promise (round st)); [| done | done].
    by destruct (forallb _ _). }
  destruct (status (processBatch ids data st)).
  - destruct (Pool.promise pool) eqn:Hpp.
    + cbn [answered round]. split; [done|]. intros _ e. by rewrite Hpp.
    + rewrite answered_loop. cbn [answered]. split; [done|]. intros Hst.
      apply healthy_loop. cbn [round]. intros e. by rewrite Hpp.
    + cbn [setStatus answered round]. split; [done|]. intros Hst.
      by destruct (Hpool Hst e).
  - cbn [answered round]. done.
  - cbn [answered round]. done.
Qed.






Section File.

Variables (rootId : NodeId) (batchSize concurrency : nat).
Variable file : gmap NodeId obj.
Hypothesis batchSize_pos : 1 ≤ batchSize.
Hypothesis concurrency_pos : 1 ≤ concurrency.

Abbreviation Reached := (Files.Reached rootId batchSize concurrency file).

Lemma reached_crawlSubtree :
  Reached (crawlSubtree batchSize concurrency rootId).
Proof.
  destruct (order_crawlSubtree rootId batchSize concurrency batchSize_pos
              concurrency_pos) as [Hord Hsus].
  pose proof (inv_crawlSubtree rootId batchSize concurrency concurrency_pos)
    as Hinv.
  split; [done|]. split; [done|]. split; [done|].
  revert Hinv Hord Hsus. unfold crawlSubtree. cbv zeta.
  set (st1 := enqueue _ rootId). intros Hinv Hord Hsus.
  assert (answered st1 = [] ∧ Pool.promise (round st1) = Pool.Fulfilled)
    as [Ha Hp].
  { subst st1. destruct (enqueue_cases
      (mkState ∅ [] ∅ 0 0 (Pool.mapLimit [] 0) Running [] [] []) rootId)
      as [[-> _] | (_ & _ & _ & ->)]; cbn [answered round];
      by rewrite mapLimit_eq. }
  split.
  - intros id d. rewrite answered_loop, Ha. intros Hin.
    by apply elem_of_nil in Hin.
  - apply healthy_loop. intros e. by rewrite Hp.
Qed.

Lemma awaitedBatch_Some (st : State) (w : nat) (ids : list NodeId) :
  Reached st → awaitedBatch st w = Some ids →
  ∃ current, Pool.workers (round st) !! w = Some (Pool.Awaiting current)
             ∧ Pool.items (round st) !! current = Some ids
             ∧ Pool.results (round st) !! current = Some None
             ∧ ids ∈ dispatched st.
Proof.
  intros (Hinv & Hord & _) Hb. unfold awaitedBatch in Hb.
  destruct (Pool.workers (round st) !! w) as [[current| |e]|] eqn:Hw;
    try done.
  pose proof (inv_pool _ _ _ Hinv) as Hwf.
  destruct (wf_await _ _ Hwf w current Hw) as [Hcur Hnone].
  pose proof (wf_idx _ _ Hwf) as Hidx.
  destruct (Pool.items (round st) !! current) as [ids'|] eqn:Hids;
    [| apply lookup_ge_None in Hids; lia].
  injection Hb as <-. exists current. do 3 (split; [done|]).
  apply (inv_started _ _ _ Hinv). unfold Pool.startedItems.
  apply list_elem_of_lookup_2 with current. by apply lookup_take_Some.
Qed.

Lemma reached_respond (st : State) (w : nat) :
  Reached st → Reached (respond batchSize concurrency file st w).
Proof.
  intros Hst. unfold respond.
  destruct (awaitedBatch st w) as [ids|] eqn:Hb; [| done].
  destruct (awaitedBatch_Some st w ids Hst Hb)
    as (current & Hw & Hids & _ & _).
  destruct Hst as (Hinv & Hord & Hsus & [Hans Hhealthy]).
  destruct (order_step rootId batchSize concurrency batchSize_pos
              concurrency_pos st (w, inl (serve file ids)) Hinv Hord Hsus)
    as [Hord' Hsus'].
  split; [by apply inv_step|]. split; [done|]. split; [done|].
  destruct (step_response batchSize concurrency st w current ids
              (serve file ids) Hw Hids) as [Ha Hh].
  split; [| by apply Hh].
  intros id d. rewrite Ha, elem_of_app. intros [Hin|Hin]; [by apply Hans|].
  apply (list_elem_of_fmap_1 (λ id, (id, documentOf _ id))) in Hin
    as (id' & [= -> ->] & Hid').
  by apply serve_documentOf.
Qed.


Lemma reached_crawlFileIn (order : list nat) (st : State) :
  Reached st → Reached (crawlFileIn batchSize concurrency file order st).
Proof.
  revert st. induction order as [|w order IH]; intros st Hst; [done|].
  cbn [crawlFileIn foldl]. by apply IH, reached_respond.
Qed.



Lemma dispatched_enqueued (st : State) (id : NodeId) :
  Reached st → id ∈ concat (dispatched st) → id ∈ enqueued st.
Proof.
  intros (_ & Hord & _) Hid. rewrite <- (ord_fifo _ _ _ _ Hord).
  apply elem_of_app. by left.
Qed.





(** Once the crawl is done, every identifier it came to know was
    answered. *)
Lemma all_answered (st : State) (id : NodeId) :
  Reached st → status st = Done → id ∈ enqueued st →
  ∃ d, (id, d) ∈ answered st.
Proof.
  intros (Hinv & Hord & _) Hdone Hid.
  destruct (inv_done _ _ _ Hinv Hdone) as [Hq Hf].
  rewrite <- (ord_fifo _ _ _ _ Hord), Hq, app_nil_r in Hid.
  destruct (inv_dispatched _ _ _ Hinv id Hid)
    as [? | (c & b & Hc & Hb & Hin)]; [done|].
  destruct (fulfilled_complete _ _ (inv_pool _ _ _ Hinv) concurrency_pos Hf)
    as [_ Hall].
  destruct (Hall c) as [r Hr]; [by eapply lookup_lt_Some|].
  by apply (inv_results _ _ _ Hinv c b r Hr Hb).
Qed.

Lemma stored_sound (st : State) (k : option NodeId) (n : NormalizedNode) :
  Reached st → consistent file → nodeMap st !! k = Some n →
  ∃ id doc, k = Some id ∧ file !! id = Some doc
            ∧ isVisibleNode (JObj doc) = true ∧ n = normalizeNode doc
            ∧ (id, Some doc) ∈ answered st.
Proof.
  intros (Hinv & _ & _ & [Hans _]) Hcons Hk.
  destruct (inv_stored _ _ _ Hinv k n Hk) as (id & doc & Ha & Hvis & ->).
  pose proof (Hans id _ Ha) as Hfile. symmetry in Hfile.
  exists id, doc. split; [| done].
  rewrite (inv_key _ _ _ Hinv k _ Hk). cbn [normalizeNode n_id].
  by apply (Hcons id doc).
Qed.

Lemma stored_complete (st : State) (id : NodeId) (doc : obj) :
  Reached st → consistent file → (id, Some doc) ∈ answered st →
  isVisibleNode (JObj doc) = true →
  nodeMap st !! Some id = Some (normalizeNode doc).
Proof.
  intros Hst Hcons Ha Hvis. pose proof Hst as (Hinv & _ & _ & [Hans _]).
  pose proof (Hans id _ Ha) as Hfile. symmetry in Hfile.
  destruct (inv_visible_stored _ _ _ Hinv id doc Ha Hvis) as [n Hn].
  cbn [normalizeNode n_id] in Hn. rewrite (Hcons id doc Hfile) in Hn.
  destruct (stored_sound st _ n Hst Hcons Hn)
    as (id' & doc' & [= <-] & Hfile' & _ & -> & _).
  rewrite Hn. congruence.
Qed.

Lemma reachable_visibleFrom (st : State) (id : NodeId) (doc : obj) :
  Reached st → reachable rootId (answered st) id → id ≠ "" →
  file !! id = Some doc → isVisibleNode (JObj doc) = true →
  visibleFrom file rootId id.
Proof.
  intros Hst Hreach. pose proof Hst as (Hinv & _ & _ & [Hans _]).
  revert doc.
  induction Hreach as [|parent pdoc stub id _ IH Ha Hpvis Hin Hsv Hstub];
    intros doc Hne Hfile Hvis.
  - by eapply visible_root.
  - pose proof (Hans parent _ Ha) as Hpfile. symmetry in Hpfile.
    eapply visible_child; [| exact Hpfile | | exact Hfile | exact Hvis].
    + apply (IH pdoc); [| done | done].
      apply (inv_nonempty _ _ _ Hinv). apply (dispatched_enqueued st); [done|].
      by apply (inv_answered _ _ _ Hinv parent (Some pdoc)).
    + apply childIds_elem. eauto.
Qed.

Lemma reached_exact (st : State) :
  Reached st → consistent file →
  (∀ id n, nodeMap st !! Some id = Some n →
     visibleFrom file rootId id ∧ normalizeNode <$> file !! id = Some n)
  ∧ nodeMap st !! None = None
  ∧ (status st = Done →
     ∀ id, visibleFrom file rootId id →
       nodeMap st !! Some id = normalizeNode <$> file !! id).
Proof.
  intros Hst Hcons. pose proof Hst as (Hinv & Hord & _ & [Hans _]).
  split; [| split].
  - intros id n Hn.
    destruct (stored_sound st _ n Hst Hcons Hn)
      as (id' & doc & [= <-] & Hfile & Hvis & -> & Ha).
    split; [| by rewrite Hfile].
    apply (inv_answered _ _ _ Hinv) in Ha.
    apply (dispatched_enqueued st _ Hst) in Ha.
    apply (reachable_visibleFrom st id doc); try done.
    + by apply (inv_origin _ _ _ Hinv).
    + by apply (inv_nonempty _ _ _ Hinv).
  - destruct (nodeMap st !! None) as [n|] eqn:Hn; [| done].
    by destruct (stored_sound st _ n Hst Hcons Hn) as (? & ? & ? & _).
  - intros Hdone.
    assert (∀ id doc, id ∈ enqueued st → file !! id = Some doc →
              isVisibleNode (JObj doc) = true →
              nodeMap st !! Some id = Some (normalizeNode doc)) as Hstored.
    { intros id doc Hid Hfile Hvis.
      destruct (all_answered st id Hst Hdone Hid) as [d Hd].
      pose proof (Hans id d Hd) as ->. rewrite Hfile in Hd.
      by apply stored_complete. }
    intros id Hvf.
    induction Hvf as [doc Hne Hfile Hvis
                     |parent pdoc id doc _ IH Hpfile Hin Hfile Hvis].
    + rewrite Hfile. cbn [fmap option_fmap option_map].
      apply Hstored; [| done | done].
      destruct (ord_root _ _ _ _ Hord Hne) as [later ->]. left.
    + rewrite Hfile. cbn [fmap option_fmap option_map].
      rewrite Hpfile in IH. cbn [fmap option_fmap option_map] in IH.
      destruct (inv_children _ _ _ Hinv _ _ id IH Hin) as [Hq | [n Hn]].
      * apply Hstored; [| done | done]. by apply (inv_queued _ _ _ Hinv).
      * destruct (stored_sound st _ n Hst Hcons Hn)
          as (id' & doc' & [= <-] & Hfile' & _ & -> & _).
        rewrite Hn. congruence.
Qed.

End File.

(** Against a file whose documents carry the identifiers they are filed
    under, in whatever order the responses arrive, every node in the result
    map is the normalization of the file's document of a node visible from
    the root, no node is stored without an identifier, and when the crawl
    has returned the result map holds exactly the nodes visible from the
    root. *)
Theorem crawl_file_exact (rootId : NodeId) (batchSize concurrency : nat)
    (file : gmap NodeId obj) (order : list nat) :
  1 ≤ batchSize → 1 ≤ concurrency → consistent file →
  let st := crawlFileIn batchSize concurrency file order
              (crawlSubtree batchSize concurrency rootId) in
  (∀ id n, nodeMap st !! Some id = Some n →
     visibleFrom file rootId id ∧ normalizeNode <$> file !! id = Some n)
  ∧ nodeMap st !! None = None
  ∧ (status st = Done →
     ∀ id, visibleFrom file rootId id →
       nodeMap st !! Some id = normalizeNode <$> file !! id).
Proof.
  intros Hb Hc Hcons st.
  apply (reached_exact rootId batchSize concurrency file); try done.
  by apply reached_crawlFileIn, reached_crawlSubtree.
Qed.


End FileCrawl.

(** ** File names, fences and elements *)

Module ReportFacts.
Import Normalizer Report.

(** *** Characters *)

Lemma safe_char (c : ascii) :
  isSafe c = true →
  isSpace c = false ∧ toLower c = c
  ∧ (isDash c = true → c = "-"%char).
Proof.
  destruct c as [[] [] [] [] [] [] [] []]; vm_compute; intros H;
    try discriminate H; repeat split; try done.
Qed.

(** *** Lists of characters *)

Lemma forallb_Forall (f : ascii → bool) (s : list ascii) :
  forallb f s = true ↔ Forall (λ c, f c = true) s.
Proof.
  induction s as [|c s IH]; cbn [forallb]; [by split|].
  rewrite andb_true_iff, Forall_cons, IH. done.
Qed.

Section Lists.

Variable p : ascii → bool.

Lemma dropWhile_suffix (s : list ascii) : ∃ pre, s = pre ++ dropWhile p s.
Proof.
  induction s as [|c s [pre IH]]; [by exists []|]. cbn [dropWhile].
  destruct (p c); [| by exists []]. exists (c :: pre). by rewrite IH at 1.
Qed.

Lemma dropEnd_prefix (s : list ascii) : ∃ suf, s = dropEnd p s ++ suf.
Proof.
  induction s as [|c s [suf IH]]; [by exists []|]. cbn [dropEnd].
  destruct (dropEnd p s) as [|c' r] eqn:Hr.
  - destruct (p c); [by exists (c :: s) | by exists s].
  - exists suf. cbn [app]. by rewrite IH at 1.
Qed.

Lemma dropWhile_head (s : list ascii) (c : ascii) :
  head (dropWhile p s) = Some c → p c = false.
Proof.
  induction s as [|c' s IH]; [done|]. cbn [dropWhile].
  destruct (p c') eqn:Hc; [done|]. intros [= ->]. done.
Qed.

Lemma dropWhile_id (s : list ascii) :
  from_option p false (head s) = false → dropWhile p s = s.
Proof. destruct s as [|c s]; [done|]. cbn. by intros ->. Qed.

Lemma dropEnd_cons (c : ascii) (s : list ascii) :
  p c = false → dropEnd p (c :: s) = c :: dropEnd p s.
Proof. intros Hc. cbn [dropEnd]. destruct (dropEnd p s); by rewrite ?Hc. Qed.

Lemma dropEnd_last (s : list ascii) (c : ascii) :
  last (dropEnd p s) = Some c → p c = false.
Proof.
  induction s as [|c' s IH]; [done|]. cbn [dropEnd].
  destruct (dropEnd p s) as [|c'' r] eqn:Hr.
  - destruct (p c') eqn:Hc; [done|]. by intros [= <-].
  - intros Hl. apply IH. by rewrite last_cons_cons in Hl.
Qed.

Lemma dropEnd_id (s : list ascii) :
  from_option p false (last s) = false → dropEnd p s = s.
Proof.
  induction s as [|c s IH]; [done|]. intros Hl. cbn [dropEnd].
  destruct s as [|c' s'].
  - cbn in *. by rewrite Hl.
  - rewrite IH; [done|]. by rewrite last_cons_cons in Hl.
Qed.

Lemma strip_head (s : list ascii) (c : ascii) :
  head (strip p s) = Some c → p c = false.
Proof.
  unfold strip. pose proof (dropWhile_head s) as Hh.
  destruct (dropWhile p s) as [|c' s']; [done|].
  specialize (Hh c' eq_refl). rewrite dropEnd_cons by done.
  by intros [= <-].
Qed.

Lemma strip_Forall (P : ascii → Prop) (s : list ascii) :
  Forall P s → Forall P (strip p s).
Proof.
  intros Hs. unfold strip.
  destruct (dropWhile_suffix s) as [pre Hpre].
  destruct (dropEnd_prefix (dropWhile p s)) as [suf Hsuf].
  rewrite Hpre, Hsuf in Hs.
  by apply Forall_app in Hs as [_ [? _]%Forall_app].
Qed.

Lemma replaceRuns_id (by_ s : list ascii) :
  Forall (λ c, p c = false) s → replaceRuns p by_ s = s.
Proof.
  induction 1 as [|c s Hc _ IH]; [done|]. cbn [replaceRuns].
  by rewrite Hc, IH.
Qed.

Lemma replaceRuns_Forall (P : ascii → Prop) (by_ s : list ascii) :
  Forall P by_ → Forall (λ c, p c = false → P c) s →
  Forall P (replaceRuns p by_ s).
Proof.
  intros Hby. induction 1 as [|c s Hc Hs IH]; [constructor|].
  cbn [replaceRuns]. destruct (p c) eqn:Hpc.
  - destruct s as [|c' s']; [done|]. destruct (p c'); [done|].
    by apply Forall_app.
  - constructor; [by apply Hc | done].
Qed.

End Lists.

Lemma singleDashes_replaceRuns (s : list ascii) :
  singleDashes (replaceRuns isDash ["-"%char] s) = true.
Proof.
  induction s as [|c s IH]; [done|]. cbn [replaceRuns].
  destruct (isDash c) eqn:Hc.
  - destruct s as [|c' s']; [done|].
    destruct (isDash c') eqn:Hc'; [done|].
    revert IH. cbn [replaceRuns]. rewrite Hc'. cbn [app singleDashes].
    intros ->. by rewrite Hc', andb_false_r.
  - cbn [singleDashes].
    destruct (replaceRuns isDash ["-"%char] s); [done|].
    by rewrite Hc, IH.
Qed.

Lemma singleDashes_id (s : list ascii) :
  singleDashes s = true → replaceRuns isDash ["-"%char] s = s.
Proof.
  induction s as [|c s IH]; [done|]. cbn [singleDashes replaceRuns].
  destruct s as [|c' s'].
  - intros _. destruct (isDash c) eqn:Hc; [| done].
    apply Nat.eqb_eq in Hc. f_equal.
    rewrite <- (ascii_nat_embedding c), Hc. done.
  - intros [Hcc Hs]%andb_true_iff. rewrite (IH Hs).
    destruct (isDash c) eqn:Hc; [| done].
    destruct (isDash c') eqn:Hc'; [done|]. cbn [app]. f_equal.
    apply Nat.eqb_eq in Hc. rewrite <- (ascii_nat_embedding c), Hc. done.
Qed.

Lemma singleDashes_app (s t : list ascii) :
  singleDashes (s ++ t) = true →
  singleDashes s = true ∧ singleDashes t = true.
Proof.
  induction s as [|c s IH]; [done|]. cbn [app singleDashes].
  destruct s as [|c' s'].
  - cbn [app]. destruct t; [done|]. by intros [_ ?]%andb_true_iff.
  - cbn [app] in *. intros [Hcc Hs]%andb_true_iff.
    destruct (IH Hs) as [-> ->]. by rewrite Hcc.
Qed.

Lemma singleDashes_strip (p : ascii → bool) (s : list ascii) :
  singleDashes s = true → singleDashes (strip p s) = true.
Proof.
  intros Hs. unfold strip.
  destruct (dropWhile_suffix p s) as [pre Hpre].
  destruct (dropEnd_prefix p (dropWhile p s)) as [suf Hsuf].
  rewrite Hpre, Hsuf in Hs.
  by apply singleDashes_app in Hs as [_ [? _]%singleDashes_app].
Qed.

Lemma sanitizeFileName_eq (input : string) :
  sanitizeFileName input
  = if Nat.eqb (length (cleaned input)) 0 then "unnamed"
    else String.string_of_list_ascii (take 80 (cleaned input)).
Proof. done. Qed.

Lemma cleaned_facts (input : string) :
  Forall (λ c, isSafe c = true) (cleaned input)
  ∧ singleDashes (cleaned input) = true
  ∧ (∀ c, head (cleaned input) = Some c → isDashOrDot c = false)
  ∧ (∀ c, last (cleaned input) = Some c → isDashOrDot c = false).
Proof.
  unfold cleaned. split; [| split; [| split]].
  - apply strip_Forall, replaceRuns_Forall; [by repeat constructor|].
    eapply Forall_impl; [| intros c Hc _; exact Hc].
    apply replaceRuns_Forall; [constructor|].
    apply Forall_forall. intros c _ Hc. by apply negb_false_iff in Hc.
  - apply singleDashes_strip, singleDashes_replaceRuns.
  - apply strip_head.
  - apply dropEnd_last.
Qed.

(** The file name made of any input has between 1 and 80 characters, all
    in [[a-z0-9._-]], starts with neither dash nor dot and has no two dashes
    in a row; unless it was cut at 80 characters it does not end with a dash
    or a dot either. *)
Theorem sanitizeFileName_safe (input : string) :
  let name := String.list_ascii_of_string (sanitizeFileName input) in
  Forall (λ c, isSafe c = true) name
  ∧ 1 ≤ length name ≤ 80
  ∧ (∀ c, head name = Some c → isDashOrDot c = false)
  ∧ singleDashes name = true
  ∧ (length name < 80 → isClean (sanitizeFileName input) = true).
Proof.
  cbv zeta. rewrite sanitizeFileName_eq.
  destruct (cleaned_facts input) as (Hsafe & Hsingle & Hhead & Hlast).
  destruct (length (cleaned input) =? 0) eqn:Hlen.
  { vm_compute. repeat split; try lia; try by repeat constructor.
    by intros c [= <-]. }
  apply Nat.eqb_neq in Hlen.
  unfold isClean. rewrite String.list_ascii_of_string_of_list_ascii.
  assert (Forall (λ c, isSafe c = true) (take 80 (cleaned input))) as Hs
    by (by apply Forall_take).
  assert (singleDashes (take 80 (cleaned input)) = true) as Hsd.
  { rewrite <- (take_drop 80 (cleaned input)) in Hsingle.
    by apply singleDashes_app in Hsingle as [? _]. }
  assert (∀ c, head (take 80 (cleaned input)) = Some c →
               isDashOrDot c = false) as Hh.
  { intros c Hc. apply Hhead. by destruct (cleaned input). }
  rewrite length_take.
  split; [done|]. split; [lia|]. split; [done|]. split; [done|].
  intros Hshort. rewrite take_ge in * by lia.
  rewrite Hsingle, andb_true_r.
  repeat (apply andb_true_iff; split).
  - by apply forallb_Forall.
  - apply Nat.leb_le. lia.
  - apply Nat.leb_le. lia.
  - destruct (head (cleaned input)) as [c|] eqn:Hc; [| done].
    cbn. by rewrite (Hhead c).
  - destruct (last (cleaned input)) as [c|] eqn:Hc; [| done].
    cbn. by rewrite (Hlast c).
Qed.

(** [sanitizeFileName] leaves a clean name as it is: one of 1 to 80
    characters in [[a-z0-9._-]], with no dash or dot at either end and no
    two dashes in a row. *)
Theorem sanitizeFileName_fixes_clean (name : string) :
  isClean name = true → sanitizeFileName name = name.
Proof.
  unfold isClean. cbv zeta.
  intros [[[[[Hsafe Hone]%andb_true_iff Hmax]%andb_true_iff
              Hhead]%andb_true_iff Hlast]%andb_true_iff
            Hsingle]%andb_true_iff.
  rewrite sanitizeFileName_eq. unfold cleaned.
  set (s := String.list_ascii_of_string name) in *.
  assert (Forall (λ c, isSafe c = true) s) as Hs by (by apply forallb_Forall).
  apply Nat.leb_le in Hone, Hmax. apply negb_true_iff in Hhead, Hlast.
  assert (String.eqb name "" = false) as ->.
  { apply String.eqb_neq. intros ->. subst s. cbn in Hone. lia. }
  fold s.
  assert (strip isSpace s = s) as ->.
  { unfold strip. rewrite dropWhile_id, dropEnd_id; try done.
    - destruct (last s) as [c|] eqn:Hc; [| done]. cbn.
      apply safe_char. rewrite Forall_forall in Hs. apply Hs.
      apply last_Some in Hc as [l' ->]. set_solver.
    - destruct s as [|c s']; [done|]. cbn.
      apply safe_char. by apply Forall_cons in Hs as [? _]. }
  assert (map toLower s = s) as ->.
  { clear -Hs. induction Hs as [|c s' Hc _ IH]; [done|]. cbn [map].
    rewrite IH. f_equal. by apply safe_char. }
  rewrite (replaceRuns_id isSpace).
  2: { eapply Forall_impl; [exact Hs|]. intros c Hc. by apply safe_char. }
  rewrite (replaceRuns_id (λ c, negb (isSafe c))).
  2: { eapply Forall_impl; [exact Hs|]. intros c Hc. cbv beta.
       by rewrite Hc. }
  rewrite singleDashes_id by done.
  assert (strip isDashOrDot s = s) as ->.
  { unfold strip. by rewrite dropWhile_id, dropEnd_id. }
  destruct (length s =? 0) eqn:Hz; [apply Nat.eqb_eq in Hz; lia|].
  rewrite take_ge by lia. subst s.
  apply String.string_of_list_ascii_of_string.
Qed.

Lemma sanitizeFileName_fixes_clean_witness :
  sanitizeFileName "hero-section_2.v1" = "hero-section_2.v1".
Proof. apply sanitizeFileName_fixes_clean. reflexivity. Defined.

(** *** Fences *)

Lemma prefix_app (p q text : string) :
  String.prefix (p +:+ q) text = true → String.prefix p text = true.
Proof.
  revert text. induction p as [|a p IH]; intros text; [by destruct text|].
  destruct text as [|b text]; [done|].
  change (String a p +:+ q) with (String a (p +:+ q)). cbn [String.prefix].
  destruct (Ascii.ascii_dec a b); [apply IH | done].
Qed.

Lemma includes_app (p q text : string) :
  includes text (p +:+ q) = true → includes text p = true.
Proof.
  induction text as [|b text IH]; cbn [includes].
  - rewrite !orb_false_r. apply prefix_app.
  - intros [Hp | Hi]%orb_true_iff; apply orb_true_iff;
      [left; by eapply prefix_app | right; by apply IH].
Qed.

(** The fence chosen for a text is three, four or five backquotes, the
    shortest of them that the text does not contain; only when the text
    contains even five backquotes does the fence occur in the text. *)
Theorem fenceForText_not_in_text (text : string) :
  (includes text (fenceForText text) = false
   ↔ includes text "`````" = false)
  ∧ (fenceForText text = "```" ∨ fenceForText text = "````"
     ∨ fenceForText text = "`````")
  ∧ (∀ shorter, shorter = "```" ∨ shorter = "````" →
       String.length shorter < String.length (fenceForText text) →
       includes text shorter = true).
Proof.
  unfold fenceForText.
  pose proof (includes_app "```" "`" text) as H43.
  pose proof (includes_app "````" "`" text) as H54.
  change ("```" +:+ "`") with "````" in H43.
  change ("````" +:+ "`") with "`````" in H54.
  destruct (includes text "```") eqn:H3; cbn [negb].
  - destruct (includes text "````") eqn:H4; cbn [negb].
    + split; [done|]. split; [auto|]. intros s [-> | ->] _; done.
    + split.
      * rewrite H4. split; [| done]. intros _.
        destruct (includes text "`````"); [| done]. by specialize (H54 eq_refl).
      * split; [auto|]. intros s [-> | ->]; [done|]. cbn. lia.
  - split.
    + rewrite H3. split; [| done]. intros _.
      destruct (includes text "`````") eqn:H5; [| done].
      specialize (H54 eq_refl). specialize (H43 H54). done.
    + split; [auto|]. intros s [-> | ->]; cbn; lia.
Qed.

(** *** Elements *)


End ReportFacts.

(** ** The tree of lines *)

Module TreeFacts.
Import Normalizer Crawler Remote Report Files.

Section Walk.

Variable describe : NormalizedNode → string.
Variable nodeMap : gmap (option NodeId) NormalizedNode.

Lemma walk_more_fuel (fuel fuel' : nat) (id : NodeId) (depth : nat)
    (lines : list string) :
  walk describe fuel nodeMap id depth = Some lines → fuel ≤ fuel' →
  walk describe fuel' nodeMap id depth = Some lines.
Proof.
  revert fuel' id depth lines.
  induction fuel as [|fuel IH]; intros fuel' id depth lines Hw Hle; [done|].
  destruct fuel' as [|fuel']; [lia|]. cbn [walk] in *.
  destruct (nodeMap !! Some id) as [n|]; [| done].
  destruct (mapM _ (childIds n)) as [below|] eqn:Hb; [| done].
  assert (mapM (λ childId, walk describe fuel' nodeMap childId (S depth))
            (childIds n) = Some below) as ->; [| done].
  apply mapM_Some. apply mapM_Some in Hb.
  eapply Forall2_impl; [exact Hb|]. intros c l Hc. cbv beta in *.
  apply IH; [done | lia].
Qed.

Lemma walk_ranked (rank : NodeId → nat) (fuel : nat) (id : NodeId)
    (depth : nat) :
  (∀ id n c, nodeMap !! Some id = Some n → c ∈ childIds n →
     is_Some (nodeMap !! Some c) → rank c < rank id) →
  rank id + 2 ≤ fuel →
  is_Some (walk describe fuel nodeMap id depth).
Proof.
  intros Hrank. revert id depth.
  induction fuel as [|fuel IH]; intros id depth Hfuel; [lia|].
  cbn [walk]. destruct (nodeMap !! Some id) as [n|] eqn:Hn; [| done].
  assert (is_Some (mapM (λ childId,
            walk describe fuel nodeMap childId (S depth)) (childIds n)))
    as [below ->]; [| done].
  apply mapM_is_Some, Forall_forall. intros c Hc. unfold compose.
  destruct (nodeMap !! Some c) as [n'|] eqn:Hc'.
  - apply IH. specialize (Hrank id n c Hn Hc). rewrite Hc' in Hrank.
    specialize (Hrank ltac:(done)). lia.
  - destruct fuel; [lia|]. cbn [walk]. by rewrite Hc'.
Qed.

Lemma walk_on_cycle (cycle : gset NodeId) (fuel : nat) (id : NodeId)
    (depth : nat) :
  (∀ id, id ∈ cycle →
     ∃ n c, nodeMap !! Some id = Some n ∧ c ∈ childIds n ∧ c ∈ cycle) →
  id ∈ cycle → walk describe fuel nodeMap id depth = None.
Proof.
  intros Hcycle. revert id depth.
  induction fuel as [|fuel IH]; intros id depth Hid; [done|].
  cbn [walk]. destruct (Hcycle id Hid) as (n & c & -> & Hc & Hin).
  destruct (mapM _ (childIds n)) as [below|] eqn:Hb; [| done].
  assert (is_Some (walk describe fuel nodeMap c (S depth))) as [l Hl].
  { assert (is_Some (mapM (λ childId,
              walk describe fuel nodeMap childId (S depth)) (childIds n)))
      as Hs by (by rewrite Hb).
    rewrite mapM_is_Some, Forall_forall in Hs. by apply (Hs c). }
  by rewrite (IH c (S depth) Hin) in Hl.
Qed.

End Walk.

(** When the children found in the map are ranked below their parents (the
    map has no cycle), [buildTreeLines] returns, with the same lines for
    every sufficient depth of recursion; the first line is the root's, and
    there is none when the root is not in the map. *)
Theorem buildTreeLines_terminates (describe : NormalizedNode → string)
    (nodeMap : gmap (option NodeId) NormalizedNode) (rank : NodeId → nat)
    (rootId : NodeId) :
  (∀ id n c, nodeMap !! Some id = Some n → c ∈ childIds n →
     is_Some (nodeMap !! Some c) → rank c < rank id) →
  ∃ lines,
    (∀ fuel, rank rootId + 2 ≤ fuel →
       buildTreeLines describe fuel nodeMap rootId = Some lines)
    ∧ (∀ fuel lines', buildTreeLines describe fuel nodeMap rootId
                       = Some lines' → lines' = lines)
    ∧ (∀ n, nodeMap !! Some rootId = Some n →
         head lines = Some (describe n))
    ∧ (nodeMap !! Some rootId = None → lines = []).
Proof.
  intros Hrank. unfold buildTreeLines.
  destruct (walk_ranked describe nodeMap rank (rank rootId + 2) rootId 0
              Hrank ltac:(lia)) as [lines Hlines].
  exists lines. split; [| split; [| split]].
  - intros fuel Hfuel. by eapply walk_more_fuel.
  - intros fuel lines' Hl.
    pose proof (walk_more_fuel describe nodeMap _ (fuel + (rank rootId + 2))
                  _ _ _ Hl ltac:(lia)) as H1.
    pose proof (walk_more_fuel describe nodeMap _ (fuel + (rank rootId + 2))
                  _ _ _ Hlines ltac:(lia)) as H2.
    congruence.
  - intros n Hn. replace (rank rootId + 2) with (S (rank rootId + 1))
      in Hlines by lia.
    cbn [walk] in Hlines. rewrite Hn in Hlines.
    destruct (mapM _ _); [| done]. by injection Hlines as <-.
  - intros Hn. replace (rank rootId + 2) with (S (rank rootId + 1))
      in Hlines by lia.
    cbn [walk] in Hlines. rewrite Hn in Hlines. congruence.
Qed.

(** When the child references in the map form a cycle that holds the root,
    the recursion of [buildTreeLines] never ends: at no depth does it
    return. *)
Theorem buildTreeLines_loops_on_cycle (describe : NormalizedNode → string)
    (nodeMap : gmap (option NodeId) NormalizedNode) (cycle : gset NodeId)
    (rootId : NodeId) (fuel : nat) :
  (∀ id, id ∈ cycle →
     ∃ n c, nodeMap !! Some id = Some n ∧ c ∈ childIds n ∧ c ∈ cycle) →
  rootId ∈ cycle →
  buildTreeLines describe fuel nodeMap rootId = None.
Proof. intros Hcycle Hroot. by eapply walk_on_cycle. Qed.

End TreeFacts.

(** ** Crawls without work, and the lemmas above at concrete inputs *)

Module CrawlEdges.
Import Normalizer Crawler Remote Invariants PoolLive Ordering Files Trees Scenarios.
Import CrawlerFacts PoolFacts PoolProgress CrawlOrder FileCrawl Report TreeFacts.




Lemma crawl_requests_in_discovery_order_witness :
  let st := run 1 2 diamondEvents (crawlSubtree 1 2 "root") in
  concat (dispatched st) ++ toExpand st = enqueued st
  ∧ ("root" ≠ "" → ∃ later, enqueued st = "root" :: later).
Proof.
  apply (crawl_requests_in_discovery_order "root" 1 2 diamondEvents); lia.
Defined.

Lemma crawl_batches_bounded_witness :
  let st := run 1 2 diamondEvents (crawlSubtree 1 2 "root") in
  (∀ b, b ∈ dispatched st → 1 ≤ length b ≤ 1)
  ∧ requestCount st = length (dispatched st)
  ∧ length (Pool.items (round st)) ≤ 2
  ∧ length (Pool.inFlight (round st)) ≤ 2
  ∧ Pool.pendingItems (round st) = [].
Proof.
  apply (crawl_batches_bounded "root" 1 2 diamondEvents); lia.
Defined.

Lemma crawl_never_stalls_witness :
  let st := run 1 2 (take 2 diamondEvents) (crawlSubtree 1 2 "root") in
  match status st with
  | Running => Pool.inFlight (round st) ≠ []
  | Done => toExpand st = [] ∧ Pool.inFlight (round st) = []
  | Failed e => ∃ w, Pool.workers (round st) !! w = Some (Pool.Threw e)
  end.
Proof.
  apply (crawl_never_stalls "root" 1 2 (take 2 diamondEvents)); lia.
Defined.

Lemma consistent_scenario : consistent scenario.
Proof. apply (bool_decide_unpack _). vm_compute. reflexivity. Qed.

Lemma crawl_file_exact_witness :
  let st := crawlFileIn 2 1 scenario [0; 0] (crawlSubtree 2 1 "root") in
  (∀ id n, nodeMap st !! Some id = Some n →
     visibleFrom scenario "root" id
     ∧ normalizeNode <$> scenario !! id = Some n)
  ∧ nodeMap st !! None = None
  ∧ (status st = Done →
     ∀ id, visibleFrom scenario "root" id →
       nodeMap st !! Some id = normalizeNode <$> scenario !! id).
Proof.
  apply (crawl_file_exact "root" 2 1 scenario [0; 0]); [lia | lia |].
  apply (bool_decide_unpack _). vm_compute. reflexivity.
Defined.


Lemma buildTreeLines_terminates_witness :
  ∃ lines,
    (∀ fuel, depthOf "root" + 2 ≤ fuel →
       buildTreeLines typeOf fuel scenarioMap "root" = Some lines)
    ∧ (∀ fuel lines', buildTreeLines typeOf fuel scenarioMap "root"
                       = Some lines' → lines' = lines)
    ∧ (∀ n, scenarioMap !! Some "root" = Some n →
         head lines = Some (typeOf n))
    ∧ (scenarioMap !! Some "root" = None → lines = []).
Proof.
  apply (buildTreeLines_terminates typeOf scenarioMap depthOf "root").
  intros id n c Hn Hc Hs.
  assert (Some id ∈ dom scenarioMap) as Hid by (by apply elem_of_dom_2 in Hn).
  assert (Some c ∈ dom scenarioMap) as Hcd by (by apply elem_of_dom).
  assert (dom scenarioMap = {[ Some "root"; Some "A" ]}) as Hdom
    by (vm_compute; reflexivity).
  rewrite Hdom in Hid, Hcd.
  assert (scenarioMap !! Some "A" = Some (normalizeNode docA)) as HA
    by (vm_compute; reflexivity).
  assert (childIds (normalizeNode docA) = []) as HAc
    by (vm_compute; reflexivity).
  assert (scenarioMap !! Some "root" = Some (normalizeNode docRoot)) as HR
    by (vm_compute; reflexivity).
  assert (childIds (normalizeNode docRoot) = ["A"]) as HRc
    by (vm_compute; reflexivity).
  apply elem_of_union in Hid as [[= ->]%elem_of_singleton
                                | [= ->]%elem_of_singleton].
  - rewrite HR in Hn. injection Hn as <-. rewrite HRc in Hc.
    apply list_elem_of_singleton in Hc as ->. vm_compute. lia.
  - rewrite HA in Hn. injection Hn as <-. rewrite HAc in Hc.
    apply elem_of_nil in Hc. destruct Hc.
Defined.

Lemma buildTreeLines_loops_on_cycle_witness :
  buildTreeLines typeOf 100 cyclicMap "root" = None.
Proof.
  apply (buildTreeLines_loops_on_cycle typeOf cyclicMap {[ "root"; "A" ]}).
  - assert (cyclicMap !! Some "root"
            = Some (normalizeNode (default ∅ (cyclic !! "root")))) as HR
      by (vm_compute; reflexivity).
    assert (cyclicMap !! Some "A"
            = Some (normalizeNode (default ∅ (cyclic !! "A")))) as HA
      by (vm_compute; reflexivity).
    intros id [->%elem_of_singleton | ->%elem_of_singleton]%elem_of_union.
    + eexists _, "A". split; [exact HR|]. split; [| set_solver].
      vm_compute. left.
    + eexists _, "root". split; [exact HA|]. split; [| set_solver].
      vm_compute. left.
  - set_solver.
Defined.

End CrawlEdges.
